(** * futurist.periodics: a shallow embedding and its verification

    The development follows [futurist/periodics.py].  Python values that the
    module manipulates are modelled as the code has them:

    - timestamps, spacings and jitter fractions are rationals ([Q]); the
      source mixes [int], [float] and [fractions.Fraction], which the
      rationals idealise;
    - a Python list used as an array is a Rocq [list] read with [!!] and
      written with [<[i:=x]>], with [IndexError] written out where Python
      raises it;
    - a call that may raise returns an [outcome];
    - code that reads or writes the worker, the clock or the lock runs in a
      state-and-exception monad [M] over a [world]. *)

From Stdlib Require Import QArith Lqa.
From stdpp Require Import list strings gmap.

Open Scope string_scope.
Open Scope list_scope.
Open Scope nat_scope.
Open Scope stdpp_scope.

(** ** Python exceptions and outcomes *)

(** The exception classes the module can meet.  [UserException] stands for
    any further class deriving from [Exception], [UserBaseException] for any
    further class deriving from [BaseException] only. *)
Inductive exc_class :=
| TypeError
| ValueError
| IndexError
| KeyError
| AttributeError
| RuntimeError
| UserException (name : string)
| KeyboardInterrupt
| SystemExit
| GeneratorExit
| UserBaseException (name : string).

(** [isinstance(e, Exception)]: what an [except Exception:] clause catches. *)
Definition isinstance_Exception (e : exc_class) : bool :=
  match e with
  | KeyboardInterrupt | SystemExit | GeneratorExit | UserBaseException _ => false
  | _ => true
  end.

Inductive outcome (A : Type) :=
| Ok (a : A)
| Raise (e : exc_class).
Arguments Ok {A} a.
Arguments Raise {A} e.

Definition obind {A B} (o : outcome A) (k : A -> outcome B) : outcome B :=
  match o with
  | Ok a => k a
  | Raise e => Raise e
  end.

Notation "'try!' x := e 'in' k" := (obind e (fun x => k))
  (at level 10, x pattern, e at level 100, k at level 200).

(** ** Rational comparisons as Python evaluates them *)

Definition Qltb (a b : Q) : bool :=
  match (a ?= b)%Q with Lt => true | _ => false end.

Definition Qleb (a b : Q) : bool :=
  match (a ?= b)%Q with Gt => false | _ => true end.

(** [max(a, b)] keeps its first argument unless the second is strictly
    greater; [min(a, b)] keeps its first unless the second is strictly
    smaller. *)
Definition py_max (a b : Q) : Q := if Qltb a b then b else a.
Definition py_min (a b : Q) : Q := if Qltb b a then b else a.

(** ** heapq

    [_Schedule] delegates to the standard library's [heapq.heappush] and
    [heapq.heappop]; the algorithm below is the one of [Lib/heapq.py], an
    array-based binary heap ordered by [<]. *)
Section heapq.
Context {A : Type}.
Variable lt : A -> A -> bool.

(** [heap[i]] *)
Definition getitem (heap : list A) (i : nat) : outcome A :=
  match heap !! i with
  | Some x => Ok x
  | None => Raise IndexError
  end.

(** [heap[i] = x] *)
Definition setitem (heap : list A) (i : nat) (x : A) : outcome (list A) :=
  if i <? length heap then Ok (<[i:=x]> heap) else Raise IndexError.

(** [heap.pop()] *)
Definition list_pop (heap : list A) : outcome (A * list A) :=
  match last heap with
  | Some x => Ok (x, removelast heap)
  | None => Raise IndexError
  end.

(** The [while pos > startpos] loop of [_siftdown].  Each round moves
    [pos] to its parent, so [pos] rounds are enough: [fuel] only makes the
    recursion structural (see [_siftdown_loop_fuel]). *)
Fixpoint _siftdown_loop (fuel : nat) (heap : list A) (newitem : A)
    (startpos pos : nat) : outcome (list A) :=
  match fuel with
  | S fuel' =>
      if startpos <? pos then
        let parentpos := Nat.shiftr (pos - 1) 1 in
        try! parent := getitem heap parentpos in
        if lt newitem parent then
          try! heap := setitem heap pos parent in
          _siftdown_loop fuel' heap newitem startpos parentpos
        else setitem heap pos newitem
      else setitem heap pos newitem
  | O => setitem heap pos newitem
  end.

Definition _siftdown (heap : list A) (startpos pos : nat) : outcome (list A) :=
  try! newitem := getitem heap pos in
  _siftdown_loop pos heap newitem startpos pos.

(** The [while childpos < endpos] loop of [_siftup]: the smaller child is
    moved up until [pos] is a leaf.  Returns the heap and the leaf. *)
Fixpoint _siftup_loop (fuel : nat) (heap : list A) (endpos pos : nat)
    : outcome (list A * nat) :=
  match fuel with
  | S fuel' =>
      let childpos := 2 * pos + 1 in
      if childpos <? endpos then
        let rightpos := childpos + 1 in
        try! childpos :=
          (if rightpos <? endpos then
             try! l := getitem heap childpos in
             try! r := getitem heap rightpos in
             Ok (if negb (lt l r) then rightpos else childpos)
           else Ok childpos) in
        try! c := getitem heap childpos in
        try! heap := setitem heap pos c in
        _siftup_loop fuel' heap endpos childpos
      else Ok (heap, pos)
  | O => Ok (heap, pos)
  end.

Definition _siftup (heap : list A) (pos : nat) : outcome (list A) :=
  let endpos := length heap in
  let startpos := pos in
  try! newitem := getitem heap pos in
  try! (heap, pos) := _siftup_loop endpos heap endpos pos in
  try! heap := setitem heap pos newitem in
  _siftdown heap startpos pos.

Definition heappush (heap : list A) (item : A) : outcome (list A) :=
  let heap := heap ++ [item] in
  _siftdown heap 0 (length heap - 1).

Definition heappop (heap : list A) : outcome (A * list A) :=
  try! (lastelt, heap) := list_pop heap in
  match heap with
  | _ :: _ =>
      try! returnitem := getitem heap 0 in
      try! heap := setitem heap 0 lastelt in
      try! heap := _siftup heap 0 in
      Ok (returnitem, heap)
  | [] => Ok (lastelt, heap)
  end.
End heapq.

(** ** Periodic callables *)

(** Values bound to a callback as its positional and keyword arguments. *)
Inductive data :=
| DNone
| DBool (b : bool)
| DNum (q : Q)
| DStr (s : string).

(** An object handed to the worker as a callback.  An attribute that may be
    absent is an [option]: [None] is "no such attribute" ([hasattr] is
    false), [Some v] is its value; the marker and the flag are kept by their
    truth value, which is all the code looks at.  [cb_name] is what
    [utils.get_callback_name] computes for the object and [cb_body] is what
    calling it does. *)
Record callable_obj := {
  cb_name : string;
  cb_callable : bool;
  _is_periodic : option bool;
  _periodic_spacing : option Q;
  _periodic_run_immediately : option bool;
  cb_body : list data -> list (string * data) -> outcome data;
}.

Definition _REQUIRED_ATTRS : list string :=
  ["_is_periodic"; "_periodic_spacing"; "_periodic_run_immediately"].

Definition is_some {A} (o : option A) : bool :=
  match o with Some _ => true | None => false end.

Definition hasattr (obj : callable_obj) (attr_name : string) : bool :=
  if String.eqb attr_name "_is_periodic" then is_some (_is_periodic obj)
  else if String.eqb attr_name "_periodic_spacing" then is_some (_periodic_spacing obj)
  else if String.eqb attr_name "_periodic_run_immediately"
       then is_some (_periodic_run_immediately obj)
  else false.

Definition _check_attrs (obj : callable_obj) : list string :=
  List.filter (fun attr_name => negb (hasattr obj attr_name)) _REQUIRED_ATTRS.

(** [obj.attr]: [AttributeError] when the attribute is absent. *)
Definition getattr {A} (attr : option A) : outcome A :=
  match attr with
  | Some v => Ok v
  | None => Raise AttributeError
  end.

(** [periodic(spacing, run_immediately)]: the decorator factory.  The
    returned [wrapper] tags [f] and returns [decorator], a function wrapped
    with [six.wraps(f)], which copies the name and the attributes of [f]. *)
Definition periodic (spacing : Q) (run_immediately : bool)
    : outcome (callable_obj -> callable_obj) :=
  if Qleb spacing 0 then Raise ValueError
  else Ok (fun f =>
    {| cb_name := cb_name f;
       cb_callable := true;
       _is_periodic := Some true;
       _periodic_spacing := Some spacing;
       _periodic_run_immediately := Some run_immediately;
       cb_body := cb_body f |}).

(** ** Metrics *)

Record metrics_rec := {
  runs : nat;
  elapsed : Q;
  elapsed_waiting : Q;
  failures : nat;
  successes : nat;
}.

Definition _INITIAL_METRICS : metrics_rec :=
  {| runs := 0; elapsed := 0; elapsed_waiting := 0; failures := 0; successes := 0 |}.

(** ** Calling a Python function

    The strategies are first-class functions stored on the worker and called
    with positional and keyword arguments; whether a call binds is part of
    what the code does. *)

Inductive pyval :=
| VNone
| VNum (q : Q)
| VCallback (cb : callable_obj)
| VMetrics (m : metrics_rec).

(** The parameters of a [def]: those without a default, then those with
    one. *)
Record signature := {
  required : list string;
  optional : list (string * pyval);
}.

Definition param_names (sig : signature) : list string :=
  required sig ++ map fst (optional sig).

Definition bound (name : string) (env : list (string * pyval)) : bool :=
  existsb (fun b => String.eqb name (fst b)) env.

(** Positional arguments fill the parameters from the left; one too many is
    a [TypeError]. *)
Fixpoint bind_positional (names : list string) (args : list pyval)
    : outcome (list (string * pyval)) :=
  match args, names with
  | [], _ => Ok []
  | _ :: _, [] => Raise TypeError
  | v :: args, n :: names =>
      try! env := bind_positional names args in
      Ok ((n, v) :: env)
  end.

(** A keyword argument must name a parameter that is not bound yet. *)
Fixpoint bind_keywords (names : list string) (env : list (string * pyval))
    (kwargs : list (string * pyval)) : outcome (list (string * pyval)) :=
  match kwargs with
  | [] => Ok env
  | (k, v) :: kwargs =>
      if negb (existsb (String.eqb k) names) then Raise TypeError
      else if bound k env then Raise TypeError
      else bind_keywords names (env ++ [(k, v)]) kwargs
  end.

(** Every parameter without a default must be bound in the end; the others
    take their default. *)
Definition bind_arguments (sig : signature) (args : list pyval)
    (kwargs : list (string * pyval)) : outcome (list (string * pyval)) :=
  try! env := bind_positional (param_names sig) args in
  try! env := bind_keywords (param_names sig) env kwargs in
  if forallb (fun n => bound n env) (required sig)
  then Ok (env ++ List.filter (fun d => negb (bound (fst d) env)) (optional sig))
  else Raise TypeError.

Fixpoint local (env : list (string * pyval)) (name : string) : pyval :=
  match env with
  | [] => VNone
  | (n, v) :: env => if String.eqb name n then v else local env name
  end.

(** [cb._periodic_spacing] on a value. *)
Definition spacing_of (v : pyval) : outcome Q :=
  match v with
  | VCallback cb => getattr (_periodic_spacing cb)
  | _ => Raise AttributeError
  end.

(** A value used as a number in [+]. *)
Definition as_num (v : pyval) : outcome Q :=
  match v with
  | VNum q => Ok q
  | _ => Raise TypeError
  end.

(** [random.random()], where the module's [random] is the class
    [SystemRandom] itself ([from random import SystemRandom as random]):
    the method [random(self)] reached through the class and called with the
    given arguments.  [rnd] is the number the system's entropy source would
    deliver. *)
Definition SystemRandom_random (rnd : Q) (args : list pyval) : outcome Q :=
  try! _ := bind_arguments {| required := ["self"]; optional := [] |} args [] in
  Ok rnd.

(** The function objects of the module that are stored and called later.
    [jitter_decorator m func] is the closure [decorator] that
    [_add_jitter(m)(func)] returns. *)
Inductive pyfunc :=
| _last_finished_strategy
| _last_started_strategy
| _now_plus_periodicity
| jitter_decorator (max_percent_jitter : Q) (func : pyfunc).

Definition signature_of (f : pyfunc) : signature :=
  match f with
  | _last_finished_strategy | _last_started_strategy =>
      {| required := ["cb"; "started_at"; "finished_at"; "metrics"]; optional := [] |}
  | _now_plus_periodicity =>
      {| required := ["cb"; "now"]; optional := [] |}
  | jitter_decorator _ _ =>
      {| required := ["cb"; "metrics"]; optional := [("now", VNone)] |}
  end.

(** Calling [f] with positional arguments [args] and keyword arguments
    [kwargs]. *)
Fixpoint call (rnd : Q) (f : pyfunc) (args : list pyval)
    (kwargs : list (string * pyval)) : outcome Q :=
  try! env := bind_arguments (signature_of f) args kwargs in
  match f with
  | _last_finished_strategy =>
      try! how_often := spacing_of (local env "cb") in
      try! finished_at := as_num (local env "finished_at") in
      Ok (finished_at + how_often)%Q
  | _last_started_strategy =>
      try! how_often := spacing_of (local env "cb") in
      try! started_at := as_num (local env "started_at") in
      Ok (started_at + how_often)%Q
  | _now_plus_periodicity =>
      try! how_often := spacing_of (local env "cb") in
      try! now := as_num (local env "now") in
      Ok (how_often + now)%Q
  | jitter_decorator max_percent_jitter func =>
      try! next_run :=
        call rnd func [local env "cb"; local env "metrics"] [("now", local env "now")] in
      try! how_often := spacing_of (local env "cb") in
      try! r := SystemRandom_random rnd [] in
      let jitter := (how_often * (r * max_percent_jitter))%Q in
      Ok (next_run + jitter)%Q
  end.

Definition _add_jitter (max_percent_jitter : Q) : outcome (pyfunc -> pyfunc) :=
  if Qltb 1 max_percent_jitter || Qltb max_percent_jitter 0 then Raise ValueError
  else Ok (fun func => jitter_decorator max_percent_jitter func).

Definition DEFAULT_JITTER : Q := 5 # 100.

(** The class attribute [BUILT_IN_STRATEGIES]: name to (recurring strategy,
    initial strategy), evaluated once, when the class body runs. *)
Definition BUILT_IN_STRATEGIES : outcome (gmap string (pyfunc * pyfunc)) :=
  try! with_jitter := _add_jitter DEFAULT_JITTER in
  let last_started_jitter := with_jitter _last_started_strategy in
  try! with_jitter := _add_jitter DEFAULT_JITTER in
  let last_finished_jitter := with_jitter _last_finished_strategy in
  Ok (<["last_started" := (_last_started_strategy, _now_plus_periodicity)]>
      (<["last_started_jitter" := (last_started_jitter, _now_plus_periodicity)]>
      (<["last_finished" := (_last_finished_strategy, _now_plus_periodicity)]>
      (<["last_finished_jitter" := (last_finished_jitter, _now_plus_periodicity)]>
       ∅)))).

(** ** _Schedule *)

(** A heap entry [(next_run, index)]. *)
Abbreviation entry := (Q * nat)%type.

(** [a < b] on two such tuples: the first components decide unless they are
    equal, then the second do. *)
Definition entry_lt (a b : entry) : bool :=
  match (fst a ?= fst b)%Q with
  | Lt => true
  | Gt => false
  | Eq => snd a <? snd b
  end.

Record _Schedule := { _ordering : list entry }.

Definition _Schedule__init__ : _Schedule := {| _ordering := [] |}.

Definition push (self : _Schedule) (next_run : Q) (index : nat) : outcome _Schedule :=
  try! ordering := heappush entry_lt (_ordering self) (next_run, index) in
  Ok {| _ordering := ordering |}.

Definition _Schedule__len__ (self : _Schedule) : nat := length (_ordering self).

Definition pop (self : _Schedule) : outcome (entry * _Schedule) :=
  try! (item, ordering) := heappop entry_lt (_ordering self) in
  Ok (item, {| _ordering := ordering |}).

(** ** The worker and the world it runs in *)

(** A registry entry [(cb, cb_name, args, kwargs)]. *)
Abbreviation registration :=
  (callable_obj * string * list data * list (string * data))%type.

Record PeriodicWorker := {
  _tombstone : bool;
  _dead : bool;
  _metrics : list metrics_rec;
  _callables : list registration;
  _schedule_strategy : pyfunc;
  _initial_schedule_strategy : pyfunc;
  _immediates : list nat;
  _schedule : _Schedule;
}.

(** The shared state the lock is there for. *)
Inductive location :=
| Tombstone
| Dead
| Metrics
| Registry
| Immediates
| Schedule.

(** One read or write of a shared location, with whether the thread doing it
    was inside [with self._waiter] at that moment. *)
Record access := {
  acc_location : location;
  acc_write : bool;
  acc_locked : bool;
}.

(** What the code can reach besides its arguments: the worker, the clock
    behind [utils.now()] (its successive readings and how many were taken),
    the entropy behind [random], whether the running thread holds the
    condition's lock, the record of its accesses to shared state, and the
    messages sent to the logger. *)
Record world := {
  self : PeriodicWorker;
  clock : nat -> Q;
  ticks : nat;
  entropy : Q;
  lock_held : bool;
  accesses : list access;
  logged : list (string * string);
}.

Definition M (A : Type) : Type := world -> outcome A * world.

Definition ret {A} (a : A) : M A := fun w => (Ok a, w).

Definition bind {A B} (m : M A) (k : A -> M B) : M B :=
  fun w =>
    match m w with
    | (Ok a, w') => k a w'
    | (Raise e, w') => (Raise e, w')
    end.

Notation "'do!' x := m 'in' k" := (bind m (fun x => k))
  (at level 10, x pattern, m at level 100, k at level 200).
Notation "m ;; k" := (bind m (fun _ => k))
  (at level 100, right associativity).

Definition raise {A} (e : exc_class) : M A := fun w => (Raise e, w).

Definition lift {A} (o : outcome A) : M A := fun w => (o, w).

Definition set_self (s : PeriodicWorker) (w : world) : world :=
  {| self := s; clock := clock w; ticks := ticks w; entropy := entropy w;
     lock_held := lock_held w; accesses := accesses w; logged := logged w |}.

Definition set_lock_held (b : bool) (w : world) : world :=
  {| self := self w; clock := clock w; ticks := ticks w; entropy := entropy w;
     lock_held := b; accesses := accesses w; logged := logged w |}.

Definition tick (w : world) : world :=
  {| self := self w; clock := clock w; ticks := S (ticks w); entropy := entropy w;
     lock_held := lock_held w; accesses := accesses w; logged := logged w |}.

Definition record_log (message : string * string) (w : world) : world :=
  {| self := self w; clock := clock w; ticks := ticks w; entropy := entropy w;
     lock_held := lock_held w; accesses := accesses w;
     logged := logged w ++ [message] |}.

Definition record_access (a : access) (w : world) : world :=
  {| self := self w; clock := clock w; ticks := ticks w; entropy := entropy w;
     lock_held := lock_held w; accesses := accesses w ++ [a]; logged := logged w |}.

(** [utils.now()] *)
Definition utils_now : M Q :=
  fun w => (Ok (clock w (ticks w)), tick w).

(** [self._log.debug(...)], [self._log.error(...)] *)
Definition log (level : string) (about : string) : M unit :=
  fun w => (Ok tt, record_log (level, about) w).

Definition touch (l : location) (write : bool) : M unit :=
  fun w =>
    (Ok tt,
     record_access
       {| acc_location := l; acc_write := write; acc_locked := lock_held w |} w).

(** Reading a shared part of the worker. *)
Definition read {A} (l : location) (field : PeriodicWorker -> A) : M A :=
  touch l false ;; fun w => (Ok (field (self w)), w).

(** Writing one: rebinding the attribute or mutating the object it holds. *)
Definition write (l : location) (update : PeriodicWorker -> PeriodicWorker) : M unit :=
  touch l true ;; fun w => (Ok tt, set_self (update (self w)) w).

(** [with self._waiter: body]; the lock is released however [body] ends. *)
Definition with_waiter {A} (body : M A) : M A :=
  fun w =>
    let (r, w') := body (set_lock_held true w) in
    (r, set_lock_held false w').

(** A call of a stored function. *)
Definition call_stored (f : pyfunc) (args : list pyval) : M Q :=
  fun w => (call (entropy w) f args [], w).

Definition set_tombstone (b : bool) (s : PeriodicWorker) : PeriodicWorker :=
  {| _tombstone := b; _dead := _dead s; _metrics := _metrics s;
     _callables := _callables s; _schedule_strategy := _schedule_strategy s;
     _initial_schedule_strategy := _initial_schedule_strategy s;
     _immediates := _immediates s; _schedule := _schedule s |}.

Definition set_dead (b : bool) (s : PeriodicWorker) : PeriodicWorker :=
  {| _tombstone := _tombstone s; _dead := b; _metrics := _metrics s;
     _callables := _callables s; _schedule_strategy := _schedule_strategy s;
     _initial_schedule_strategy := _initial_schedule_strategy s;
     _immediates := _immediates s; _schedule := _schedule s |}.

Definition set_metrics (m : list metrics_rec) (s : PeriodicWorker) : PeriodicWorker :=
  {| _tombstone := _tombstone s; _dead := _dead s; _metrics := m;
     _callables := _callables s; _schedule_strategy := _schedule_strategy s;
     _initial_schedule_strategy := _initial_schedule_strategy s;
     _immediates := _immediates s; _schedule := _schedule s |}.

Definition set_callables (c : list registration) (s : PeriodicWorker) : PeriodicWorker :=
  {| _tombstone := _tombstone s; _dead := _dead s; _metrics := _metrics s;
     _callables := c; _schedule_strategy := _schedule_strategy s;
     _initial_schedule_strategy := _initial_schedule_strategy s;
     _immediates := _immediates s; _schedule := _schedule s |}.

Definition set_strategies (recurring initial : pyfunc) (s : PeriodicWorker)
    : PeriodicWorker :=
  {| _tombstone := _tombstone s; _dead := _dead s; _metrics := _metrics s;
     _callables := _callables s; _schedule_strategy := recurring;
     _initial_schedule_strategy := initial;
     _immediates := _immediates s; _schedule := _schedule s |}.

Definition set_immediates (i : list nat) (s : PeriodicWorker) : PeriodicWorker :=
  {| _tombstone := _tombstone s; _dead := _dead s; _metrics := _metrics s;
     _callables := _callables s; _schedule_strategy := _schedule_strategy s;
     _initial_schedule_strategy := _initial_schedule_strategy s;
     _immediates := i; _schedule := _schedule s |}.

Definition set_schedule (sch : _Schedule) (s : PeriodicWorker) : PeriodicWorker :=
  {| _tombstone := _tombstone s; _dead := _dead s; _metrics := _metrics s;
     _callables := _callables s; _schedule_strategy := _schedule_strategy s;
     _initial_schedule_strategy := _initial_schedule_strategy s;
     _immediates := _immediates s; _schedule := sch |}.

(** An attribute that only [__init__] binds, or a shared one read while the
    object is still private to its constructor. *)
Definition attr {A} (field : PeriodicWorker -> A) : M A :=
  fun w => (Ok (field (self w)), w).

Definition assign (update : PeriodicWorker -> PeriodicWorker) : M unit :=
  fun w => (Ok tt, set_self (update (self w)) w).

(** A method call on the object a shared attribute holds, such as
    [self._schedule.pop()]: one access, which changes the object in place
    and may raise. *)
Definition mutate {A T} (l : location) (field : PeriodicWorker -> T)
    (set : T -> PeriodicWorker -> PeriodicWorker) (method : T -> outcome (A * T))
    : M A :=
  touch l true ;;
  fun w =>
    match method (field (self w)) with
    | Ok (a, t) => (Ok a, set_self (set t (self w)) w)
    | Raise e => (Raise e, w)
    end.

(** [try: body / except <classes>: pass / else: ...]: [None] when one of the
    classes was caught. *)
Definition attempt {A} (catches : exc_class -> bool) (body : M A) : M (option A) :=
  fun w =>
    match body w with
    | (Ok a, w') => (Ok (Some a), w')
    | (Raise e, w') => if catches e then (Ok None, w') else (Raise e, w')
    end.

(** [self._waiter.notify_all()]: needs the lock. *)
Definition notify_all : M unit :=
  fun w => if lock_held w then (Ok tt, w) else (Raise RuntimeError, w).

(** [wp m Q w]: running [m] in [w] ends, with a result and in a world
    that satisfy [Q]. *)
Definition wp {A} (m : M A) (Q : outcome A -> world -> Prop) (w : world) : Prop :=
  Q (fst (m w)) (snd (m w)).

(** ** _run_callback *)

Definition exc_name (e : exc_class) : string :=
  match e with
  | TypeError => "TypeError"
  | ValueError => "ValueError"
  | IndexError => "IndexError"
  | KeyError => "KeyError"
  | AttributeError => "AttributeError"
  | RuntimeError => "RuntimeError"
  | UserException name => name
  | KeyboardInterrupt => "KeyboardInterrupt"
  | SystemExit => "SystemExit"
  | GeneratorExit => "GeneratorExit"
  | UserBaseException name => name
  end.

(** [traceback.format_exc()] for the exception being handled. *)
Definition format_exc (e : exc_class) : string :=
  String.append "Traceback (most recent call last): " (exc_name e).

(** Calling [cb] with its arguments: an object that is not callable raises
    [TypeError]. *)
Definition invoke (cb : callable_obj) (args : list data) (kwargs : list (string * data))
    : outcome data :=
  if cb_callable cb then cb_body cb args kwargs else Raise TypeError.

Definition _run_callback (cb : callable_obj) (args : list data)
    (kwargs : list (string * data)) : M (Q * Q * option string) :=
  let pretty_tb := None in
  do! started_at := utils_now in
  do! pretty_tb :=
    match invoke cb args kwargs with
    | Ok _ => ret pretty_tb
    | Raise e =>
        if isinstance_Exception e then ret (Some (format_exc e)) else raise e
    end in
  do! finished_at := utils_now in
  ret (started_at, finished_at, pretty_tb).

(** ** _build *)

(** Modelled from the spec: [futurist/_utils.py] is not among the sources.
    [utils.reverse_enumerate(items)] yields [(index, item)] from the last
    item to the first, which is what the comment in [_build] says it is
    used for (indices are appended last to first so that popping gives them
    first to last, the order of consumption of the ImmediateSet in §3). *)
Fixpoint reverse_enumerate_from {A} (items : list A) (idx : nat) : list (nat * A) :=
  match idx with
  | O => []
  | S idx' =>
      match items !! idx' with
      | Some item => (idx', item) :: reverse_enumerate_from items idx'
      | None => []
      end
  end.

Definition reverse_enumerate {A} (items : list A) : list (nat * A) :=
  reverse_enumerate_from items (length items).

(** The [for] loop of [_build], over what [reverse_it] yields, with the
    local variables [now], [immediates] and [schedule]. *)
Fixpoint _build_loop (reverse_it : list (nat * registration))
    (next_run_scheduler : pyfunc) (now : option Q) (immediates : list nat)
    (schedule : _Schedule) : M (list nat * _Schedule) :=
  match reverse_it with
  | [] => ret (immediates, schedule)
  | (index, (cb, _cb_name, args, kwargs)) :: reverse_it =>
      do! run_immediately := lift (getattr (_periodic_run_immediately cb)) in
      if (run_immediately : bool) then
        _build_loop reverse_it next_run_scheduler now (immediates ++ [index]) schedule
      else
        do! now := match now with
                   | None => utils_now
                   | Some now => ret now
                   end in
        do! next_run := call_stored next_run_scheduler [VCallback cb; VNum now] in
        do! schedule := lift (push schedule next_run index) in
        _build_loop reverse_it next_run_scheduler (Some now) immediates schedule
  end.

Definition _build (callables : list registration) (next_run_scheduler : pyfunc)
    : M (list nat * _Schedule) :=
  let schedule := _Schedule__init__ in
  let now := None in
  let immediates := [] in
  let reverse_it := reverse_enumerate callables in
  _build_loop reverse_it next_run_scheduler now immediates schedule.

(** ** PeriodicWorker *)

Definition MAX_LOOP_IDLE : Q := 30.
Definition _NO_OP_ARGS : list data := [].
Definition _NO_OP_KWARGS : list (string * data) := [].

(** The object [__init__] receives: nothing bound yet.  The two strategy
    attributes hold a placeholder until [__init__] binds them; nothing reads
    them before. *)
Definition new_instance : PeriodicWorker :=
  {| _tombstone := false; _dead := false; _metrics := []; _callables := [];
     _schedule_strategy := _last_started_strategy;
     _initial_schedule_strategy := _now_plus_periodicity;
     _immediates := []; _schedule := _Schedule__init__ |}.

Definition fresh_world (clock : nat -> Q) (ticks : nat) (entropy : Q) : world :=
  {| self := new_instance; clock := clock; ticks := ticks; entropy := entropy;
     lock_held := false; accesses := []; logged := [] |}.

(** The [for (cb, args, kwargs) in callables] loop of [__init__]; [None]
    for [args] or [kwargs] is Python's [None]. *)
Fixpoint __init__loop
    (callables : list (callable_obj * option (list data) * option (list (string * data))))
    : M unit :=
  match callables with
  | [] => ret tt
  | (cb, args, kwargs) :: callables =>
      if negb (cb_callable cb) then raise ValueError
      else
        let missing_attrs := _check_attrs cb in
        match missing_attrs with
        | _ :: _ => raise ValueError
        | [] =>
            do! is_periodic := lift (getattr (_is_periodic cb)) in
            (if (is_periodic : bool) then
               let args := match args with None => _NO_OP_ARGS | Some a => a end in
               let kwargs := match kwargs with None => _NO_OP_KWARGS | Some k => k end in
               let cb_name := cb_name cb in
               assign (fun s => set_callables (_callables s ++ [(cb, cb_name, args, kwargs)]) s) ;;
               assign (fun s => set_metrics (_metrics s ++ [_INITIAL_METRICS]) s)
             else ret tt) ;;
            __init__loop callables
        end
  end.

Definition __init__
    (callables : list (callable_obj * option (list data) * option (list (string * data))))
    (schedule_strategy : string) : M unit :=
  assign (set_tombstone false) ;;
  assign (set_dead false) ;;
  assign (set_metrics []) ;;
  assign (set_callables []) ;;
  __init__loop callables ;;
  do! strategy :=
    (do! table := lift BUILT_IN_STRATEGIES in
     match (table : gmap string (pyfunc * pyfunc)) !! schedule_strategy with
     | Some strategy => ret strategy
     | None => raise ValueError
     end) in
  assign (set_strategies (fst strategy) (snd strategy)) ;;
  do! callables := attr _callables in
  do! initial := attr _initial_schedule_strategy in
  do! (immediates, schedule) := _build callables initial in
  assign (set_immediates immediates) ;;
  assign (set_schedule schedule).

(** [len(worker)] *)
Definition PeriodicWorker__len__ (s : PeriodicWorker) : nat := length (_callables s).

(** [metrics[key] = v] on the dict that [self._metrics[index]] holds:
    [m] is the dict after the assignment. *)
Definition setkey (index : nat) (m : metrics_rec) : M metrics_rec :=
  write Metrics (fun s => set_metrics (<[index:=m]> (_metrics s)) s) ;;
  ret m.

(** [_on_done], the completion callback attached to a submitted call; [fut]
    is what [fut.result()] gives: the triple [_run_callback] returned, or
    the exception it let through. *)
Definition _on_done (kind : string) (cb : callable_obj) (cb_name : string)
    (index : nat) (submitted_at : Q) (fut : outcome (Q * Q * option string)) : M unit :=
  do! (started_at, finished_at, pretty_tb) := lift fut in
  do! metrics := (do! ms := read Metrics _metrics in lift (getitem ms index)) in
  do! metrics :=
    setkey index {| runs := runs metrics + 1; elapsed := elapsed metrics;
                    elapsed_waiting := elapsed_waiting metrics;
                    failures := failures metrics; successes := successes metrics |} in
  do! metrics :=
    match pretty_tb with
    | Some _ =>
        do! how_often := lift (getattr (_periodic_spacing cb)) in
        log "error" cb_name ;;
        setkey index {| runs := runs metrics; elapsed := elapsed metrics;
                        elapsed_waiting := elapsed_waiting metrics;
                        failures := failures metrics + 1;
                        successes := successes metrics |}
    | None =>
        setkey index {| runs := runs metrics; elapsed := elapsed metrics;
                        elapsed_waiting := elapsed_waiting metrics;
                        failures := failures metrics;
                        successes := successes metrics + 1 |}
    end in
  let elapsed_ := py_max 0 (finished_at - started_at) in
  let elapsed_waiting_ := py_max 0 (started_at - submitted_at) in
  do! metrics :=
    setkey index {| runs := runs metrics; elapsed := (elapsed metrics + elapsed_)%Q;
                    elapsed_waiting := elapsed_waiting metrics;
                    failures := failures metrics; successes := successes metrics |} in
  do! metrics :=
    setkey index {| runs := runs metrics; elapsed := elapsed metrics;
                    elapsed_waiting := (elapsed_waiting metrics + elapsed_waiting_)%Q;
                    failures := failures metrics; successes := successes metrics |} in
  do! strategy := attr _schedule_strategy in
  do! next_run := call_stored strategy
                    [VCallback cb; VNum started_at; VNum finished_at; VMetrics metrics] in
  with_waiter (
    mutate Schedule _schedule set_schedule
      (fun sch => try! sch := push sch next_run index in Ok (tt, sch)) ;;
    notify_all).

(** ** The run loop

    [_run] never returns while the worker lives, so it is a machine stepped
    one loop iteration at a time.  An iteration ends where the thread hands
    control over: on submitting a call to the executor, on
    [self._waiter.wait(...)], or on leaving the loop. *)

(** Where the coordinator thread stands between two steps. *)
Inductive position :=
| Top        (* about to test [while not self._tombstone.is_set()] *)
| Waiting    (* inside [self._waiter.wait(MAX_LOOP_IDLE)] of the inner [while] *)
| Left.      (* out of the loop *)

(** What a step hands over. *)
Inductive action :=
| Submit (kind : string) (cb : callable_obj) (cb_name : string) (index : nat)
    (submitted_at : Q) (args : list data) (kwargs : list (string * data))
| Wait (timeout : Q)
| Pass
| Leave.

Definition lookup_registration (index : nat) : M registration :=
  do! cs := read Registry _callables in
  lift (getitem cs index).

(** The body of [with self._waiter:] in the [else] branch, from the inner
    [while] on.  The thread holds the lock here. *)
Definition _run_locked : M (action * position) :=
  do! sch := read Schedule _schedule in
  do! idle :=
    (if _Schedule__len__ sch =? 0
     then do! t := read Tombstone _tombstone in ret (negb t)
     else ret false) in
  if (idle : bool) then ret (Wait MAX_LOOP_IDLE, Waiting)
  else
    do! t := read Tombstone _tombstone in
    if (t : bool) then ret (Leave, Left)
    else
      do! now := utils_now in
      let submitted_at := now in
      do! (next_run, index) := mutate Schedule _schedule set_schedule pop in
      let when_next := (next_run - now)%Q in
      if Qleb when_next 0 then
        do! (cb, cb_name, args, kwargs) := lookup_registration index in
        log "debug" cb_name ;;
        ret (Submit "periodic" cb cb_name index submitted_at args kwargs, Top)
      else
        mutate Schedule _schedule set_schedule
          (fun sch => try! sch := push sch next_run index in Ok (tt, sch)) ;;
        let when_next := py_min when_next MAX_LOOP_IDLE in
        ret (Wait when_next, Top).

Definition is_IndexError (e : exc_class) : bool :=
  match e with IndexError => true | _ => false end.

(** One iteration of [while not self._tombstone.is_set():], or the
    resumption of the inner [while] after its wait. *)
Definition _run_step (at_ : position) : M (action * position) :=
  match at_ with
  | Left => ret (Leave, Left)
  | Waiting => with_waiter _run_locked
  | Top =>
      do! t := read Tombstone _tombstone in
      if (t : bool) then ret (Leave, Left)
      else
        do! immediates := read Immediates _immediates in
        match immediates with
        | _ :: _ =>
            do! popped := attempt is_IndexError
                            (mutate Immediates _immediates set_immediates list_pop) in
            match popped with
            | None => ret (Pass, Top)
            | Some index =>
                do! (cb, cb_name, args, kwargs) := lookup_registration index in
                do! submitted_at := utils_now in
                log "debug" cb_name ;;
                ret (Submit "immediate" cb cb_name index submitted_at args kwargs, Top)
            end
        | [] => with_waiter _run_locked
        end
  end.

(** ** add, start, stop, reset, wait *)

Definition add (cb : callable_obj) (args : list data) (kwargs : list (string * data))
    : M unit :=
  if negb (cb_callable cb) then raise ValueError
  else
    let missing_attrs := _check_attrs cb in
    match missing_attrs with
    | _ :: _ => raise ValueError
    | [] =>
        do! now := utils_now in
        with_waiter (
          do! cs := read Registry _callables in
          let index := length cs in
          let cb_name := cb_name cb in
          write Registry (fun s => set_callables (_callables s ++ [(cb, cb_name, args, kwargs)]) s) ;;
          write Metrics (fun s => set_metrics (_metrics s ++ [_INITIAL_METRICS]) s) ;;
          do! run_immediately := lift (getattr (_periodic_run_immediately cb)) in
          (if (run_immediately : bool) then
             write Immediates (fun s => set_immediates (_immediates s ++ [index]) s)
           else
             do! initial := attr _initial_schedule_strategy in
             do! next_run := call_stored initial [VCallback cb; VNum now] in
             mutate Schedule _schedule set_schedule
               (fun sch => try! sch := push sch next_run index in Ok (tt, sch))) ;;
          notify_all)
    end.

(** [start] up to the call of [self._run(executor)] ... *)
Definition start_enter (allow_empty : bool) : M unit :=
  do! cs := read Registry _callables in
  match cs with
  | [] => if allow_empty then write Dead (set_dead false) else raise RuntimeError
  | _ :: _ => write Dead (set_dead false)
  end.

(** ... and its [finally] clause, once the loop is left. *)
Definition start_leave : M unit :=
  write Dead (set_dead true).

Definition stop : M unit :=
  with_waiter (
    write Tombstone (set_tombstone true) ;;
    notify_all).

Definition zeroed (m : metrics_rec) : metrics_rec :=
  {| runs := 0; elapsed := 0; elapsed_waiting := 0; failures := 0; successes := 0 |}.

Definition reset : M unit :=
  write Tombstone (set_tombstone false) ;;
  write Dead (set_dead false) ;;
  write Metrics (fun s => set_metrics (map zeroed (_metrics s)) s) ;;
  do! callables := read Registry _callables in
  do! initial := attr _initial_schedule_strategy in
  do! (immediates, schedule) := _build callables initial in
  write Immediates (set_immediates immediates) ;;
  write Schedule (set_schedule schedule).

(** [wait(timeout)] once the wait on [self._dead] is over. *)
Definition wait : M bool :=
  read Dead _dead.

(** ** The worker among its threads

    The coordinator thread steps the loop, the executor completes submitted
    calls at moments of its own, and callers use [add], [stop], [reset] and
    [start].  Each of these is an event fired on the system. *)

(** A call handed to the executor, with what was bound to its [_on_done]:
    [functools.partial(_on_done, kind, cb, cb_name, index, submitted_at)]. *)
Record dispatched := {
  d_kind : string;
  d_cb : callable_obj;
  d_cb_name : string;
  d_index : nat;
  d_submitted_at : Q;
}.

Record system := {
  sys_world : world;
  sys_at : position;
  in_flight : list dispatched;
}.

Inductive event :=
| EAdd (cb : callable_obj) (args : list data) (kwargs : list (string * data))
| EStop
| EReset
| EStart (allow_empty : bool)
| ELoop
| EComplete (n : nat) (fut : outcome (Q * Q * option string)).

Definition fire (ev : event) (s : system) : system :=
  match ev with
  | EAdd cb args kwargs =>
      {| sys_world := snd (add cb args kwargs (sys_world s));
         sys_at := sys_at s; in_flight := in_flight s |}
  | EStop =>
      {| sys_world := snd (stop (sys_world s)); sys_at := sys_at s;
         in_flight := in_flight s |}
  | EReset =>
      {| sys_world := snd (reset (sys_world s)); sys_at := sys_at s;
         in_flight := in_flight s |}
  | EStart allow_empty =>
      match sys_at s with
      | Left =>
          match start_enter allow_empty (sys_world s) with
          | (Ok _, w) => {| sys_world := w; sys_at := Top; in_flight := in_flight s |}
          | (Raise _, w) => {| sys_world := w; sys_at := Left; in_flight := in_flight s |}
          end
      | _ => s
      end
  | ELoop =>
      match sys_at s with
      | Left => s
      | at_ =>
          match _run_step at_ (sys_world s) with
          | (Ok (Submit kind cb cb_name index submitted_at _ _, at'), w) =>
              {| sys_world := w; sys_at := at';
                 in_flight := in_flight s ++
                   [{| d_kind := kind; d_cb := cb; d_cb_name := cb_name;
                       d_index := index; d_submitted_at := submitted_at |}] |}
          | (Ok (Leave, _), w) | (Raise _, w) =>
              {| sys_world := snd (start_leave w); sys_at := Left;
                 in_flight := in_flight s |}
          | (Ok (_, at'), w) =>
              {| sys_world := w; sys_at := at'; in_flight := in_flight s |}
          end
      end
  | EComplete n fut =>
      match in_flight s !! n with
      | Some d =>
          {| sys_world :=
               snd (_on_done (d_kind d) (d_cb d) (d_cb_name d) (d_index d)
                      (d_submitted_at d) fut (sys_world s));
             sys_at := sys_at s;
             in_flight := delete n (in_flight s) |}
      | None => s
      end
  end.

Definition run_events (evs : list event) (s : system) : system :=
  foldl (fun s ev => fire ev s) s evs.

(** The system around a worker that [__init__] has just returned. *)
Definition constructed (w : world) : system :=
  {| sys_world := w; sys_at := Left; in_flight := [] |}.

(** ** Sequences of schedule operations *)

Inductive schedule_op :=
| OpPush (next_run : Q) (index : nat)
| OpPop.

Fixpoint run_ops (ops : list schedule_op) (sch : _Schedule) : outcome _Schedule :=
  match ops with
  | [] => Ok sch
  | OpPush next_run index :: ops =>
      try! sch := push sch next_run index in
      run_ops ops sch
  | OpPop :: ops =>
      try! (_, sch) := pop sch in
      run_ops ops sch
  end.

(** ** Properties to state *)

(** [j] is a child of [i] in the array-shaped tree. *)
Definition child (i j : nat) : Prop := j = 2 * i + 1 \/ j = 2 * i + 2.

(** The heap invariant of [heapq]: no item is smaller than its parent. *)
Definition heap_ordered {A} (lt : A -> A -> bool) (heap : list A) : Prop :=
  forall i j x y, child i j -> heap !! i = Some x -> heap !! j = Some y -> lt y x = false.

(** The array during [_siftdown]: [newitem] is held aside and [pos] is the
    hole it will fill.  Every pair not touching the hole is in order, the
    children of the hole are no smaller than [newitem], nor than the item
    above the hole. *)
Definition hole_ok {A} (lt : A -> A -> bool) (h : list A) (newitem : A) (pos : nat)
    : Prop :=
  pos < length h /\
  (forall i j x y, child i j -> i <> pos -> j <> pos ->
     h !! i = Some x -> h !! j = Some y -> lt y x = false) /\
  (forall c y, child pos c -> h !! c = Some y -> lt y newitem = false) /\
  (forall p c x y, child p pos -> child pos c ->
     h !! p = Some x -> h !! c = Some y -> lt y x = false).

(** The array during the first loop of [_siftup]: the item at [pos] has
    been moved up (or held aside), every pair whose parent is not [pos] is
    in order, and the children of [pos] are no smaller than the item above
    [pos]. *)
Definition gap_ok {A} (lt : A -> A -> bool) (h : list A) (pos : nat) : Prop :=
  pos < length h /\
  (forall i j x y, child i j -> i <> pos ->
     h !! i = Some x -> h !! j = Some y -> lt y x = false) /\
  (forall p c x y, child p pos -> child pos c ->
     h !! p = Some x -> h !! c = Some y -> lt y x = false).

(** The registry and the metrics table are aligned and every index held
    anywhere is one of the registry. *)
Definition aligned (s : system) : Prop :=
  let me := self (sys_world s) in
  length (_metrics me) = length (_callables me) /\
  Forall (fun index => index < length (_callables me)) (_immediates me) /\
  Forall (fun e : entry => snd e < length (_callables me)) (_ordering (_schedule me)) /\
  Forall (fun d => d_index d < length (_callables me)) (in_flight s).

(** What the registration paths have checked of a registry entry. *)
Definition registered_ok (r : registration) : Prop :=
  cb_callable r.1.1.1 = true /\ _check_attrs r.1.1.1 = [] /\ r.1.1.2 = cb_name r.1.1.1.

(** The state of a worker built with strategy [name], between two
    operations. *)
Definition worker_ok (name : string) (me : PeriodicWorker) : Prop :=
  length (_metrics me) = length (_callables me) /\
  Forall (fun index => index < length (_callables me)) (_immediates me) /\
  Forall (fun e : entry => snd e < length (_callables me)) (_ordering (_schedule me)) /\
  heap_ordered entry_lt (_ordering (_schedule me)) /\
  Forall registered_ok (_callables me) /\
  exists table,
    BUILT_IN_STRATEGIES = Ok table /\
    table !! name = Some (_schedule_strategy me, _initial_schedule_strategy me).

(** The same of the system: besides, what is in flight refers to the
    registry. *)
Definition system_ok (name : string) (s : system) : Prop :=
  worker_ok name (self (sys_world s)) /\
  Forall (fun d => d_index d < length (_callables (self (sys_world s)))) (in_flight s).

(** The worlds a worker built with strategy [name] can be found in: those
    that follow a successful construction and any events. *)
Definition reachable (name : string) (s : system) : Prop :=
  exists callables clock ticks entropy w0 evs,
    __init__ callables name (fresh_world clock ticks entropy) = (Ok tt, w0) /\
    s = run_events evs (constructed w0).

(** The callables of a registry, as one would hand them to the
    constructor again. *)
Definition registered (me : PeriodicWorker)
    : list (callable_obj * option (list data) * option (list (string * data))) :=
  map (fun r : registration => (r.1.1.1, Some r.1.2, Some r.2)) (_callables me).

(** What the constructor checks of each callable it is given. *)
Definition constructible
    (c : callable_obj * option (list data) * option (list (string * data))) : Prop :=
  cb_callable c.1.1 = true /\ _check_attrs c.1.1 = [].

(** The registry entries the constructor makes of the callables it is
    given: one for each whose marker is true. *)
Definition accepted
    (callables : list (callable_obj * option (list data) * option (list (string * data))))
    : list registration :=
  omap (fun c =>
          match _is_periodic c.1.1 with
          | Some true =>
              Some (c.1.1, cb_name c.1.1,
                    match c.1.2 with None => _NO_OP_ARGS | Some a => a end,
                    match c.2 with None => _NO_OP_KWARGS | Some k => k end)
          | _ => None
          end) callables.

(** What the spec says the rebuilt queues hold ("run-immediately callbacks
    go to the ImmediateSet, the rest are pushed with due-time now +
    spacing"), over the indexed registry entries in the order [_build]
    visits them. *)
Definition immediate_indices (its : list (nat * registration)) : list nat :=
  omap (fun ir : nat * registration =>
          match _periodic_run_immediately ir.2.1.1.1 with
          | Some true => Some ir.1
          | _ => None
          end) its.

Definition initial_entries (now : Q) (its : list (nat * registration)) : list entry :=
  omap (fun ir : nat * registration =>
          match _periodic_run_immediately ir.2.1.1.1, _periodic_spacing ir.2.1.1.1 with
          | Some false, Some spacing => Some ((spacing + now)%Q, ir.1)
          | _, _ => None
          end) its.

(** Every access to [l] in a log was made with the lock held. *)
Definition guarded (l : location) (log : list access) : Prop :=
  Forall (fun a => acc_location a = l -> acc_locked a = true) log.

Definition set_accesses (log : list access) (w : world) : world :=
  {| self := self w; clock := clock w; ticks := ticks w; entropy := entropy w;
     lock_held := lock_held w; accesses := log; logged := logged w |}.

(** What a thread does to shared state during [m], started at [w]: the
    record of its accesses, begun empty. *)
Definition trace_of {A} (m : M A) (w : world) : list access :=
  accesses (snd (m (set_accesses [] w))).

(** ** Sample objects *)

Definition sample_body : list data -> list (string * data) -> outcome data :=
  fun _ _ => Ok DNone.

(** A callable tagged by hand, with the given attribute values. *)
Definition tagged (name : string) (marker : bool) (spacing : Q) (run_immediately : bool)
    (body : list data -> list (string * data) -> outcome data) : callable_obj :=
  {| cb_name := name; cb_callable := true; _is_periodic := Some marker;
     _periodic_spacing := Some spacing;
     _periodic_run_immediately := Some run_immediately; cb_body := body |}.

(** A clock that advances by one second at each reading. *)
Definition sample_clock (n : nat) : Q := inject_Z (Z.of_nat n).

Definition sample_world : world := fresh_world sample_clock 0 0.

(** The world after [PeriodicWorker(callables, schedule_strategy=name)] has
    returned, in the sample world. *)
Definition sample_worker
    (callables : list (callable_obj * option (list data) * option (list (string * data))))
    (name : string) : world :=
  snd (__init__ callables name sample_world).

(** ** Successive pops *)

(** [n] calls of [pop] in a row, with what they returned, in order. *)
Fixpoint pop_n (n : nat) (sch : _Schedule) : outcome (list entry * _Schedule) :=
  match n with
  | O => Ok ([], sch)
  | S n =>
      try! (e, sch) := pop sch in
      try! (es, sch) := pop_n n sch in
      Ok (e :: es, sch)
  end.

(** ** create *)

(** [name.startswith(prefix)] *)
Definition startswith (name prefix : string) : bool := String.prefix prefix name.

(** The inner loop of [create], over what [inspect.getmembers(obj)] lists
    for one object: its [(name, member)] pairs. *)
Fixpoint create_members (members : list (string * callable_obj)) (exclude_hidden : bool)
    (callables : list (callable_obj * option (list data) * option (list (string * data))))
    : list (callable_obj * option (list data) * option (list (string * data))) :=
  match members with
  | [] => callables
  | (name, member) :: members =>
      if startswith name "_" && exclude_hidden then
        create_members members exclude_hidden callables
      else if cb_callable member then
        let missing_attrs := _check_attrs member in
        match missing_attrs with
        | [] =>
            create_members members exclude_hidden
              (callables ++ [(member, Some _NO_OP_ARGS, Some _NO_OP_KWARGS)])
        | _ :: _ => create_members members exclude_hidden callables
        end
      else create_members members exclude_hidden callables
  end.

(** The outer loop, over [objects]; an object is given by its members. *)
Fixpoint create_objects (objects : list (list (string * callable_obj)))
    (exclude_hidden : bool)
    (callables : list (callable_obj * option (list data) * option (list (string * data))))
    : list (callable_obj * option (list data) * option (list (string * data))) :=
  match objects with
  | [] => callables
  | obj :: objects =>
      create_objects objects exclude_hidden (create_members obj exclude_hidden callables)
  end.

(** [PeriodicWorker.create(objects, exclude_hidden, schedule_strategy)] *)
Definition create (objects : list (list (string * callable_obj))) (exclude_hidden : bool)
    (schedule_strategy : string) : M unit :=
  let callables := create_objects objects exclude_hidden [] in
  __init__ callables schedule_strategy.

(** ** _on_finish *)

(** [a / b] for an integer [b]: dividing by zero raises
    [ZeroDivisionError], a class deriving from [Exception]. *)
Definition py_div (a : Q) (b : nat) : outcome Q :=
  if b =? 0 then Raise (UserException "ZeroDivisionError")
  else Ok (a / inject_Z (Z.of_nat b))%Q.

(** The [for index, metrics in enumerate(self._metrics)] loop of
    [_on_finish].  A message is recorded by its level and its format
    string; the values it interpolates are evaluated as the source
    evaluates them. *)
Fixpoint _on_finish_loop (it : list (nat * metrics_rec)) : M unit :=
  match it with
  | [] => ret tt
  | (index, metrics) :: it =>
      do! (cb, cb_name, _args, _kwargs) := lookup_registration index in
      let runs_ := runs metrics in
      log "debug" "Stopped running callback[%s] '%s' periodically:" ;;
      do! _ := lift (getattr (_periodic_spacing cb)) in
      log "debug" "  Periodicity = %ss" ;;
      log "debug" "  Runs = %s" ;;
      log "debug" "  Failures = %s" ;;
      log "debug" "  Successes = %s" ;;
      (if 0 <? runs_ then
         do! avg_elapsed := lift (py_div (elapsed metrics) runs_) in
         do! avg_elapsed_waiting := lift (py_div (elapsed_waiting metrics) runs_) in
         log "debug" "  Average elapsed = %0.4fs" ;;
         log "debug" "  Average elapsed waiting = %0.4fs"
       else ret tt) ;;
      _on_finish_loop it
  end.

(** [debug_enabled] is what [self._log.isEnabledFor(logging.DEBUG)]
    answers. *)
Definition _on_finish (debug_enabled : bool) : M unit :=
  if negb debug_enabled then ret tt
  else
    do! ms := read Metrics _metrics in
    _on_finish_loop (imap pair ms).

(** ** Further properties to state *)

(** A metrics record whose counters agree: every run was counted as a
    failure or as a success, and no time is negative. *)
Definition balanced (m : metrics_rec) : Prop :=
  runs m = failures m + successes m /\ (0 <= elapsed m)%Q /\ (0 <= elapsed_waiting m)%Q.

(** What holds of the counters and of the flags between two events: the
    metrics records are balanced, a callback in flight has a spacing, and
    [_dead] is clear while the loop runs. *)
Definition steady (s : system) : Prop :=
  Forall balanced (_metrics (self (sys_world s))) /\
  Forall (fun d => is_Some (_periodic_spacing (d_cb d))) (in_flight s) /\
  (sys_at s <> Left -> _dead (self (sys_world s)) = false).

(** The indices the worker holds, each as often as it holds it: those in
    the ImmediateSet, those of the entries of the Schedule and those of the
    calls in flight. *)
Definition held (s : system) : list nat :=
  _immediates (self (sys_world s))
  ++ map snd (_ordering (_schedule (self (sys_world s))))
  ++ map d_index (in_flight s).

(** The events that move indices without dropping or doubling any: all but
    a [reset] and the completion of a call whose future raises. *)
Definition keeps_callbacks (ev : event) : bool :=
  match ev with
  | EReset => false
  | EComplete _ (Raise _) => false
  | _ => true
  end.

(** The keys of [BUILT_IN_STRATEGIES]. *)
Definition strategy_names : list string :=
  ["last_started"; "last_started_jitter"; "last_finished"; "last_finished_jitter"].

(** The members that [create] picks up. *)
Definition picked (exclude_hidden : bool) (nm : string * callable_obj) : bool :=
  negb (startswith nm.1 "_" && exclude_hidden) && cb_callable nm.2 &&
  bool_decide (_check_attrs nm.2 = []).

(** * Proofs *)

(** ** Outcomes *)

Lemma obind_Ok {A B} (o : outcome A) (k : A -> outcome B) (b : B) :
  obind o k = Ok b -> exists a, o = Ok a /\ k a = Ok b.
Proof. destruct o as [a|e]; simpl; [eauto | discriminate]. Qed.

(** ** Rational comparisons *)

Lemma Qltb_lt (a b : Q) : Qltb a b = true <-> (a < b)%Q.
Proof.
  unfold Qltb. rewrite Qlt_alt. destruct (a ?= b)%Q; split; congruence.
Qed.

Lemma Qltb_ge (a b : Q) : Qltb a b = false <-> (b <= a)%Q.
Proof.
  unfold Qltb. rewrite Qle_alt, <- (Qcompare_antisym a b).
  destruct (a ?= b)%Q; simpl; split; congruence.
Qed.

Lemma Qleb_le (a b : Q) : Qleb a b = true <-> (a <= b)%Q.
Proof.
  unfold Qleb. rewrite Qle_alt. destruct (a ?= b)%Q; split; congruence.
Qed.

Lemma Qleb_gt (a b : Q) : Qleb a b = false <-> (b < a)%Q.
Proof.
  unfold Qleb. rewrite Qlt_alt, <- (Qcompare_antisym a b).
  destruct (a ?= b)%Q; simpl; split; congruence.
Qed.

(** ** The array-shaped tree *)

Lemma parent_child (pos : nat) : 0 < pos -> child (Nat.shiftr (pos - 1) 1) pos.
Proof.
  intros Hpos. unfold child. simpl.
  destruct pos as [|n]; [lia|]. replace (S n - 1) with n by lia.
  pose proof (Nat.div2_odd n) as Hn. destruct (Nat.odd n); simpl in Hn; lia.
Qed.

Lemma child_gt (i j : nat) : child i j -> i < j.
Proof. unfold child. lia. Qed.

Lemma child_parent_unique (i i' j : nat) : child i j -> child i' j -> i = i'.
Proof. unfold child. lia. Qed.

(** ** Arrays *)

Section arrays.
Context {A : Type}.
Implicit Types (h : list A) (a b : A).

Lemma insert_head_perm h j a b :
  h !! j = Some b -> b :: <[j:=a]> h ≡ₚ a :: h.
Proof.
  revert j. induction h as [|y t IH]; intros [|j] Hj; simplify_eq/=.
  - apply perm_swap.
  - rewrite (perm_swap y b). rewrite (IH _ Hj). apply perm_swap.
Qed.

(** Writing [b] where [a] was and [a] where [b] was keeps the items. *)
Lemma insert_swap_perm h i j a b :
  h !! i = Some a -> h !! j = Some b -> <[i:=b]> (<[j:=a]> h) ≡ₚ h.
Proof.
  revert i j. induction h as [|x t IH]; intros [|i] [|j] Hi Hj; simplify_eq/=.
  - done.
  - by apply insert_head_perm.
  - by apply insert_head_perm.
  - f_equiv. by apply IH.
Qed.

(** Moving the item at [q] into the hole at [pos] moves the hole to [q]. *)
Lemma hole_moves h pos q c newitem :
  pos < length h -> pos <> q -> h !! q = Some c ->
  <[q:=newitem]> (<[pos:=c]> h) ≡ₚ <[pos:=newitem]> h.
Proof.
  intros Hpos Hne Hq.
  rewrite <- (list_insert_insert_eq h pos c newitem).
  apply insert_swap_perm.
  - rewrite list_lookup_insert_ne by done. done.
  - by apply list_lookup_insert_eq.
Qed.

Lemma list_pop_Ok h x h' :
  list_pop h = Ok (x, h') <-> h = h' ++ [x].
Proof.
  unfold list_pop. split.
  - destruct (last h) as [y|] eqn:Hl; [|discriminate].
    apply last_Some in Hl as [l' ->]. rewrite removelast_last. congruence.
  - intros ->. rewrite last_snoc, removelast_last. done.
Qed.

Lemma list_pop_nil : list_pop (@nil A) = Raise IndexError.
Proof. reflexivity. Qed.

Lemma getitem_Ok h i x : getitem h i = Ok x <-> h !! i = Some x.
Proof. unfold getitem. destruct (h !! i); split; congruence. Qed.

Lemma setitem_lt h i x : i < length h -> setitem h i x = Ok (<[i:=x]> h).
Proof. intros Hi. unfold setitem. apply Nat.ltb_lt in Hi. by rewrite Hi. Qed.
End arrays.

(** ** heapq keeps the heap invariant *)

Section heap_correct.
Context {A : Type}.
Variable lt : A -> A -> bool.
Hypothesis lt_irrefl : forall x, lt x x = false.
Hypothesis lt_asym : forall x y, lt x y = true -> lt y x = false.
Hypothesis le_trans :
  forall x y z, lt y x = false -> lt z y = false -> lt z x = false.

Implicit Types (h heap : list A).

Lemma parent_lt (pos : nat) : 0 < pos -> Nat.shiftr (pos - 1) 1 < pos.
Proof. intros Hpos. apply child_gt, parent_child, Hpos. Qed.

(** Any fuel from [pos] on gives the same result: the loop of [_siftdown]
    is the function below at fuel [pos]. *)
Lemma _siftdown_loop_fuel n m h newitem startpos pos :
  pos <= n -> pos <= m ->
  _siftdown_loop lt n h newitem startpos pos = _siftdown_loop lt m h newitem startpos pos.
Proof.
  revert m h pos. induction n as [|n IH]; intros [|m] h pos Hn Hm;
    cbn [_siftdown_loop]; try done.
  - destruct (startpos <? pos) eqn:E; [apply Nat.ltb_lt in E; lia | done].
  - destruct (startpos <? pos) eqn:E; [apply Nat.ltb_lt in E; lia | done].
  - destruct (startpos <? pos) eqn:E; [|done]. apply Nat.ltb_lt in E.
    assert (Nat.shiftr (pos - 1) 1 < pos) by (apply parent_lt; lia).
    destruct (getitem h _) as [parent|]; [|done]. cbn [obind].
    destruct (lt newitem parent); [|done].
    destruct (setitem h pos parent) as [h1|]; [|done]. cbn [obind].
    apply IH; lia.
Qed.

(** Likewise for the first loop of [_siftup], from [endpos - pos] on. *)
Lemma _siftup_loop_fuel n m h endpos pos :
  endpos <= n + pos -> endpos <= m + pos ->
  _siftup_loop lt n h endpos pos = _siftup_loop lt m h endpos pos.
Proof.
  revert m h pos. induction n as [|n IH]; intros [|m] h pos Hn Hm;
    cbn [_siftup_loop]; try done.
  - destruct (2 * pos + 1 <? endpos) eqn:E; [apply Nat.ltb_lt in E; lia | done].
  - destruct (2 * pos + 1 <? endpos) eqn:E; [apply Nat.ltb_lt in E; lia | done].
  - destruct (2 * pos + 1 <? endpos) eqn:E; [|done]. apply Nat.ltb_lt in E.
    match goal with |- obind ?o _ = _ => destruct o as [cp|] eqn:Hcp end; [|done].
    cbn [obind].
    assert (pos < cp).
    { destruct (2 * pos + 1 + 1 <? endpos); [|simplify_eq; lia].
      destruct (getitem h (2 * pos + 1)); [|done].
      destruct (getitem h (2 * pos + 1 + 1)); [|done].
      cbn [obind] in Hcp. destruct (negb _); simplify_eq; lia. }
    destruct (getitem h cp) as [c|]; [|done]. cbn [obind].
    destruct (setitem h pos c) as [h1|]; [|done]. cbn [obind].
    apply IH; lia.
Qed.

Lemma place_ordered h newitem pos :
  hole_ok lt h newitem pos ->
  (forall p x, child p pos -> h !! p = Some x -> lt newitem x = false) ->
  heap_ordered lt (<[pos:=newitem]> h).
Proof.
  intros (Hlen & H1 & H2 & H3) Hp i j x y Hc Hi Hj.
  pose proof (child_gt _ _ Hc).
  destruct (decide (j = pos)) as [->|Hjp].
  - rewrite list_lookup_insert_eq in Hj by done.
    rewrite list_lookup_insert_ne in Hi by lia. simplify_eq. eauto.
  - rewrite list_lookup_insert_ne in Hj by done.
    destruct (decide (i = pos)) as [->|Hip].
    + rewrite list_lookup_insert_eq in Hi by done. simplify_eq. eauto.
    + rewrite list_lookup_insert_ne in Hi by done. eauto.
Qed.

Lemma place_at_root h newitem :
  hole_ok lt h newitem 0 -> heap_ordered lt (<[0:=newitem]> h).
Proof.
  intros Hok. apply place_ordered; [done|].
  intros p x Hc. apply child_gt in Hc. lia.
Qed.

Lemma hole_ok_up h newitem pos parent :
  hole_ok lt h newitem pos -> 0 < pos ->
  h !! Nat.shiftr (pos - 1) 1 = Some parent -> lt newitem parent = true ->
  hole_ok lt (<[pos:=parent]> h) newitem (Nat.shiftr (pos - 1) 1).
Proof.
  intros (Hlen & H1 & H2 & H3) Hpos Hparent Hlt.
  pose proof (parent_child pos Hpos) as Hc.
  pose proof (child_gt _ _ Hc) as Hgt.
  set (p := Nat.shiftr (pos - 1) 1) in *.
  split; [rewrite length_insert; lia|]. split; [|split].
  - intros i j x y Hij Hip Hjp Hi Hj.
    destruct (decide (j = pos)) as [->|Hj'].
    { destruct Hip. eapply child_parent_unique; eauto. }
    rewrite list_lookup_insert_ne in Hj by done.
    destruct (decide (i = pos)) as [->|Hi'].
    + rewrite list_lookup_insert_eq in Hi by done. simplify_eq. eauto.
    + rewrite list_lookup_insert_ne in Hi by done. eauto.
  - intros c y Hpc Hy.
    destruct (decide (c = pos)) as [->|Hc'].
    + rewrite list_lookup_insert_eq in Hy by done. simplify_eq. eauto.
    + rewrite list_lookup_insert_ne in Hy by done.
      apply le_trans with parent; [eauto|].
      apply (H1 p c); auto; lia.
  - intros g c x y Hgp Hpc Hx Hy.
    pose proof (child_gt _ _ Hgp).
    rewrite list_lookup_insert_ne in Hx by lia.
    assert (lt parent x = false) by (apply (H1 g p); auto; lia).
    destruct (decide (c = pos)) as [->|Hc'].
    + rewrite list_lookup_insert_eq in Hy by done. simplify_eq. done.
    + rewrite list_lookup_insert_ne in Hy by done.
      apply le_trans with parent; [done|].
      apply (H1 p c); auto; lia.
Qed.

Lemma _siftdown_loop_ok fuel h newitem pos :
  pos <= fuel -> hole_ok lt h newitem pos ->
  exists h', _siftdown_loop lt fuel h newitem 0 pos = Ok h' /\
             heap_ordered lt h' /\ h' ≡ₚ <[pos:=newitem]> h.
Proof.
  revert h pos. induction fuel as [|fuel IH]; intros h pos Hfuel Hok;
    cbn [_siftdown_loop].
  { assert (pos = 0) as -> by lia. destruct Hok as [Hlen Hok'].
    rewrite setitem_lt by done. eexists; split; [done|].
    split; [by apply place_at_root|done]. }
  destruct (0 <? pos) eqn:E.
  - apply Nat.ltb_lt in E. pose proof (parent_lt pos E) as Hp.
    pose proof Hok as (Hlen & H1 & H2 & H3).
    destruct (lookup_lt_is_Some_2 h (Nat.shiftr (pos - 1) 1)) as [parent Hparent];
      [lia|].
    rewrite (proj2 (getitem_Ok _ _ _) Hparent). cbn [obind].
    destruct (lt newitem parent) eqn:Hlt.
    + rewrite setitem_lt by done. cbn [obind].
      destruct (IH (<[pos:=parent]> h) (Nat.shiftr (pos - 1) 1))
        as (h' & Hrun & Hord & Hperm); [lia|by apply hole_ok_up|].
      exists h'. split; [done|]. split; [done|].
      rewrite Hperm. apply hole_moves; [done|lia|done].
    + rewrite setitem_lt by done. eexists; split; [done|]. split; [|done].
      apply place_ordered; [done|]. intros p x Hc Hx.
      assert (p = Nat.shiftr (pos - 1) 1) as ->
        by (eapply child_parent_unique; [done|by apply parent_child]).
      congruence.
  - apply Nat.ltb_ge in E. assert (pos = 0) as -> by lia.
    destruct Hok as [Hlen Hok']. rewrite setitem_lt by done.
    eexists; split; [done|]. split; [by apply place_at_root|done].
Qed.

(** The child [_siftup] picks is the smaller one. *)
Lemma smaller_child h pos :
  2 * pos + 1 < length h ->
  exists cp c,
    (if 2 * pos + 1 + 1 <? length h then
       try! l := getitem h (2 * pos + 1) in
       try! r := getitem h (2 * pos + 1 + 1) in
       Ok (if negb (lt l r) then 2 * pos + 1 + 1 else 2 * pos + 1)
     else Ok (2 * pos + 1)) = Ok cp /\
    child pos cp /\ h !! cp = Some c /\
    forall d y, child pos d -> h !! d = Some y -> lt y c = false.
Proof.
  intros Hl.
  destruct (lookup_lt_is_Some_2 h (2 * pos + 1)) as [a Ha]; [lia|].
  destruct (2 * pos + 1 + 1 <? length h) eqn:E.
  - apply Nat.ltb_lt in E.
    destruct (lookup_lt_is_Some_2 h (2 * pos + 1 + 1)) as [b Hb]; [lia|].
    rewrite (proj2 (getitem_Ok _ _ _) Ha), (proj2 (getitem_Ok _ _ _) Hb).
    cbn [obind]. destruct (lt a b) eqn:Hab; cbn [negb].
    + exists (2 * pos + 1), a. split; [done|]. split; [left; lia|]. split; [done|].
      intros d y [->| ->] Hy.
      * simplify_eq. apply lt_irrefl.
      * replace (2 * pos + 2) with (2 * pos + 1 + 1) in Hy by lia.
        simplify_eq. by apply lt_asym.
    + exists (2 * pos + 1 + 1), b. split; [done|]. split; [right; lia|].
      split; [done|]. intros d y [->| ->] Hy.
      * simplify_eq. done.
      * replace (2 * pos + 2) with (2 * pos + 1 + 1) in Hy by lia.
        simplify_eq. apply lt_irrefl.
  - apply Nat.ltb_ge in E.
    exists (2 * pos + 1), a. split; [done|]. split; [left; lia|]. split; [done|].
    intros d y [->| ->] Hy.
    + simplify_eq. apply lt_irrefl.
    + apply lookup_lt_Some in Hy. lia.
Qed.

Lemma gap_ok_down h pos cp c :
  gap_ok lt h pos -> child pos cp -> h !! cp = Some c ->
  (forall d y, child pos d -> h !! d = Some y -> lt y c = false) ->
  gap_ok lt (<[pos:=c]> h) cp.
Proof.
  intros (Hlen & Ha & Hb) Hc Hcp Hmin.
  pose proof (child_gt _ _ Hc). pose proof (lookup_lt_Some _ _ _ Hcp).
  split; [rewrite length_insert; lia|]. split.
  - intros i j x y Hij Hi' Hx Hy. pose proof (child_gt _ _ Hij).
    destruct (decide (i = pos)) as [->|Hip].
    + rewrite list_lookup_insert_eq in Hx by done.
      rewrite list_lookup_insert_ne in Hy by lia. simplify_eq. eauto.
    + rewrite list_lookup_insert_ne in Hx by done.
      destruct (decide (j = pos)) as [->|Hjp].
      * rewrite list_lookup_insert_eq in Hy by done. simplify_eq. eauto.
      * rewrite list_lookup_insert_ne in Hy by done. eauto.
  - intros p d x y Hp Hd Hx Hy. pose proof (child_gt _ _ Hd).
    assert (p = pos) as -> by (eapply child_parent_unique; eauto).
    rewrite list_lookup_insert_eq in Hx by done.
    rewrite list_lookup_insert_ne in Hy by lia. simplify_eq.
    apply (Ha cp d); auto; lia.
Qed.

Lemma _siftup_loop_ok fuel h endpos pos :
  endpos = length h -> endpos <= fuel + pos -> gap_ok lt h pos ->
  exists h' pos',
    _siftup_loop lt fuel h endpos pos = Ok (h', pos') /\
    length h' = length h /\ length h <= 2 * pos' + 1 /\
    gap_ok lt h' pos' /\
    forall newitem, <[pos':=newitem]> h' ≡ₚ <[pos:=newitem]> h.
Proof.
  revert h pos. induction fuel as [|fuel IH]; intros h pos -> Hfuel Hok.
  { destruct Hok as [Hlen _]. lia. }
  cbn [_siftup_loop]. destruct (2 * pos + 1 <? length h) eqn:E.
  - apply Nat.ltb_lt in E.
    destruct (smaller_child h pos E) as (cp & c & -> & Hc & Hcp & Hmin).
    cbn [obind]. rewrite (proj2 (getitem_Ok _ _ _) Hcp). cbn [obind].
    pose proof Hok as [Hlen _]. rewrite setitem_lt by done. cbn [obind].
    pose proof (child_gt _ _ Hc).
    destruct (IH (<[pos:=c]> h) cp) as (h' & pos' & Hrun & Hl' & Hleaf & Hok' & Hperm).
    + by rewrite length_insert.
    + lia.
    + by apply gap_ok_down.
    + rewrite length_insert in Hl', Hleaf.
      exists h', pos'. split; [done|]. split; [done|]. split; [done|].
      split; [done|]. intros newitem. rewrite Hperm.
      apply hole_moves; [done|lia|done].
  - apply Nat.ltb_ge in E. exists h, pos. split; [done|]. split; [done|].
    split; [lia|]. split; done.
Qed.

Lemma _siftup_ok h :
  gap_ok lt h 0 ->
  exists h', _siftup lt h 0 = Ok h' /\ heap_ordered lt h' /\ h' ≡ₚ h.
Proof.
  intros Hok. pose proof Hok as [Hlen _]. unfold _siftup.
  destruct (lookup_lt_is_Some_2 h 0 Hlen) as [newitem Hnew].
  rewrite (proj2 (getitem_Ok _ _ _) Hnew). cbn [obind].
  destruct (_siftup_loop_ok (length h) h (length h) 0)
    as (h1 & pos1 & -> & Hl1 & Hleaf & Hok1 & Hperm); [done|lia|done|].
  cbn [obind]. pose proof Hok1 as (Hlen1 & Ha & Hb).
  rewrite setitem_lt by done. cbn [obind]. unfold _siftdown.
  rewrite (proj2 (getitem_Ok _ _ _) (list_lookup_insert_eq h1 pos1 newitem Hlen1)).
  cbn [obind].
  destruct (_siftdown_loop_ok pos1 (<[pos1:=newitem]> h1) newitem pos1)
    as (h3 & -> & Hord & Hperm3); [done| |].
  - split; [by rewrite length_insert|]. split; [|split].
    + intros i j x y Hij Hi Hj Hx Hy.
      rewrite list_lookup_insert_ne in Hx, Hy by done. eauto.
    + intros c y Hc Hy. apply lookup_lt_Some in Hy.
      rewrite length_insert in Hy. unfold child in Hc. lia.
    + intros p c x y _ Hc _ Hy. apply lookup_lt_Some in Hy.
      rewrite length_insert in Hy. unfold child in Hc. lia.
  - exists h3. split; [done|]. split; [done|].
    rewrite Hperm3, list_insert_insert_eq, Hperm.
    by rewrite list_insert_id.
Qed.

Lemma heap_ordered_nil : heap_ordered lt [].
Proof. intros i j x y _ Hx. by rewrite lookup_nil in Hx. Qed.

Lemma heap_ordered_prefix h k : heap_ordered lt (h ++ k) -> heap_ordered lt h.
Proof.
  intros Hord i j x y Hc Hx Hy.
  apply (Hord i j); [done| |]; by apply lookup_app_l_Some.
Qed.

(** In an ordered heap nothing is smaller than the root. *)
Lemma root_minimal h r :
  heap_ordered lt h -> h !! 0 = Some r -> forall y, y ∈ h -> lt y r = false.
Proof.
  intros Hord Hr y Hy. apply list_elem_of_lookup in Hy as [j Hj].
  revert y Hj. induction (lt_wf j) as [j _ IH]. intros y Hj.
  destruct (decide (j = 0)) as [->|Hne].
  - simplify_eq. apply lt_irrefl.
  - assert (0 < j) as Hpos by lia.
    pose proof (parent_child j Hpos) as Hc. pose proof (child_gt _ _ Hc) as Hlt.
    pose proof (lookup_lt_Some _ _ _ Hj).
    destruct (lookup_lt_is_Some_2 h (Nat.shiftr (j - 1) 1)) as [x Hx]; [lia|].
    apply le_trans with x; [by apply (IH _ Hlt)|].
    eapply Hord; eauto.
Qed.

Theorem heappush_ok h item :
  heap_ordered lt h ->
  exists h', heappush lt h item = Ok h' /\ heap_ordered lt h' /\ h' ≡ₚ item :: h.
Proof.
  intros Hord. unfold heappush, _siftdown.
  rewrite length_app, Nat.add_sub. cbn [length].
  rewrite (proj2 (getitem_Ok _ _ _) (list_lookup_middle h [] item _ eq_refl)).
  cbn [obind].
  destruct (_siftdown_loop_ok (length h) (h ++ [item]) item (length h))
    as (h' & -> & Hord' & Hperm); [done| |].
  - split; [rewrite length_app; simpl; lia|]. split; [|split].
    + intros i j x y Hc Hi Hj Hx Hy.
      pose proof (lookup_lt_Some _ _ _ Hx) as Hli.
      pose proof (lookup_lt_Some _ _ _ Hy) as Hlj.
      rewrite length_app in Hli, Hlj. simpl in Hli, Hlj.
      rewrite lookup_app_l in Hx, Hy by lia. eauto.
    + intros c y Hc Hy. apply lookup_lt_Some in Hy.
      rewrite length_app in Hy. simpl in Hy. unfold child in Hc. lia.
    + intros p c x y _ Hc _ Hy. apply lookup_lt_Some in Hy.
      rewrite length_app in Hy. simpl in Hy. unfold child in Hc. lia.
  - exists h'. split; [done|]. split; [done|].
    rewrite Hperm, list_insert_id by (by apply list_lookup_middle).
    by rewrite Permutation_app_comm.
Qed.

Theorem heappop_ok h :
  heap_ordered lt h -> h <> [] ->
  exists x h', heappop lt h = Ok (x, h') /\ heap_ordered lt h' /\
               h ≡ₚ x :: h' /\ forall y, y ∈ h -> lt y x = false.
Proof.
  intros Hord Hne. unfold heappop.
  destruct (last h) as [lastelt|] eqn:Hlast; [|by apply last_None in Hlast].
  apply last_Some in Hlast as [t ->].
  rewrite (proj2 (list_pop_Ok _ _ _) eq_refl). cbn [obind].
  destruct t as [|r t].
  - exists lastelt, []. split; [done|]. split; [apply heap_ordered_nil|].
    split; [done|]. intros y Hy. apply list_elem_of_singleton in Hy as ->.
    apply lt_irrefl.
  - cbn [getitem lookup list_lookup obind].
    rewrite setitem_lt by (simpl; lia). cbn [obind].
    destruct (_siftup_ok (<[0:=lastelt]> (r :: t))) as (h' & -> & Hord' & Hperm).
    + split; [simpl; lia|]. split.
      * intros i j x y Hc Hi Hx Hy. pose proof (child_gt _ _ Hc).
        rewrite list_lookup_insert_ne in Hx, Hy by lia.
        apply (heap_ordered_prefix _ _ Hord i j); done.
      * intros p c x y Hp. apply child_gt in Hp. lia.
    + cbn [obind]. exists r, h'. split; [done|]. split; [done|]. split.
      * rewrite Hperm. simpl. rewrite <- Permutation_cons_append. done.
      * by apply root_minimal.
Qed.

Lemma heappop_nil : heappop lt [] = Raise IndexError.
Proof. reflexivity. Qed.
End heap_correct.

(** ** The order of schedule entries *)

Lemma entry_lt_true (a b : entry) :
  entry_lt a b = true <->
  (fst a < fst b)%Q \/ ((fst a == fst b)%Q /\ snd a < snd b).
Proof.
  unfold entry_lt. rewrite Qlt_alt, Qeq_alt.
  destruct (fst a ?= fst b)%Q; rewrite ?Nat.ltb_lt; intuition congruence.
Qed.

Lemma entry_lt_false (a b : entry) :
  entry_lt a b = false <->
  (fst b < fst a)%Q \/ ((fst a == fst b)%Q /\ snd b <= snd a).
Proof.
  unfold entry_lt. rewrite Qlt_alt, Qeq_alt, <- (Qcompare_antisym (fst a) (fst b)).
  destruct (fst a ?= fst b)%Q; simpl; rewrite ?Nat.ltb_ge; intuition congruence.
Qed.

Lemma entry_lt_irrefl (a : entry) : entry_lt a a = false.
Proof. apply entry_lt_false. right. split; [reflexivity|lia]. Qed.

Lemma entry_lt_asym (a b : entry) : entry_lt a b = true -> entry_lt b a = false.
Proof.
  rewrite entry_lt_true, entry_lt_false. intros [H|[H1 H2]].
  - by left.
  - right. split; [by symmetry|lia].
Qed.

Lemma entry_le_trans (a b c : entry) :
  entry_lt b a = false -> entry_lt c b = false -> entry_lt c a = false.
Proof.
  rewrite !entry_lt_false. intros [H1|[H1 H1']] [H2|[H2 H2']].
  - left. lra.
  - left. lra.
  - left. lra.
  - right. split; [lra|lia].
Qed.

(** ** _Schedule *)

Lemma push_ok (sch : _Schedule) (next_run : Q) (index : nat) :
  heap_ordered entry_lt (_ordering sch) ->
  exists sch', push sch next_run index = Ok sch' /\
               heap_ordered entry_lt (_ordering sch') /\
               _ordering sch' ≡ₚ (next_run, index) :: _ordering sch.
Proof.
  intros Hord. unfold push.
  destruct (heappush_ok entry_lt entry_lt_irrefl entry_lt_asym entry_le_trans
              (_ordering sch) (next_run, index) Hord) as (h' & -> & Hord' & Hperm).
  cbn [obind]. by eexists.
Qed.

Lemma pop_ok (sch : _Schedule) :
  heap_ordered entry_lt (_ordering sch) -> _Schedule__len__ sch <> 0 ->
  exists e sch', pop sch = Ok (e, sch') /\
                 heap_ordered entry_lt (_ordering sch') /\
                 _ordering sch ≡ₚ e :: _ordering sch' /\
                 forall e', e' ∈ _ordering sch -> entry_lt e' e = false.
Proof.
  intros Hord Hlen. unfold pop.
  destruct (heappop_ok entry_lt entry_lt_irrefl entry_lt_asym entry_le_trans
              (_ordering sch) Hord) as (e & h' & -> & Hord' & Hperm & Hmin).
  { intros Hnil. apply Hlen. unfold _Schedule__len__. by rewrite Hnil. }
  cbn [obind]. by exists e, {| _ordering := h' |}.
Qed.

Lemma run_ops_ordered (ops : list schedule_op) (sch sch' : _Schedule) :
  heap_ordered entry_lt (_ordering sch) -> run_ops ops sch = Ok sch' ->
  heap_ordered entry_lt (_ordering sch').
Proof.
  revert sch. induction ops as [|[next_run index|] ops IH]; intros sch Hord Hrun;
    cbn [run_ops] in Hrun.
  - by simplify_eq.
  - destruct (push_ok sch next_run index Hord) as (sch1 & Hp & Hord1 & _).
    rewrite Hp in Hrun. cbn [obind] in Hrun. eauto.
  - destruct (decide (_Schedule__len__ sch = 0)) as [Hz|Hnz].
    + unfold pop in Hrun. destruct sch as [[|e l]]; [|done].
      cbn in Hrun. discriminate.
    + destruct (pop_ok sch Hord Hnz) as (e & sch1 & Hp & Hord1 & _).
      rewrite Hp in Hrun. cbn [obind] in Hrun. eauto.
Qed.

(** C4. Whatever pushes and pops a schedule has gone through since it was
    created, [pop] on it (when it holds anything) succeeds, removes exactly
    the entry it returns, and returns an entry minimal by (due-time, index):
    no stored entry has a smaller due-time, and a stored entry with the same
    due-time has no smaller index. *)
Theorem pop_returns_minimum (ops : list schedule_op) (sch : _Schedule) :
  run_ops ops _Schedule__init__ = Ok sch ->
  _Schedule__len__ sch <> 0 ->
  exists e sch',
    pop sch = Ok (e, sch') /\
    _ordering sch ≡ₚ e :: _ordering sch' /\
    forall e', e' ∈ _ordering sch ->
      (fst e <= fst e')%Q /\ ((fst e' == fst e)%Q -> snd e <= snd e').
Proof.
  intros Hrun Hlen.
  assert (heap_ordered entry_lt (_ordering sch)) as Hord.
  { eapply run_ops_ordered; [|exact Hrun]. apply heap_ordered_nil. }
  destruct (pop_ok sch Hord Hlen) as (e & sch' & Hpop & _ & Hperm & Hmin).
  exists e, sch'. split; [done|]. split; [done|].
  intros e' He'. apply Hmin, entry_lt_false in He' as [Hlt|[Heq Hle]].
  - split; [lra|]. intros Heq. lra.
  - split; [lra|]. done.
Qed.

Lemma pop_returns_minimum_witness :
  let ops := [OpPush 2 1; OpPush 2 0; OpPush 3 5; OpPop; OpPush 2 4] in
  let sch := {| _ordering := [(2%Q, 1); (3%Q, 5); (2%Q, 4)] |} in
  run_ops ops _Schedule__init__ = Ok sch /\
  _Schedule__len__ sch <> 0 /\
  exists e sch',
    pop sch = Ok (e, sch') /\
    _ordering sch ≡ₚ e :: _ordering sch' /\
    forall e', e' ∈ _ordering sch ->
      (fst e <= fst e')%Q /\ ((fst e' == fst e)%Q -> snd e <= snd e').
Proof.
  split; [reflexivity|]. split; [discriminate|].
  apply (pop_returns_minimum [OpPush 2 1; OpPush 2 0; OpPush 3 5; OpPop; OpPush 2 4]);
    [reflexivity|discriminate].
Defined.

(** ** Calls and the strategies *)

Lemma bind_positional_raises names args e :
  bind_positional names args = Raise e -> e = TypeError.
Proof.
  revert names. induction args as [|v args IH]; intros [|n names] H; simplify_eq/=.
  - done.
  - destruct (bind_positional names args) eqn:E; simplify_eq/=. eauto.
Qed.

Lemma bind_keywords_raises names env kwargs e :
  bind_keywords names env kwargs = Raise e -> e = TypeError.
Proof.
  revert env. induction kwargs as [|[k v] kwargs IH]; intros env H; simplify_eq/=.
  destruct (negb _); [by simplify_eq|].
  destruct (bound k env); [by simplify_eq|]. eauto.
Qed.

Lemma bind_arguments_raises sig args kwargs e :
  bind_arguments sig args kwargs = Raise e -> e = TypeError.
Proof.
  unfold bind_arguments. intros H.
  destruct (bind_positional _ args) as [env|e1] eqn:E1; cbn [obind] in H;
    [|simplify_eq; by eapply bind_positional_raises].
  destruct (bind_keywords _ env kwargs) as [env'|e2] eqn:E2; cbn [obind] in H;
    [|simplify_eq; by eapply bind_keywords_raises].
  destruct (forallb _ _); by simplify_eq.
Qed.

(** The call that [decorator] makes, [func(cb, metrics, now=now)], binds
    with none of the module's functions. *)
Lemma call_with_now_raises rnd f a b n :
  call rnd f [a; b] [("now", n)] = Raise TypeError.
Proof.
  revert a b n. induction f as [| | |m f IH]; intros a b n; try reflexivity.
  cbn. by rewrite IH.
Qed.

(** So the closure that [_add_jitter] returns raises [TypeError] however it
    is called. *)
Lemma jitter_decorator_raises rnd m f args kwargs :
  call rnd (jitter_decorator m f) args kwargs = Raise TypeError.
Proof.
  cbn [call]. destruct (bind_arguments _ args kwargs) as [env|e] eqn:E; cbn [obind].
  - by rewrite call_with_now_raises.
  - f_equal. by eapply bind_arguments_raises.
Qed.

(** C1. Evaluation of the code where the claim fails: called the way
    [_on_done] calls the recurring strategy, with
    [(cb, started_at, finished_at, metrics)], both jittered strategies of
    [BUILT_IN_STRATEGIES] raise [TypeError]; they return no due-time. *)
Theorem jittered_strategy_raises (rnd : Q) (cb : callable_obj)
    (started_at finished_at : Q) (metrics : metrics_rec) :
  let args := [VCallback cb; VNum started_at; VNum finished_at; VMetrics metrics] in
  exists table started finished initial1 initial2,
    BUILT_IN_STRATEGIES = Ok table /\
    table !! "last_started_jitter" = Some (started, initial1) /\
    table !! "last_finished_jitter" = Some (finished, initial2) /\
    call rnd started args [] = Raise TypeError /\
    call rnd finished args [] = Raise TypeError.
Proof.
  intros args.
  eexists _, (jitter_decorator DEFAULT_JITTER _last_started_strategy),
    (jitter_decorator DEFAULT_JITTER _last_finished_strategy), _, _.
  split; [reflexivity|]. split; [reflexivity|]. split; [reflexivity|].
  split; apply jitter_decorator_raises.
Qed.

(** The plain strategies do what their names say. *)
Lemma last_started_returns rnd cb s started_at finished_at metrics :
  _periodic_spacing cb = Some s ->
  call rnd _last_started_strategy
    [VCallback cb; VNum started_at; VNum finished_at; VMetrics metrics] []
  = Ok (started_at + s)%Q.
Proof. intros H. cbn. rewrite H. reflexivity. Qed.

Lemma last_finished_returns rnd cb s started_at finished_at metrics :
  _periodic_spacing cb = Some s ->
  call rnd _last_finished_strategy
    [VCallback cb; VNum started_at; VNum finished_at; VMetrics metrics] []
  = Ok (finished_at + s)%Q.
Proof. intros H. cbn. rewrite H. reflexivity. Qed.

Lemma now_plus_periodicity_returns rnd cb s now :
  _periodic_spacing cb = Some s ->
  call rnd _now_plus_periodicity [VCallback cb; VNum now] [] = Ok (s + now)%Q.
Proof. intros H. cbn. rewrite H. reflexivity. Qed.

(** ** Running the monad *)

Ltac proj :=
  cbn [fst snd self clock ticks entropy lock_held accesses logged
       _tombstone _dead _metrics _callables _schedule_strategy
       _initial_schedule_strategy _immediates _schedule
       set_tombstone set_dead set_metrics set_callables set_strategies
       set_immediates set_schedule obind negb getattr
       runs elapsed elapsed_waiting failures successes].

Ltac run :=
  cbv beta iota zeta delta
    [bind ret raise lift read write touch attr assign mutate attempt notify_all
     with_waiter call_stored utils_now log setkey lookup_registration
     set_self set_lock_held set_accesses tick record_log record_access obind];
  proj.

(** Case analysis on an innermost [match] of the goal. *)
Ltac case_step :=
  match goal with
  | |- context [match ?x with _ => _ end] =>
      lazymatch x with
      | context [match _ with _ => _ end] => fail
      | _ => destruct x eqn:?
      end
  end.

Ltac cases := repeat (case_step; proj).

(** ** Weakest preconditions *)

Section wp.
Context {A : Type}.
Implicit Types (Q : outcome A -> world -> Prop) (w : world).

Lemma wp_ret (a : A) Q w : Q (Ok a) w -> wp (ret a) Q w.
Proof. done. Qed.

Lemma wp_raise e Q w : Q (Raise e) w -> wp (raise e) Q w.
Proof. done. Qed.

Lemma wp_lift (o : outcome A) Q w : Q o w -> wp (lift o) Q w.
Proof. done. Qed.

Lemma wp_bind {B} (m : M B) (k : B -> M A) Q w :
  wp m (fun r w' => match r with
                    | Ok b => wp (k b) Q w'
                    | Raise e => Q (Raise e) w'
                    end) w ->
  wp (bind m k) Q w.
Proof. unfold wp, bind. by destruct (m w) as [[b|e] w']. Qed.

Lemma wp_attr (field : PeriodicWorker -> A) Q w :
  Q (Ok (field (self w))) w -> wp (attr field) Q w.
Proof. done. Qed.

Lemma wp_read l (field : PeriodicWorker -> A) Q w :
  Q (Ok (field (self w)))
    (record_access {| acc_location := l; acc_write := false;
                      acc_locked := lock_held w |} w) ->
  wp (read l field) Q w.
Proof. done. Qed.

Lemma wp_mutate {T} l (field : PeriodicWorker -> T) set
    (method : T -> outcome (A * T)) Q w :
  (let w1 := record_access {| acc_location := l; acc_write := true;
                              acc_locked := lock_held w |} w in
   match method (field (self w)) with
   | Ok (a, t) => Q (Ok a) (set_self (set t (self w)) w1)
   | Raise e => Q (Raise e) w1
   end) ->
  wp (mutate l field set method) Q w.
Proof.
  unfold wp, mutate, bind, touch. cbn.
  by destruct (method (field (self w))) as [[a t]|e].
Qed.

Lemma wp_with_waiter (body : M A) Q w :
  wp body (fun r w' => Q r (set_lock_held false w')) (set_lock_held true w) ->
  wp (with_waiter body) Q w.
Proof. unfold wp, with_waiter. by destruct (body _). Qed.

Lemma wp_conseq (m : M A) Q Q' w :
  wp m Q w -> (forall r w', Q r w' -> Q' r w') -> wp m Q' w.
Proof. unfold wp. auto. Qed.

Lemma wp_eq (m : M A) Q w r w' : m w = (r, w') -> Q r w' -> wp m Q w.
Proof. unfold wp. by intros ->. Qed.

Lemma wp_Ok (m : M A) (a : A) (P : world -> Prop) w :
  wp m (fun r w' => r = Ok a /\ P w') w -> exists w', m w = (Ok a, w') /\ P w'.
Proof. unfold wp. destruct (m w) as [r w']. cbn. intros [-> ?]. eauto. Qed.
End wp.

Lemma wp_utils_now (post : outcome Q -> world -> Prop) w :
  post (Ok (clock w (ticks w))) (tick w) -> wp utils_now post w.
Proof. done. Qed.

Lemma wp_log level about (Q : outcome unit -> world -> Prop) w :
  Q (Ok tt) (record_log (level, about) w) -> wp (log level about) Q w.
Proof. done. Qed.

Lemma wp_write l update (Q : outcome unit -> world -> Prop) w :
  Q (Ok tt)
    (set_self (update (self w))
       (record_access {| acc_location := l; acc_write := true;
                         acc_locked := lock_held w |} w)) ->
  wp (write l update) Q w.
Proof. done. Qed.

Lemma wp_assign update (Q : outcome unit -> world -> Prop) w :
  Q (Ok tt) (set_self (update (self w)) w) -> wp (assign update) Q w.
Proof. done. Qed.

Lemma wp_notify_all (Q : outcome unit -> world -> Prop) w :
  (if lock_held w then Q (Ok tt) w else Q (Raise RuntimeError) w) ->
  wp notify_all Q w.
Proof. unfold wp, notify_all. by destruct (lock_held w). Qed.

Lemma wp_call_stored f args (post : outcome Q -> world -> Prop) w :
  post (call (entropy w) f args []) w -> wp (call_stored f args) post w.
Proof. done. Qed.

Lemma wp_attempt {A} (catches : exc_class -> bool) (body : M A) (Q : outcome (option A) -> world -> Prop) w :
  wp body (fun r w' => match r with
                       | Ok a => Q (Ok (Some a)) w'
                       | Raise e => if catches e then Q (Ok None) w' else Q (Raise e) w'
                       end) w ->
  wp (attempt catches body) Q w.
Proof.
  unfold wp, attempt. destruct (body w) as [[a|e] w']; cbn; [done|].
  by destruct (catches e).
Qed.

Lemma wp_setkey index m (Q : outcome metrics_rec -> world -> Prop) w :
  Q (Ok m)
    (set_self (set_metrics (<[index:=m]> (_metrics (self w))) (self w))
       (record_access {| acc_location := Metrics; acc_write := true;
                         acc_locked := lock_held w |} w)) ->
  wp (setkey index m) Q w.
Proof. done. Qed.

Lemma wp_lookup_registration index (Q : outcome registration -> world -> Prop) w :
  Q (getitem (_callables (self w)) index)
    (record_access {| acc_location := Registry; acc_write := false;
                      acc_locked := lock_held w |} w) ->
  wp (lookup_registration index) Q w.
Proof. done. Qed.

(** Simplification of the world under a projection. *)
Ltac world :=
  cbn [fst snd self clock ticks entropy lock_held accesses logged
       set_self set_lock_held set_accesses tick record_log record_access
       _tombstone _dead _metrics _callables _schedule_strategy
       _initial_schedule_strategy _immediates _schedule
       set_tombstone set_dead set_metrics set_callables set_strategies
       set_immediates set_schedule obind negb getattr
       runs elapsed elapsed_waiting failures successes
       acc_location acc_write acc_locked].

(** One step of symbolic execution. *)
Ltac wp_step :=
  lazymatch goal with
  | |- wp (bind _ _) _ _ => apply wp_bind
  | |- wp (ret _) _ _ => apply wp_ret
  | |- wp (raise _) _ _ => apply wp_raise
  | |- wp (lift _) _ _ => apply wp_lift
  | |- wp (attr _) _ _ => apply wp_attr
  | |- wp (read _ _) _ _ => apply wp_read
  | |- wp (write _ _) _ _ => apply wp_write
  | |- wp (assign _) _ _ => apply wp_assign
  | |- wp (mutate _ _ _ _) _ _ => apply wp_mutate; cbv zeta
  | |- wp (with_waiter _) _ _ => apply wp_with_waiter
  | |- wp utils_now _ _ => apply wp_utils_now
  | |- wp (log _ _) _ _ => apply wp_log
  | |- wp notify_all _ _ => apply wp_notify_all
  | |- wp (call_stored _ _) _ _ => apply wp_call_stored
  | |- wp (attempt _ _) _ _ => apply wp_attempt
  | |- wp (setkey _ _) _ _ => apply wp_setkey
  | |- wp (lookup_registration _) _ _ => apply wp_lookup_registration
  end; world.

Ltac wp_steps := repeat wp_step.

(** Case analysis on what the next step depends on. *)
Ltac wp_case :=
  lazymatch goal with
  | |- wp (match ?x with _ => _ end) _ _ => destruct x eqn:?
  | |- match ?x with _ => _ end => destruct x eqn:?
  end; world.

Ltac wp_auto := repeat (wp_step || wp_case).

(** ** _run_callback *)

(** C5 (as amended). [_run_callback] lets an exception of the callback
    through exactly when it does not derive from [Exception]; otherwise it
    returns the two clock readings around the call and, as third component,
    [None] exactly when the callback returned and the formatted traceback
    exactly when it raised. *)
Theorem run_callback_catches (cb : callable_obj) (args : list data)
    (kwargs : list (string * data)) (w : world) :
  (forall e,
     fst (_run_callback cb args kwargs w) = Raise e <->
     invoke cb args kwargs = Raise e /\ isinstance_Exception e = false) /\
  (forall started_at finished_at pretty_tb,
     fst (_run_callback cb args kwargs w) = Ok (started_at, finished_at, pretty_tb) <->
     started_at = clock w (ticks w) /\ finished_at = clock w (S (ticks w)) /\
     ((pretty_tb = None /\ exists v, invoke cb args kwargs = Ok v) \/
      (exists e, invoke cb args kwargs = Raise e /\ isinstance_Exception e = true /\
                 pretty_tb = Some (format_exc e)))).
Proof.
  unfold _run_callback. run.
  destruct (invoke cb args kwargs) as [v|e] eqn:Hinv; [|destruct (isinstance_Exception e) eqn:He];
    cbn [fst]; split.
  - intros e. split; [discriminate|]. intros [? _]. discriminate.
  - intros t0 t1 tb. split.
    + intros H. simplify_eq. eauto 6.
    + intros (-> & -> & [[-> _]|(e & ? & _)]); [done|discriminate].
  - intros e'. split; [discriminate|]. intros [? ?]. simplify_eq. congruence.
  - intros t0 t1 tb. split.
    + intros H. simplify_eq. split; [done|]. split; [done|]. right. eauto.
    + intros (-> & -> & [[_ [v ?]]|(e' & ? & _ & ->)]); [discriminate|].
      by simplify_eq.
  - intros e'. split.
    + intros H. by simplify_eq.
    + intros [? _]. by simplify_eq.
  - intros t0 t1 tb. split; [discriminate|].
    intros (_ & _ & [[_ [v ?]]|(e' & ? & ? & _)]); [discriminate|].
    simplify_eq. congruence.
Qed.

(** C5, as stated, fails: a callback that raises [SystemExit] takes
    [_run_callback] down with it. *)
Lemma run_callback_propagates_SystemExit :
  let cb := tagged "quit" true 1 false (fun _ _ => Raise SystemExit) in
  invoke cb [] [] = Raise SystemExit /\
  fst (_run_callback cb [] [] sample_world) = Raise SystemExit.
Proof. split; reflexivity. Qed.

(** ** What registration has checked *)

Lemma _check_attrs_nil (cb : callable_obj) :
  _check_attrs cb = [] <->
  exists marker spacing run_immediately,
    _is_periodic cb = Some marker /\ _periodic_spacing cb = Some spacing /\
    _periodic_run_immediately cb = Some run_immediately.
Proof.
  unfold _check_attrs. cbn.
  destruct (_is_periodic cb), (_periodic_spacing cb), (_periodic_run_immediately cb);
    cbn; (split; [intros H; try discriminate; eauto 6
                 |intros (? & ? & ? & ? & ? & ?); by simplify_eq]).
Qed.

Lemma reverse_enumerate_from_valid {A} (items : list A) (idx : nat) :
  Forall (fun ir => items !! ir.1 = Some ir.2) (reverse_enumerate_from items idx).
Proof.
  induction idx as [|idx IH]; cbn; [constructor|].
  destruct (items !! idx) eqn:E; constructor; done.
Qed.

Lemma reverse_enumerate_valid {A} (items : list A) :
  Forall (fun ir => items !! ir.1 = Some ir.2) (reverse_enumerate items).
Proof. apply reverse_enumerate_from_valid. Qed.

(** ** _build *)

Lemma _build_loop_ok (n : nat) reverse_it now immediates schedule w :
  Forall (fun ir : nat * registration => ir.1 < n /\ registered_ok ir.2) reverse_it ->
  Forall (fun index => index < n) immediates ->
  Forall (fun e : entry => snd e < n) (_ordering schedule) ->
  heap_ordered entry_lt (_ordering schedule) ->
  exists immediates' schedule' w',
    _build_loop reverse_it _now_plus_periodicity now immediates schedule w
      = (Ok (immediates', schedule'), w') /\
    self w' = self w /\
    Forall (fun index => index < n) immediates' /\
    Forall (fun e : entry => snd e < n) (_ordering schedule') /\
    heap_ordered entry_lt (_ordering schedule').
Proof.
  revert now immediates schedule w.
  induction reverse_it as [|[index [[[cb cb_name] args] kwargs]] reverse_it IH];
    intros now immediates schedule w Hit Himm Hsch Hord; cbn [_build_loop].
  { eexists _, _, _. by split. }
  apply Forall_cons in Hit as [[Hindex (_ & Hattrs & _)] Hit]. cbn in Hindex, Hattrs.
  apply _check_attrs_nil in Hattrs as (marker & spacing & ri & _ & Hs & Hri).
  rewrite Hri. run. destruct ri.
  - apply IH; try done. apply Forall_app. split; [done|]. by constructor.
  - assert (forall t rnd w1, self w1 = self w ->
      exists immediates' schedule' w',
        match call rnd _now_plus_periodicity [VCallback cb; VNum t] [] with
        | Ok a =>
            match push schedule a index with
            | Ok a0 => _build_loop reverse_it _now_plus_periodicity (Some t) immediates a0 w1
            | Raise e => (Raise e, w1)
            end
        | Raise e => (Raise e, w1)
        end = (Ok (immediates', schedule'), w') /\
        self w' = self w /\
        Forall (fun index => index < n) immediates' /\
        Forall (fun e : entry => snd e < n) (_ordering schedule') /\
        heap_ordered entry_lt (_ordering schedule')) as Hstep.
    { intros t rnd w1 Hw1. rewrite (now_plus_periodicity_returns _ _ _ _ Hs).
      destruct (push_ok schedule (spacing + t)%Q index Hord) as (sch1 & -> & Hord1 & Hperm).
      destruct (IH (Some t) immediates sch1 w1) as (i' & s' & w' & -> & Hself & ?);
        try done.
      - rewrite Hperm. by constructor.
      - eexists _, _, _. split; [done|]. by rewrite Hself. }
    destruct now as [t|]; run; by apply Hstep.
Qed.

Lemma _build_ok (callables : list registration) w :
  Forall registered_ok callables ->
  exists immediates schedule w',
    _build callables _now_plus_periodicity w = (Ok (immediates, schedule), w') /\
    self w' = self w /\
    Forall (fun index => index < length callables) immediates /\
    Forall (fun e : entry => snd e < length callables) (_ordering schedule) /\
    heap_ordered entry_lt (_ordering schedule).
Proof.
  intros Hreg. unfold _build. apply _build_loop_ok.
  - pose proof (reverse_enumerate_valid callables) as Hv.
    eapply Forall_impl; [exact Hv|]. intros [index r] Hl. cbn in *. split.
    + by eapply lookup_lt_Some.
    + by eapply Forall_lookup_1.
  - constructor.
  - constructor.
  - apply heap_ordered_nil.
Qed.

(** [_build] takes nothing from the world but the clock and the entropy. *)
Lemma _build_loop_env reverse_it f now immediates schedule w1 w2 :
  clock w1 = clock w2 -> ticks w1 = ticks w2 -> entropy w1 = entropy w2 ->
  fst (_build_loop reverse_it f now immediates schedule w1)
  = fst (_build_loop reverse_it f now immediates schedule w2).
Proof.
  revert now immediates schedule w1 w2.
  induction reverse_it as [|[index [[[cb cb_name] args] kwargs]] reverse_it IH];
    intros now immediates schedule w1 w2 Hc Ht He; cbn [_build_loop]; [done|].
  run. destruct (getattr _) as [[|]|e]; [by apply IH| |done].
  destruct now as [t|]; run; rewrite ?Hc, ?Ht, ?He.
  - destruct (call _ _ _ _); [|done]. destruct (push _ _ _); [|done]. by apply IH.
  - destruct (call _ _ _ _); [|done]. destruct (push _ _ _); [|done].
    apply IH; cbn; congruence.
Qed.

Lemma _build_env callables f w1 w2 :
  clock w1 = clock w2 -> ticks w1 = ticks w2 -> entropy w1 = entropy w2 ->
  fst (_build callables f w1) = fst (_build callables f w2).
Proof. apply _build_loop_env. Qed.

(** ** The effect of the single updates on [worker_ok] *)

Section worker_ok.
Variable name : string.
Implicit Types (me : PeriodicWorker).

Lemma worker_ok_set_tombstone b me :
  worker_ok name me -> worker_ok name (set_tombstone b me).
Proof. done. Qed.

Lemma worker_ok_set_dead b me :
  worker_ok name me -> worker_ok name (set_dead b me).
Proof. done. Qed.

Lemma worker_ok_setkey index m me :
  worker_ok name me -> worker_ok name (set_metrics (<[index:=m]> (_metrics me)) me).
Proof.
  intros (Hlen & H). split; [|done]. cbn. by rewrite length_insert.
Qed.

Lemma worker_ok_zeroed me :
  worker_ok name me -> worker_ok name (set_metrics (map zeroed (_metrics me)) me).
Proof.
  intros (Hlen & H). split; [|done]. cbn. by rewrite length_map.
Qed.

Lemma worker_ok_register r m me :
  worker_ok name me -> registered_ok r ->
  worker_ok name (set_metrics (_metrics me ++ [m]) (set_callables (_callables me ++ [r]) me)).
Proof.
  intros (Hlen & Himm & Hsch & Hord & Hreg & Htab) Hr. unfold worker_ok. proj.
  rewrite !length_app, Hlen. cbn [length].
  split; [done|]. split; [|split; [|split; [done|split; [|done]]]].
  - eapply Forall_impl; [exact Himm|]. cbn. intros. lia.
  - eapply Forall_impl; [exact Hsch|]. cbn. intros. lia.
  - apply Forall_app. split; [done|]. by constructor.
Qed.

Lemma worker_ok_immediates_append index me :
  worker_ok name me -> index < length (_callables me) ->
  worker_ok name (set_immediates (_immediates me ++ [index]) me).
Proof.
  intros (Hlen & Himm & H) Hi. split; [done|]. split; [|done]. proj.
  apply Forall_app. split; [done|]. by constructor.
Qed.

Lemma worker_ok_immediates_pop index rest me :
  worker_ok name me -> list_pop (_immediates me) = Ok (index, rest) ->
  worker_ok name (set_immediates rest me) /\ index < length (_callables me).
Proof.
  intros (Hlen & Himm & H) Hpop. apply list_pop_Ok in Hpop.
  rewrite Hpop in Himm. apply Forall_app in Himm as [Hrest Hi].
  apply Forall_inv in Hi. split; [|done]. unfold worker_ok. proj. done.
Qed.

Lemma worker_ok_push next_run index sch me :
  worker_ok name me -> index < length (_callables me) ->
  push (_schedule me) next_run index = Ok sch ->
  worker_ok name (set_schedule sch me).
Proof.
  intros (Hlen & Himm & Hsch & Hord & Hreg & Htab) Hi Hpush.
  destruct (push_ok (_schedule me) next_run index Hord) as (sch' & Hp & Hord' & Hperm).
  rewrite Hp in Hpush. simplify_eq. unfold worker_ok. proj.
  split; [done|]. split; [done|]. split; [|done].
  rewrite Hperm. by constructor.
Qed.

Lemma worker_ok_pop e sch me :
  worker_ok name me -> pop (_schedule me) = Ok (e, sch) ->
  worker_ok name (set_schedule sch me) /\ snd e < length (_callables me).
Proof.
  intros (Hlen & Himm & Hsch & Hord & Hreg & Htab) Hpop.
  destruct (decide (_Schedule__len__ (_schedule me) = 0)) as [Hz|Hnz].
  { unfold pop in Hpop. destruct (_schedule me) as [[|? ?]]; [|done].
    cbn in Hpop. discriminate. }
  destruct (pop_ok (_schedule me) Hord Hnz) as (e' & sch' & Hp & Hord' & Hperm & _).
  rewrite Hp in Hpop. simplify_eq. rewrite Hperm in Hsch.
  apply Forall_cons in Hsch as [He Hsch]. split; [|done].
  unfold worker_ok. proj. done.
Qed.

Lemma worker_ok_rebuilt immediates sch me :
  worker_ok name me ->
  Forall (fun index => index < length (_callables me)) immediates ->
  Forall (fun e : entry => snd e < length (_callables me)) (_ordering sch) ->
  heap_ordered entry_lt (_ordering sch) ->
  worker_ok name (set_schedule sch (set_immediates immediates me)).
Proof.
  intros (Hlen & Himm & Hsch & Hord & Hreg & Htab) ? ? ?. unfold worker_ok. proj. done.
Qed.

End worker_ok.

Lemma BUILT_IN_STRATEGIES_eq :
  BUILT_IN_STRATEGIES =
  Ok (<["last_started" := (_last_started_strategy, _now_plus_periodicity)]>
      (<["last_started_jitter" :=
           (jitter_decorator DEFAULT_JITTER _last_started_strategy, _now_plus_periodicity)]>
      (<["last_finished" := (_last_finished_strategy, _now_plus_periodicity)]>
      (<["last_finished_jitter" :=
           (jitter_decorator DEFAULT_JITTER _last_finished_strategy, _now_plus_periodicity)]>
       ∅)))).
Proof. reflexivity. Qed.

Lemma strategies_lookup table name recurring initial :
  BUILT_IN_STRATEGIES = Ok table -> table !! name = Some (recurring, initial) ->
  initial = _now_plus_periodicity /\
  (recurring = _last_started_strategy \/
   recurring = _last_finished_strategy \/
   exists f, recurring = jitter_decorator DEFAULT_JITTER f).
Proof.
  rewrite BUILT_IN_STRATEGIES_eq. intros [= <-] H.
  repeat (apply lookup_insert_Some in H as [[_ H]|[_ H]]; [simplify_eq; eauto 6|]).
  by rewrite lookup_empty in H.
Qed.

Lemma worker_ok_initial name me :
  worker_ok name me -> _initial_schedule_strategy me = _now_plus_periodicity.
Proof.
  intros (_ & _ & _ & _ & _ & table & Htable & Hname).
  by destruct (strategies_lookup _ _ _ _ Htable Hname).
Qed.

Lemma getitem_lt {A} (l : list A) i x : getitem l i = Ok x -> i < length l.
Proof. intros H. apply getitem_Ok in H. by eapply lookup_lt_Some. Qed.

(** Closes a goal [worker_ok name me'] where [me'] is the worker of the
    hypothesis [Hok] after some of the updates above. *)
Ltac ok_parts Hok :=
  let Hlen := fresh "Hlen" in let Himm := fresh "Himm" in
  let Hsch := fresh "Hsch" in let Hord := fresh "Hord" in
  let Hreg := fresh "Hreg" in let Htab := fresh "Htab" in
  pose proof Hok as (Hlen & Himm & Hsch & Hord & Hreg & Htab).

Lemma push_then_Ok sch next_run index (u : unit) sch' :
  (try! sch := push sch next_run index in Ok (tt, sch)) = Ok (u, sch') ->
  push sch next_run index = Ok sch'.
Proof. destruct (push sch next_run index); cbn; congruence. Qed.

(** Facts that a successful pop or push brings. *)
Ltac use_pops name :=
  repeat match goal with
  | H : obind (push _ _ _) _ = Ok _ |- _ => apply push_then_Ok in H
  | Hok : worker_ok name ?me, H : pop (_schedule ?me) = Ok (?e, ?sch) |- _ =>
      destruct (worker_ok_pop name e sch me Hok H); clear H
  | Hok : worker_ok name ?me, H : list_pop (_immediates ?me) = Ok (?i, ?rest) |- _ =>
      destruct (worker_ok_immediates_pop name i rest me Hok H); clear H
  | H : getitem (_callables _) _ = Ok _ |- _ => apply getitem_lt in H
  end.

Ltac use_push :=
  match goal with
  | Hord : heap_ordered entry_lt (_ordering ?sch), H : push ?sch ?t ?i = Ok ?sch' |- _ =>
      let Hp := fresh "Hp" in let Hord' := fresh "Hord" in
      let Hperm := fresh "Hperm" in
      destruct (push_ok sch t i Hord) as (? & Hp & Hord' & Hperm);
      rewrite Hp in H; simplify_eq
  end.

Ltac ok_tac :=
  unfold worker_ok; proj; rewrite ?length_insert, ?length_map;
  repeat split; try done.

Lemma _on_done_ok name kind cb cb_name index submitted_at fut w :
  worker_ok name (self w) ->
  worker_ok name (self (snd (_on_done kind cb cb_name index submitted_at fut w))) /\
  _callables (self (snd (_on_done kind cb cb_name index submitted_at fut w)))
  = _callables (self w).
Proof.
  intros Hok. ok_parts Hok.
  change (wp (_on_done kind cb cb_name index submitted_at fut)
            (fun _ w' => worker_ok name (self w') /\
                         _callables (self w') = _callables (self w)) w).
  unfold _on_done. wp_auto.
  all: split; [|done].
  all: repeat match goal with
       | H : obind (push _ _ _) _ = Ok _ |- _ => apply push_then_Ok in H
       | H : getitem (_metrics _) _ = Ok _ |- _ => apply getitem_lt in H
       end.
  all: try use_push; ok_tac.
  all: rewrite Hperm; constructor; [cbn; lia|done].
Qed.

Lemma add_rejects cb args kwargs w :
  cb_callable cb = false \/ _check_attrs cb <> [] ->
  add cb args kwargs w = (Raise ValueError, w).
Proof.
  intros H. unfold add. destruct (cb_callable cb); cbn [negb]; [|done].
  destruct H as [?|H]; [done|]. by destruct (_check_attrs cb).
Qed.

Lemma add_registers name cb args kwargs w :
  worker_ok name (self w) -> cb_callable cb = true -> _check_attrs cb = [] ->
  exists w',
    add cb args kwargs w = (Ok tt, w') /\ worker_ok name (self w') /\
    _callables (self w') = _callables (self w) ++ [(cb, cb_name cb, args, kwargs)] /\
    _metrics (self w') = _metrics (self w) ++ [_INITIAL_METRICS] /\
    ((_periodic_run_immediately cb = Some true /\
      _immediates (self w') = _immediates (self w) ++ [length (_callables (self w))] /\
      _schedule (self w') = _schedule (self w)) \/
     (_periodic_run_immediately cb = Some false /\
      _immediates (self w') = _immediates (self w) /\
      exists spacing,
        _periodic_spacing cb = Some spacing /\
        _ordering (_schedule (self w')) ≡ₚ
          ((spacing + clock w (ticks w))%Q, length (_callables (self w)))
            :: _ordering (_schedule (self w)))).
Proof.
  intros Hok Hc Ha. ok_parts Hok. pose proof (worker_ok_initial _ _ Hok) as Hinit.
  assert (registered_ok (cb, cb_name cb, args, kwargs)) as Hr by done.
  apply wp_Ok. unfold add. rewrite Hc, Ha. cbn [negb].
  apply _check_attrs_nil in Ha as (marker & spacing & ri & _ & Hs & Hri).
  wp_steps. rewrite Hri. world. destruct ri; wp_steps.
  - split; [done|]. split; [|split; [done|split; [done|left; done]]].
    ok_tac; rewrite ?length_app, ?Hlen; cbn [length]; try done.
    + apply Forall_app. split; [|constructor; [lia|done]].
      eapply Forall_impl; [exact Himm|]. cbn. intros. lia.
    + eapply Forall_impl; [exact Hsch|]. cbn. intros. lia.
    + apply Forall_app. split; [done|]. by constructor.
  - rewrite Hinit, (now_plus_periodicity_returns _ _ _ _ Hs). wp_steps.
    destruct (push_ok (_schedule (self w)) (spacing + clock w (ticks w))%Q
                (length (_callables (self w))) Hord) as (sch' & -> & Hord' & Hperm).
    world. wp_steps. split; [done|].
    split; [|split; [done|split; [done|right; eauto]]].
    ok_tac; rewrite ?length_app, ?Hlen; cbn [length]; try done.
    + eapply Forall_impl; [exact Himm|]. cbn. intros. lia.
    + rewrite Hperm. constructor; [cbn; lia|].
      eapply Forall_impl; [exact Hsch|]. cbn. intros. lia.
    + apply Forall_app. split; [done|]. by constructor.
Qed.

Lemma stop_sets_tombstone w :
  exists w', stop w = (Ok tt, w') /\ self w' = set_tombstone true (self w).
Proof. apply wp_Ok. unfold stop. wp_steps. done. Qed.

Lemma start_enter_ok name allow_empty w :
  worker_ok name (self w) ->
  worker_ok name (self (snd (start_enter allow_empty w))) /\
  _callables (self (snd (start_enter allow_empty w))) = _callables (self w).
Proof.
  intros Hok.
  change (wp (start_enter allow_empty)
            (fun _ w' => worker_ok name (self w') /\
                         _callables (self w') = _callables (self w)) w).
  unfold start_enter. wp_auto; done.
Qed.

Lemma start_leave_ok name w :
  worker_ok name (self w) ->
  worker_ok name (self (snd (start_leave w))) /\
  _callables (self (snd (start_leave w))) = _callables (self w).
Proof. done. Qed.

Lemma map_zeroed (ms : list metrics_rec) :
  map zeroed ms = replicate (length ms) _INITIAL_METRICS.
Proof. induction ms as [|m ms IH]; cbn; [done|]. by rewrite IH. Qed.

Lemma reset_rebuilds name w :
  worker_ok name (self w) ->
  exists immediates schedule w',
    reset w = (Ok tt, w') /\
    fst (_build (_callables (self w)) _now_plus_periodicity w)
      = Ok (immediates, schedule) /\
    self w' =
      set_schedule schedule (set_immediates immediates
        (set_metrics (map zeroed (_metrics (self w)))
          (set_dead false (set_tombstone false (self w))))) /\
    worker_ok name (self w').
Proof.
  intros Hok. ok_parts Hok. pose proof (worker_ok_initial _ _ Hok) as Hinit.
  cut (wp reset
         (fun r w' =>
            exists immediates schedule,
              r = Ok tt /\
              fst (_build (_callables (self w)) _now_plus_periodicity w)
                = Ok (immediates, schedule) /\
              self w' =
                set_schedule schedule (set_immediates immediates
                  (set_metrics (map zeroed (_metrics (self w)))
                    (set_dead false (set_tombstone false (self w))))) /\
              worker_ok name (self w')) w).
  { unfold wp. destruct (reset w) as [r w']. cbn [fst snd].
    intros (imm & sch & -> & ?). by exists imm, sch, w'. }
  unfold reset. wp_steps. rewrite Hinit.
  match goal with |- wp (_build _ _) _ ?w1 =>
    destruct (_build_ok (_callables (self w)) w1 Hreg)
      as (imm & sch & w2 & Hb & Hself & Himm' & Hsch' & Hord');
    pose proof (_build_env (_callables (self w)) _now_plus_periodicity w1 w
                  eq_refl eq_refl eq_refl) as Henv;
    rewrite Hb in Henv
  end.
  eapply wp_eq; [exact Hb|]. world. wp_steps. rewrite Hself. world.
  exists imm, sch. split; [done|]. split; [done|]. split; [done|]. ok_tac.
Qed.

Lemma _run_locked_ok name w :
  worker_ok name (self w) ->
  wp _run_locked
     (fun r w' =>
        worker_ok name (self w') /\ _callables (self w') = _callables (self w) /\
        forall kind cb cb_name index submitted_at args kwargs at',
          r = Ok (Submit kind cb cb_name index submitted_at args kwargs, at') ->
          index < length (_callables (self w))) w.
Proof.
  intros Hok. unfold _run_locked. wp_auto.
  all: use_pops name.
  all: split; [|split; [done|]]; try (intros; simplify_eq; done).
  all: try done.
  all: eapply worker_ok_push; [eassumption| |eassumption]; done.
Qed.

Lemma _run_step_ok name at_ w :
  worker_ok name (self w) ->
  worker_ok name (self (snd (_run_step at_ w))) /\
  _callables (self (snd (_run_step at_ w))) = _callables (self w) /\
  forall kind cb cb_name index submitted_at args kwargs at',
    fst (_run_step at_ w)
      = Ok (Submit kind cb cb_name index submitted_at args kwargs, at') ->
    index < length (_callables (self w)).
Proof.
  intros Hok.
  change (wp (_run_step at_)
     (fun r w' =>
        worker_ok name (self w') /\ _callables (self w') = _callables (self w) /\
        forall kind cb cb_name index submitted_at args kwargs at',
          r = Ok (Submit kind cb cb_name index submitted_at args kwargs, at') ->
          index < length (_callables (self w))) w).
  assert (forall w0, self w0 = self w ->
    wp _run_locked
     (fun r w' =>
        worker_ok name (self w') /\ _callables (self w') = _callables (self w) /\
        forall kind cb cb_name index submitted_at args kwargs at',
          r = Ok (Submit kind cb cb_name index submitted_at args kwargs, at') ->
          index < length (_callables (self w))) w0) as Hlocked.
  { intros w0 Hw0. rewrite <- Hw0. apply _run_locked_ok. by rewrite Hw0. }
  unfold _run_step. destruct at_; wp_auto.
  all: try (by apply Hlocked).
  all: use_pops name.
  all: split; [|split; [done|]]; try (intros; simplify_eq; done).
  all: try done.
Qed.

(** ** __init__ *)

Lemma __init__loop_Ok callables w :
  Forall constructible callables ->
  __init__loop callables w =
    (Ok tt,
     set_self
       (set_metrics
          (_metrics (self w) ++ replicate (length (accepted callables)) _INITIAL_METRICS)
          (set_callables (_callables (self w) ++ accepted callables) (self w))) w).
Proof.
  revert w. induction callables as [|[[cb args] kwargs] callables IH]; intros w Hall.
  { cbn. unfold ret, set_self. rewrite !app_nil_r. by destruct w as [[]]. }
  apply Forall_cons in Hall as [[Hc Ha] Hall]. cbn [fst snd] in Hc, Ha.
  cbn [__init__loop]. rewrite Hc, Ha. cbn [negb].
  apply _check_attrs_nil in Ha as (marker & spacing & ri & Hm & _ & _).
  unfold accepted. cbn [omap list_omap]. proj. rewrite Hm. run.
  destruct marker; proj; rewrite (IH _ Hall); unfold set_self; proj.
  - cbn [length replicate]. by rewrite <- !app_assoc.
  - done.
Qed.

Lemma __init__loop_inv callables w w' :
  __init__loop callables w = (Ok tt, w') -> Forall constructible callables.
Proof.
  revert w. induction callables as [|[[cb args] kwargs] callables IH]; intros w H;
    [constructor|].
  cbn [__init__loop] in H.
  destruct (cb_callable cb) eqn:Hc; cbn [negb] in H; [|discriminate].
  destruct (_check_attrs cb) eqn:Ha; [|discriminate].
  constructor; [done|]. revert H. run. cases; intros H; simplify_eq; eauto.
Qed.

Lemma accepted_registered callables :
  Forall constructible callables -> Forall registered_ok (accepted callables).
Proof.
  induction 1 as [|[[cb args] kwargs] callables [Hc Ha] _ IH]; [constructor|].
  unfold accepted. cbn [omap list_omap fst snd] in *.
  destruct (_is_periodic cb) as [[|]|]; try done. by constructor.
Qed.

Lemma __init___Ok callables name w table recurring initial :
  Forall constructible callables ->
  BUILT_IN_STRATEGIES = Ok table -> table !! name = Some (recurring, initial) ->
  exists immediates schedule w',
    __init__ callables name w = (Ok tt, w') /\
    fst (_build (accepted callables) _now_plus_periodicity w) = Ok (immediates, schedule) /\
    self w' =
      {| _tombstone := false; _dead := false;
         _metrics := replicate (length (accepted callables)) _INITIAL_METRICS;
         _callables := accepted callables;
         _schedule_strategy := recurring; _initial_schedule_strategy := initial;
         _immediates := immediates; _schedule := schedule |} /\
    worker_ok name (self w').
Proof.
  intros Hall Htable Hname.
  destruct (strategies_lookup _ _ _ _ Htable Hname) as [-> _].
  pose proof (accepted_registered _ Hall) as Hreg.
  unfold __init__. run. rewrite (__init__loop_Ok _ _ Hall). unfold set_self. proj.
  rewrite Htable. proj. rewrite Hname. proj. cbn [app].
  match goal with |- context [_build _ _ ?w1] =>
    destruct (_build_ok (accepted callables) w1 Hreg)
      as (imm & sch & w2 & Hb & Hself & Himm' & Hsch' & Hord');
    pose proof (_build_env (accepted callables) _now_plus_periodicity w1 w
                  eq_refl eq_refl eq_refl) as Henv;
    rewrite Hb in Henv; rewrite Hb
  end.
  proj. eexists imm, sch, _. split; [done|]. split; [done|]. proj.
  rewrite Hself. proj. split; [done|]. ok_tac.
  - by rewrite length_replicate.
  - eauto.
Qed.

Lemma __init___inv callables name w w' :
  __init__ callables name w = (Ok tt, w') ->
  Forall constructible callables /\
  exists table recurring initial,
    BUILT_IN_STRATEGIES = Ok table /\ table !! name = Some (recurring, initial).
Proof.
  unfold __init__. run.
  match goal with |- context [__init__loop callables ?w1] =>
    destruct (__init__loop callables w1) as [[[]|e] w2] eqn:Hloop
  end; [|discriminate].
  apply __init__loop_inv in Hloop. intros H. split; [done|].
  rewrite BUILT_IN_STRATEGIES_eq in *. proj.
  match type of H with context [?t !! name] =>
    destruct (t !! name) as [[recurring initial]|] eqn:Hname
  end; [|discriminate].
  eauto.
Qed.

(** ** Every event keeps the system in order *)

Lemma fire_ok name ev s :
  system_ok name s ->
  system_ok name (fire ev s) /\
  _callables (self (sys_world s)) `prefix_of` _callables (self (sys_world (fire ev s))).
Proof.
  destruct s as [w at0 fl0]. intros [Hok Hfl]. cbn [sys_world sys_at in_flight] in *.
  assert (forall w' fl,
    worker_ok name (self w') ->
    _callables (self w) `prefix_of` _callables (self w') ->
    Forall (fun d => d_index d < length (_callables (self w))) fl ->
    forall at_,
    system_ok name {| sys_world := w'; sys_at := at_; in_flight := fl |} /\
    _callables (self w) `prefix_of` _callables (self w')) as Hgrows.
  { intros w' fl Hok' Hcs Hfl' at_. split; [split; [done|]|done].
    cbn [sys_world in_flight]. apply prefix_length in Hcs.
    eapply Forall_impl; [exact Hfl'|]. cbn. intros. lia. }
  assert (forall w' fl,
    worker_ok name (self w') -> _callables (self w') = _callables (self w) ->
    Forall (fun d => d_index d < length (_callables (self w))) fl ->
    forall at_,
    system_ok name {| sys_world := w'; sys_at := at_; in_flight := fl |} /\
    _callables (self w) `prefix_of` _callables (self w')) as Hsame.
  { intros w' fl Hok' Hcs Hfl' at_. apply Hgrows; [done| |done]. by rewrite Hcs. }
  destruct ev as [cb args kwargs| | |allow_empty| |n fut];
    cbn [fire sys_world sys_at in_flight].
  - destruct (cb_callable cb) eqn:Hc;
      [destruct (decide (_check_attrs cb = [])) as [Ha|Ha]|].
    + destruct (add_registers name cb args kwargs _ Hok Hc Ha)
        as (w' & -> & Hok' & Hcs & _). cbn [snd sys_world].
      apply Hgrows; [done| |done]. rewrite Hcs. by apply prefix_app_r.
    + rewrite add_rejects by auto. by apply Hsame.
    + rewrite add_rejects by auto. by apply Hsame.
  - destruct (stop_sets_tombstone w) as (w' & -> & Hself). cbn [snd sys_world].
    apply Hsame; rewrite ?Hself; done.
  - destruct (reset_rebuilds name _ Hok) as (imm & sch & w' & -> & _ & Hself & Hok').
    cbn [snd sys_world]. apply Hsame; [done| |done]. by rewrite Hself.
  - destruct at0; try (by apply Hsame).
    destruct (start_enter_ok name allow_empty _ Hok) as [Hok' Hcs].
    destruct (start_enter allow_empty w) as [[[]|e] w']; cbn [fst snd sys_world] in *;
      by apply Hsame.
  - destruct (_run_step_ok name at0 _ Hok) as (Hok' & Hcs & Hidx).
    destruct at0 eqn:Hat; [| |by apply Hsame].
    all: destruct (_run_step _ w) as [[[act at']|e] w'];
      cbn [fst snd] in *.
    all: try destruct act.
    all: try (destruct (start_leave_ok name _ Hok') as [Hok'' Hcs']).
    all: cbn [sys_world].
    all: try (apply Hsame; [done|congruence|done]).
    all: apply Hsame; [done|done|].
    all: apply Forall_app; split; [done|]; constructor; [|done]; cbn; eauto.
  - destruct (fl0 !! n) as [d|] eqn:Hd; [|by apply Hsame].
    destruct (_on_done_ok name (d_kind d) (d_cb d) (d_cb_name d) (d_index d)
                (d_submitted_at d) fut _ Hok) as [Hok' Hcs].
    cbn [sys_world]. apply Hsame; [done|done|]. by apply Forall_delete.
Qed.

Lemma run_events_ok name evs s :
  system_ok name s ->
  system_ok name (run_events evs s) /\
  _callables (self (sys_world s))
    `prefix_of` _callables (self (sys_world (run_events evs s))).
Proof.
  revert s. induction evs as [|ev evs IH]; intros s Hok; [done|].
  cbn. destruct (fire_ok name ev s Hok) as [Hok1 Hpre1].
  destruct (IH _ Hok1) as [Hok2 Hpre2]. split; [done|]. by etrans.
Qed.

Lemma constructed_ok callables name w w0 :
  __init__ callables name w = (Ok tt, w0) -> system_ok name (constructed w0).
Proof.
  intros Hinit.
  destruct (__init___inv _ _ _ _ Hinit) as (Hall & table & r & i & Htable & Hname).
  destruct (__init___Ok callables name w table r i Hall Htable Hname)
    as (imm & sch & w' & Hinit' & _ & _ & Hok).
  rewrite Hinit in Hinit'. simplify_eq. split; [done|constructor].
Qed.

Lemma reachable_ok name s : reachable name s -> system_ok name s.
Proof.
  intros (callables & clock & ticks & entropy & w0 & evs & Hinit & ->).
  apply run_events_ok. by eapply constructed_ok.
Qed.

(** ** The registry and the metrics table *)

Lemma add_Ok_inv cb args kwargs w w' :
  add cb args kwargs w = (Ok tt, w') -> cb_callable cb = true /\ _check_attrs cb = [].
Proof.
  intros H. destruct (cb_callable cb) eqn:Hc.
  - destruct (decide (_check_attrs cb = [])) as [Ha|Ha]; [done|].
    rewrite add_rejects in H by auto. discriminate.
  - rewrite add_rejects in H by auto. discriminate.
Qed.

Lemma system_ok_aligned name s : system_ok name s -> aligned s.
Proof. intros [(Hlen & Himm & Hsch & _) Hfl]. by repeat split. Qed.

(** C9. From construction on and through every event (an [add], a [stop],
    a [reset], a [start], a loop iteration, a completion) the metrics table
    is as long as the registry and every index in the ImmediateSet, in the
    Schedule or in flight is an index of the registry; no event shortens
    or changes the registry, which only gains entries at its end; and a
    successful [add] appends the callback at index [len(registry)], appends
    a zeroed metrics record, and puts that index in the ImmediateSet or in
    the Schedule. *)
Theorem registry_and_metrics_aligned (name : string)
    (callables : list (callable_obj * option (list data) * option (list (string * data))))
    (clock : nat -> Q) (ticks : nat) (entropy : Q) (w0 : world) (evs : list event) :
  __init__ callables name (fresh_world clock ticks entropy) = (Ok tt, w0) ->
  let s := run_events evs (constructed w0) in
  let me := self (sys_world s) in
  aligned s /\
  _callables (self w0) `prefix_of` _callables me /\
  (forall ev, _callables me `prefix_of` _callables (self (sys_world (fire ev s)))) /\
  (forall cb args kwargs w',
     add cb args kwargs (sys_world s) = (Ok tt, w') ->
     let index := length (_callables me) in
     _callables (self w') = _callables me ++ [(cb, cb_name cb, args, kwargs)] /\
     _callables (self w') !! index = Some (cb, cb_name cb, args, kwargs) /\
     _metrics (self w') = _metrics me ++ [_INITIAL_METRICS] /\
     _metrics (self w') !! index = Some _INITIAL_METRICS /\
     (index ∈ _immediates (self w') \/
      exists next_run, (next_run, index) ∈ _ordering (_schedule (self w')))).
Proof.
  intros Hinit s me.
  pose proof (constructed_ok _ _ _ _ Hinit) as Hok0.
  destruct (run_events_ok name evs _ Hok0) as [Hok Hpre].
  split; [by eapply system_ok_aligned|]. split; [done|]. split.
  - intros ev. by destruct (fire_ok name ev s Hok).
  - intros cb args kwargs w' Hadd index. subst index me s.
    destruct (add_Ok_inv _ _ _ _ _ Hadd) as [Hc Ha]. destruct Hok as [Hok _].
    destruct (add_registers name cb args kwargs _ Hok Hc Ha)
      as (w'' & Hadd' & _ & Hcs & Hms & Hwhere).
    rewrite Hadd in Hadd'. simplify_eq.
    destruct Hok as (Hlen & _).
    split; [done|]. split; [by rewrite Hcs; apply list_lookup_middle|].
    split; [done|]. split; [by rewrite Hms; apply list_lookup_middle|].
    destruct Hwhere as [(_ & Himm & _)|(_ & _ & spacing & _ & Hperm)].
    + left. rewrite Himm. set_solver.
    + right. eexists. rewrite Hperm. by left.
Qed.

Lemma registry_and_metrics_aligned_witness :
  let callables :=
    [(tagged "a" true 1 true sample_body, None, None);
     (tagged "b" true 2 false sample_body, None, Some [])] in
  let w0 := sample_worker callables "last_started" in
  let evs := [EStart false; ELoop; EAdd (tagged "c" true 3 true sample_body) [] [];
              EComplete 0 (Ok (1%Q, 2%Q, None)); ELoop] in
  __init__ callables "last_started" sample_world = (Ok tt, w0) /\
  aligned (run_events evs (constructed w0)).
Proof.
  intros callables w0 evs.
  assert (__init__ callables "last_started" sample_world = (Ok tt, w0)) as Hinit
    by (vm_compute; reflexivity).
  split; [exact Hinit|].
  exact (proj1 (registry_and_metrics_aligned "last_started" callables sample_clock 0 0
                  w0 evs Hinit)).
Defined.

(** ** A marker that is false *)

Lemma __init__loop_skips cb args kwargs before after w :
  cb_callable cb = true -> _check_attrs cb = [] -> _is_periodic cb = Some false ->
  __init__loop (before ++ (cb, args, kwargs) :: after) w = __init__loop (before ++ after) w.
Proof.
  intros Hc Ha Hm. revert w.
  induction before as [|[[cb' args'] kwargs'] before IH]; intros w; cbn [app __init__loop].
  - rewrite Hc, Ha, Hm. run. done.
  - destruct (cb_callable cb'); cbn [negb]; [|done].
    destruct (_check_attrs cb'); [|done]. run.
    destruct (_is_periodic cb') as [[|]|]; proj; by rewrite ?IH.
Qed.

(** C10. A callable with the three attributes and a false marker: the
    constructor behaves as if it had not been in the list (no error, no
    registry entry, no metrics record), and [add] registers it like any
    other. *)
Theorem falsy_marker_skipped_by_init_registered_by_add (cb : callable_obj) :
  cb_callable cb = true -> _check_attrs cb = [] -> _is_periodic cb = Some false ->
  (forall before after args kwargs name w,
     __init__ (before ++ (cb, args, kwargs) :: after) name w
     = __init__ (before ++ after) name w) /\
  (forall args kwargs name table strategy w,
     BUILT_IN_STRATEGIES = Ok table -> table !! name = Some strategy ->
     exists w', __init__ [(cb, args, kwargs)] name w = (Ok tt, w') /\
                _callables (self w') = [] /\ _metrics (self w') = []) /\
  (forall name s args kwargs,
     reachable name s ->
     exists w', add cb args kwargs (sys_world s) = (Ok tt, w') /\
                _callables (self w')
                  = _callables (self (sys_world s)) ++ [(cb, cb_name cb, args, kwargs)] /\
                _metrics (self w') = _metrics (self (sys_world s)) ++ [_INITIAL_METRICS]).
Proof.
  intros Hc Ha Hm. split; [|split].
  - intros before after args kwargs name w. unfold __init__. run.
    by rewrite (__init__loop_skips cb args kwargs before after _ Hc Ha Hm).
  - intros args kwargs name table [recurring initial] w Htable Hname.
    destruct (__init___Ok [(cb, args, kwargs)] name w table recurring initial)
      as (imm & sch & w' & Hinit & _ & Hself & _); [by repeat constructor|done|done|].
    exists w'. split; [done|]. rewrite Hself. unfold accepted. cbn. by rewrite Hm.
  - intros name s args kwargs Hs. apply reachable_ok in Hs as [Hok _].
    destruct (add_registers name cb args kwargs _ Hok Hc Ha)
      as (w' & Hadd & _ & Hcs & Hms & _). eauto.
Qed.

Lemma falsy_marker_skipped_by_init_registered_by_add_witness :
  let cb := tagged "aux" false 1 false sample_body in
  cb_callable cb = true /\ _check_attrs cb = [] /\ _is_periodic cb = Some false /\
  (exists w', __init__ [(cb, None, None)] "last_started" sample_world = (Ok tt, w') /\
              _callables (self w') = [] /\ _metrics (self w') = []) /\
  (exists w', add cb [] [] (sample_worker [] "last_started") = (Ok tt, w') /\
              _callables (self w') = [(cb, "aux", [], [])] /\
              _metrics (self w') = [_INITIAL_METRICS]).
Proof.
  intros cb. split; [reflexivity|]. split; [reflexivity|]. split; [reflexivity|].
  destruct (falsy_marker_skipped_by_init_registered_by_add cb eq_refl eq_refl eq_refl)
    as (_ & Hinit & Hadd).
  split.
  - eapply (Hinit None None "last_started"); [apply BUILT_IN_STRATEGIES_eq|reflexivity].
  - apply (Hadd "last_started" (constructed (sample_worker [] "last_started")) [] []).
    exists [], sample_clock, 0, 0%Q, (sample_worker [] "last_started"), [].
    split; reflexivity.
Defined.

(** ** Spacing *)

(** C6 (as amended). The decorator is where the spacing is checked: it
    raises [ValueError] for a spacing of zero or less; for a positive one it
    tags the function, which the constructor and [add] then register. *)
Theorem periodic_checks_spacing (spacing : Q) (run_immediately : bool) :
  ((spacing <= 0)%Q -> periodic spacing run_immediately = Raise ValueError) /\
  ((0 < spacing)%Q ->
   exists wrapper,
     periodic spacing run_immediately = Ok wrapper /\
     forall f,
       _periodic_spacing (wrapper f) = Some spacing /\
       (forall args kwargs name table strategy w,
          BUILT_IN_STRATEGIES = Ok table -> table !! name = Some strategy ->
          exists w', __init__ [(wrapper f, args, kwargs)] name w = (Ok tt, w') /\
                     _callables (self w')
                     = [(wrapper f, cb_name f,
                         match args with None => [] | Some a => a end,
                         match kwargs with None => [] | Some k => k end)]) /\
       (forall name s args kwargs,
          reachable name s ->
          exists w', add (wrapper f) args kwargs (sys_world s) = (Ok tt, w') /\
                     _callables (self w')
                     = _callables (self (sys_world s))
                         ++ [(wrapper f, cb_name f, args, kwargs)])).
Proof.
  unfold periodic. split.
  - intros Hle. apply Qleb_le in Hle. by rewrite Hle.
  - intros Hlt. apply Qleb_gt in Hlt. rewrite Hlt. eexists. split; [done|].
    intros f. split; [done|]. split.
    + intros args kwargs name table [recurring initial] w Htable Hname.
      match goal with |- exists w', __init__ ?cs _ _ = _ /\ _ =>
        destruct (__init___Ok cs name w table recurring initial)
          as (imm & sch & w' & Hinit & _ & Hself & _);
          [by repeat constructor|exact Htable|exact Hname|]
      end.
      exists w'. split; [exact Hinit|]. by rewrite Hself.
    + intros name s args kwargs Hs. apply reachable_ok in Hs as [Hok _].
      match goal with |- exists w', add ?cb _ _ _ = _ /\ _ =>
        destruct (add_registers name cb args kwargs _ Hok)
          as (w' & Hadd & _ & Hcs & _); [done|done|]
      end.
      exists w'. split; [exact Hadd|]. by rewrite Hcs.
Qed.

Lemma periodic_checks_spacing_witness :
  (periodic (-1) false = Raise ValueError) /\
  (exists wrapper, periodic 1 true = Ok wrapper /\
     _periodic_spacing (wrapper (tagged "f" false 0 false sample_body)) = Some 1%Q).
Proof.
  split.
  - apply (proj1 (periodic_checks_spacing (-1) false)). done.
  - destruct (proj2 (periodic_checks_spacing 1 true)) as (wrapper & Hw & H); [done|].
    exists wrapper. split; [done|]. apply H.
Defined.

(** C6, as stated, fails on two of its three paths: a callable tagged by
    hand with a spacing of zero goes through the constructor and through
    [add]. *)
Lemma zero_spacing_registers :
  let cb := tagged "tick" true 0 false sample_body in
  (0 <= 0)%Q /\ _periodic_spacing cb = Some 0%Q /\
  fst (__init__ [(cb, None, None)] "last_started" sample_world) = Ok tt /\
  fst (add cb [] [] (sample_worker [] "last_started")) = Ok tt.
Proof. intros cb. split; [done|]. split; [done|]. split; vm_compute; reflexivity. Qed.

(** ** _on_done *)

(** What [_on_done] does when the recurring strategy returns: the counters
    of the callback move as C2 says and one entry [(next_run, index)] is
    pushed. *)
Lemma _on_done_reschedules name kind cb cb_name index submitted_at
    started_at finished_at pretty_tb w m next_run :
  worker_ok name (self w) ->
  _metrics (self w) !! index = Some m ->
  (pretty_tb <> None -> is_Some (_periodic_spacing cb)) ->
  let m' :=
    {| runs := runs m + 1;
       elapsed := (elapsed m + py_max 0 (finished_at - started_at))%Q;
       elapsed_waiting := (elapsed_waiting m + py_max 0 (started_at - submitted_at))%Q;
       failures := match pretty_tb with Some _ => failures m + 1 | None => failures m end;
       successes := match pretty_tb with Some _ => successes m | None => successes m + 1 end
    |} in
  call (entropy w) (_schedule_strategy (self w))
    [VCallback cb; VNum started_at; VNum finished_at; VMetrics m'] [] = Ok next_run ->
  exists w',
    _on_done kind cb cb_name index submitted_at
      (Ok (started_at, finished_at, pretty_tb)) w = (Ok tt, w') /\
    _ordering (_schedule (self w')) ≡ₚ (next_run, index) :: _ordering (_schedule (self w)) /\
    _metrics (self w') = <[index:=m']> (_metrics (self w)) /\
    _immediates (self w') = _immediates (self w) /\
    _callables (self w') = _callables (self w).
Proof.
  intros Hok Hm Hsp m' Hcall. ok_parts Hok.
  destruct (push_ok (_schedule (self w)) next_run index Hord) as (sch' & Hp & _ & Hperm).
  apply wp_Ok. unfold _on_done. wp_steps.
  rewrite (proj2 (getitem_Ok _ _ _) Hm). world. wp_steps.
  subst m'. destruct pretty_tb as [tb|]; wp_steps.
  - destruct Hsp as [s Hs]; [done|]. rewrite Hs. world. wp_steps.
    rewrite Hcall. world. wp_steps. rewrite Hp. world. wp_steps.
    rewrite !list_insert_insert_eq. done.
  - rewrite Hcall. world. wp_steps. rewrite Hp. world. wp_steps.
    rewrite !list_insert_insert_eq. done.
Qed.

(** C2. Evaluation of the code where the claim fails: on a worker built
    with a jittered strategy, once the loop has popped the entry of the
    callback and dispatched it, the completion handler updates the counters
    and then raises [TypeError] in the call of the strategy; it pushes
    nothing, and the callback is left in no queue. *)
Theorem on_done_with_jitter_pushes_nothing (submitted_at started_at finished_at : Q)
    (pretty_tb : option string) :
  let cb := tagged "tick" true 1 false sample_body in
  let w0 := sample_worker [(cb, None, None)] "last_started_jitter" in
  let s := run_events [EStart false; ELoop] (constructed w0) in
  let done := _on_done "periodic" cb "tick" 0 submitted_at
                (Ok (started_at, finished_at, pretty_tb)) (sys_world s) in
  fst (__init__ [(cb, None, None)] "last_started_jitter" sample_world) = Ok tt /\
  map d_index (in_flight s) = [0] /\
  _ordering (_schedule (self (sys_world s))) = [] /\
  fst done = Raise TypeError /\
  _ordering (_schedule (self (snd done))) = [] /\
  _immediates (self (snd done)) = [] /\
  runs <$> _metrics (self (snd done)) !! 0 = Some 1.
Proof.
  intros cb w0 s done. split; [vm_compute; reflexivity|].
  split; [vm_compute; reflexivity|]. split; [vm_compute; reflexivity|].
  subst done. destruct pretty_tb; repeat split; vm_compute; reflexivity.
Qed.

(** ** The lock *)

(** Every access recorded was made with the lock held. *)
Lemma all_locked_guarded (l : location) (log : list access) :
  Forall (fun a => acc_locked a = true) log -> guarded l log.
Proof. intros H. eapply Forall_impl; [exact H|]. cbn. auto. Qed.

Ltac guarded_tac :=
  world; cbn [app]; unfold guarded; repeat constructor; cbn; intros; done.

(** C3 (as amended). Whatever the state, every access to the Schedule made
    by a loop iteration, by a completion callback or by [add], every access
    of [add] to the registry, the metrics table and the ImmediateSet, and
    the write of the stop flag by [stop] is made inside
    [with self._waiter]. *)
Theorem schedule_accesses_hold_the_lock (w : world) :
  (forall at_, guarded Schedule (trace_of (_run_step at_) w)) /\
  (forall kind cb cb_name index submitted_at fut,
     guarded Schedule (trace_of (_on_done kind cb cb_name index submitted_at fut) w)) /\
  (forall cb args kwargs,
     guarded Schedule (trace_of (add cb args kwargs) w) /\
     guarded Registry (trace_of (add cb args kwargs) w) /\
     guarded Metrics (trace_of (add cb args kwargs) w) /\
     guarded Immediates (trace_of (add cb args kwargs) w)) /\
  guarded Tombstone (trace_of stop w).
Proof.
  split; [|split; [|split]].
  - intros at_.
    change (wp (_run_step at_) (fun _ w' => guarded Schedule (accesses w'))
              (set_accesses [] w)).
    unfold _run_step, _run_locked. destruct at_; wp_auto; guarded_tac.
  - intros kind cb cb_name index submitted_at fut.
    change (wp (_on_done kind cb cb_name index submitted_at fut)
              (fun _ w' => guarded Schedule (accesses w')) (set_accesses [] w)).
    unfold _on_done. wp_auto; guarded_tac.
  - intros cb args kwargs.
    change (wp (add cb args kwargs)
              (fun _ w' => guarded Schedule (accesses w') /\
                           guarded Registry (accesses w') /\
                           guarded Metrics (accesses w') /\
                           guarded Immediates (accesses w')) (set_accesses [] w)).
    unfold add. wp_auto; world; cbn [app]; repeat split; guarded_tac.
  - change (wp stop (fun _ w' => guarded Tombstone (accesses w')) (set_accesses [] w)).
    unfold stop. wp_auto. guarded_tac.
Qed.

(** C3, as stated, fails: [reset] takes no lock at all, the completion
    callback updates the metrics before it takes the lock, and the loop
    reads the stop flag and pops the ImmediateSet without it. *)
Lemma shared_state_touched_without_the_lock :
  let cb := tagged "tick" true 1 true sample_body in
  let w := sample_worker [(cb, None, None)] "last_started" in
  (exists a, a ∈ trace_of reset w /\ acc_location a = Schedule /\
             acc_write a = true /\ acc_locked a = false) /\
  (exists a, a ∈ trace_of (_on_done "immediate" cb "tick" 0 0 (Ok (0, 0, None)%Q)) w /\
             acc_location a = Metrics /\ acc_write a = true /\ acc_locked a = false) /\
  (exists a, a ∈ trace_of (_run_step Top) w /\ acc_location a = Immediates /\
             acc_write a = true /\ acc_locked a = false).
Proof.
  intros cb w. split; [|split].
  - exists {| acc_location := Schedule; acc_write := true; acc_locked := false |}.
    split; [|done]. vm_compute. set_solver.
  - exists {| acc_location := Metrics; acc_write := true; acc_locked := false |}.
    split; [|done]. vm_compute. set_solver.
  - exists {| acc_location := Immediates; acc_write := true; acc_locked := false |}.
    split; [|done]. vm_compute. set_solver.
Qed.

(** ** The ImmediateSet *)

(** One iteration with a non-empty ImmediateSet. *)
Lemma _run_step_immediate w rest index cb cb_name args kwargs :
  _tombstone (self w) = false ->
  _immediates (self w) = rest ++ [index] ->
  _callables (self w) !! index = Some (cb, cb_name, args, kwargs) ->
  exists w',
    _run_step Top w
      = (Ok (Submit "immediate" cb cb_name index (clock w (ticks w)) args kwargs, Top), w') /\
    self w' = set_immediates rest (self w) /\
    exists new, accesses w' = accesses w ++ new /\
                Forall (fun a => acc_location a <> Schedule) new.
Proof.
  intros Ht Himm Hreg. apply wp_Ok. unfold _run_step. wp_steps. rewrite Ht. wp_steps.
  assert (exists i0 l0, rest ++ [index] = i0 :: l0) as (i0 & l0 & Hl)
    by (destruct rest; cbn; eauto).
  rewrite Himm, Hl. wp_steps. rewrite Himm, (proj2 (list_pop_Ok _ _ _) eq_refl).
  wp_steps. rewrite (proj2 (getitem_Ok _ _ _) Hreg). world. wp_steps.
  split; [done|]. split; [done|].
  eexists. rewrite <- !app_assoc. split; [done|]. cbn [app].
  repeat constructor; done.
Qed.

(** C7. In a loop standing at the top of its [while], not stopped, with [n]
    or more indices in the ImmediateSet, the next [n] iterations each
    remove the last index of the ImmediateSet and dispatch it as
    "immediate", so the indices leave last-added first; the Schedule is
    neither read nor changed meanwhile. *)
Theorem immediates_leave_last_added_first (name : string) (s : system) (n : nat) :
  reachable name s -> sys_at s = Top ->
  _tombstone (self (sys_world s)) = false ->
  n <= length (_immediates (self (sys_world s))) ->
  let s' := run_events (replicate n ELoop) s in
  let immediates := _immediates (self (sys_world s)) in
  (exists jobs,
     in_flight s' = in_flight s ++ jobs /\
     map d_index jobs = take n (reverse immediates) /\
     Forall (fun d => d_kind d = "immediate") jobs) /\
  _immediates (self (sys_world s')) = take (length immediates - n) immediates /\
  _schedule (self (sys_world s')) = _schedule (self (sys_world s)) /\
  (exists new,
     accesses (sys_world s') = accesses (sys_world s) ++ new /\
     Forall (fun a => acc_location a <> Schedule) new) /\
  sys_at s' = Top.
Proof.
  intros Hreach. apply reachable_ok in Hreach. revert s Hreach.
  induction n as [|n IH]; intros s Hok Hat Ht Hn; cbn zeta.
  { cbn [replicate run_events foldl]. rewrite Nat.sub_0_r, (take_ge (_immediates _)) by lia.
    split; [exists []; by rewrite app_nil_r|]. split; [done|]. split; [done|].
    split; [exists []; by rewrite app_nil_r|]. done. }
  destruct (_immediates (self (sys_world s))) as [|i0 l0] eqn:Himm using rev_ind;
    [cbn in Hn; lia|]. clear IHl0.
  rewrite length_app in Hn. cbn [length] in Hn.
  pose proof Hok as [(_ & Hvalid & _) _]. rewrite Himm in Hvalid.
  apply Forall_app in Hvalid as [_ Hi0]. apply Forall_inv in Hi0.
  destruct (lookup_lt_is_Some_2 _ _ Hi0) as [[[[cb cb_name] args] kwargs] Hreg].
  destruct (_run_step_immediate _ _ _ _ _ _ _ Ht Himm Hreg)
    as (w1 & Hstep & Hself & new1 & Hacc1 & Hnew1).
  destruct (fire_ok name ELoop s Hok) as [Hok1 _].
  cbn [replicate run_events foldl]. fold (run_events (replicate n ELoop) (fire ELoop s)).
  assert (fire ELoop s =
    {| sys_world := w1; sys_at := Top;
       in_flight := in_flight s ++
         [{| d_kind := "immediate"; d_cb := cb; d_cb_name := cb_name; d_index := i0;
             d_submitted_at := clock (sys_world s) (ticks (sys_world s)) |}] |}) as Hfire.
  { cbn [fire]. rewrite Hat, Hstep. done. }
  rewrite Hfire in *. clear Hfire.
  edestruct (IH _ Hok1) as ((jobs & Hjobs & Hidx & Hkind) & Himm' & Hsch & (new & Hacc & Hnew) & Hat');
    [done|cbn [sys_world]; by rewrite Hself|cbn [sys_world]; rewrite Hself; cbn; lia|].
  cbn [sys_world in_flight sys_at] in *. rewrite Hself in *.
  cbn [_immediates _schedule set_immediates] in *.
  split; [|split; [|split; [done|split; [|done]]]].
  - eexists (_ :: jobs). rewrite Hjobs, <- app_assoc. split; [done|].
    split; [|by constructor].
    cbn [map d_index]. rewrite Hidx, reverse_snoc. done.
  - rewrite Himm', length_app. cbn [length].
    replace (length l0 + 1 - S n) with (length l0 - n) by lia.
    rewrite take_app_le by lia. done.
  - exists (new1 ++ new). rewrite Hacc, Hacc1, app_assoc. split; [done|].
    by apply Forall_app.
Qed.

Lemma immediates_leave_last_added_first_witness :
  let callables :=
    [(tagged "a" true 1 true sample_body, None, None);
     (tagged "b" true 2 true sample_body, None, None);
     (tagged "c" true 3 false sample_body, None, None)] in
  let s := run_events [EStart false] (constructed (sample_worker callables "last_started")) in
  reachable "last_started" s /\ sys_at s = Top /\
  _tombstone (self (sys_world s)) = false /\
  2 <= length (_immediates (self (sys_world s))) /\
  _immediates (self (sys_world s)) = [1; 0] /\
  exists jobs,
    in_flight (run_events (replicate 2 ELoop) s) = in_flight s ++ jobs /\
    map d_index jobs = take 2 (reverse (_immediates (self (sys_world s)))) /\
    Forall (fun d => d_kind d = "immediate") jobs.
Proof.
  intros callables s.
  assert (reachable "last_started" s) as Hreach.
  { exists callables, sample_clock, 0, 0%Q, (sample_worker callables "last_started"),
      [EStart false].
    split; [vm_compute; reflexivity|reflexivity]. }
  assert (2 <= length (_immediates (self (sys_world s)))) as Hn by (vm_compute; lia).
  split; [exact Hreach|]. split; [reflexivity|]. split; [reflexivity|].
  split; [exact Hn|]. split; [reflexivity|].
  exact (proj1 (immediates_leave_last_added_first "last_started" s 2 Hreach
                  eq_refl eq_refl Hn)).
Defined.

(** ** reset *)


Lemma immediate_indices_cons index (r : registration) its :
  immediate_indices ((index, r) :: its) =
  match _periodic_run_immediately r.1.1.1 with
  | Some true => index :: immediate_indices its
  | _ => immediate_indices its
  end.
Proof.
  unfold immediate_indices. cbn [omap list_omap fst snd].
  by destruct (_periodic_run_immediately r.1.1.1) as [[|]|].
Qed.

Lemma initial_entries_cons now index (r : registration) its :
  initial_entries now ((index, r) :: its) =
  match _periodic_run_immediately r.1.1.1, _periodic_spacing r.1.1.1 with
  | Some false, Some spacing => ((spacing + now)%Q, index) :: initial_entries now its
  | _, _ => initial_entries now its
  end.
Proof.
  unfold initial_entries. cbn [omap list_omap fst snd].
  by destruct (_periodic_run_immediately r.1.1.1) as [[|]|],
              (_periodic_spacing r.1.1.1).
Qed.

Lemma _build_loop_exact reverse_it now immediates schedule w immediates' schedule' w' :
  heap_ordered entry_lt (_ordering schedule) ->
  _build_loop reverse_it _now_plus_periodicity now immediates schedule w
    = (Ok (immediates', schedule'), w') ->
  immediates' = immediates ++ immediate_indices reverse_it /\
  _ordering schedule' ≡ₚ
    initial_entries (match now with Some t => t | None => clock w (ticks w) end) reverse_it
      ++ _ordering schedule.
Proof.
  revert now immediates schedule w.
  induction reverse_it as [|[index [[[cb cb_name] args] kwargs]] reverse_it IH];
    intros now immediates schedule w Hord; cbn [_build_loop].
  { intros [= <- <- <-]. by rewrite app_nil_r. }
  rewrite immediate_indices_cons, initial_entries_cons. cbn [fst snd].
  run. destruct (_periodic_run_immediately cb) as [[|]|]; proj; [| |done].
  - intros H. apply IH in H as [-> Hperm]; [|done]. split; [|done].
    by rewrite <- app_assoc.
  - assert (forall t rnd w1,
      match call rnd _now_plus_periodicity [VCallback cb; VNum t] [] with
      | Ok a =>
          match push schedule a index with
          | Ok a0 => _build_loop reverse_it _now_plus_periodicity (Some t) immediates a0 w1
          | Raise e => (Raise e, w1)
          end
      | Raise e => (Raise e, w1)
      end = (Ok (immediates', schedule'), w') ->
      immediates' = immediates ++ immediate_indices reverse_it /\
      _ordering schedule' ≡ₚ
        match _periodic_spacing cb with
        | Some spacing => ((spacing + t)%Q, index) :: initial_entries t reverse_it
        | None => initial_entries t reverse_it
        end ++ _ordering schedule) as Hstep.
    { intros t rnd w1. destruct (_periodic_spacing cb) as [spacing|] eqn:Hs.
      - rewrite (now_plus_periodicity_returns _ _ _ _ Hs).
        destruct (push_ok schedule (spacing + t)%Q index Hord) as (sch1 & -> & Hord1 & Hp).
        intros H. apply IH in H as [-> Hperm]; [|done]. split; [done|].
        rewrite Hperm, Hp. cbn [app]. by rewrite Permutation_middle.
      - cbn. by rewrite Hs. }
    destruct now as [t|]; run; apply Hstep.
Qed.

Lemma reverse_enumerate_from_complete {A} (items : list A) (idx i : nat) (x : A) :
  i < idx -> items !! i = Some x -> idx <= length items ->
  (i, x) ∈ reverse_enumerate_from items idx.
Proof.
  induction idx as [|idx IH]; intros Hi Hx Hlen; [lia|]. cbn.
  destruct (lookup_lt_is_Some_2 items idx) as [y Hy]; [lia|]. rewrite Hy.
  destruct (decide (i = idx)) as [->|Hne].
  - simplify_eq. by left.
  - right. apply IH; [lia|done|lia].
Qed.

Lemma reverse_enumerate_from_length {A} (items : list A) (idx : nat) :
  idx <= length items -> length (reverse_enumerate_from items idx) = idx.
Proof.
  induction idx as [|idx IH]; intros Hlen; [done|]. cbn.
  destruct (lookup_lt_is_Some_2 items idx) as [y Hy]; [lia|]. rewrite Hy.
  cbn. rewrite IH; lia.
Qed.

Lemma immediate_and_initial_length now (its : list (nat * registration)) :
  Forall (fun ir => registered_ok ir.2) its ->
  length (immediate_indices its) + length (initial_entries now its) = length its.
Proof.
  induction 1 as [|[index [[[cb cb_name] args] kwargs]] its (_ & Ha & _) _ IH]; [done|].
  unfold immediate_indices, initial_entries in *. cbn [omap list_omap fst snd] in *.
  apply _check_attrs_nil in Ha as (marker & spacing & ri & _ & -> & ->).
  destruct ri; cbn [length]; lia.
Qed.

Lemma registered_constructible me :
  Forall registered_ok (_callables me) -> Forall constructible (registered me).
Proof.
  unfold registered. intros H. apply Forall_fmap.
  eapply Forall_impl; [exact H|]. intros [[[cb cb_name] args] kwargs] (Hc & Ha & _).
  by split.
Qed.

Lemma accepted_registered_id me :
  Forall registered_ok (_callables me) ->
  Forall (fun r : registration => _is_periodic r.1.1.1 = Some true) (_callables me) ->
  accepted (registered me) = _callables me.
Proof.
  unfold registered, accepted. generalize (_callables me). intros cs.
  induction cs as [|[[[cb cb_name] args] kwargs] cs IH]; intros Hreg Hmark; [done|].
  apply Forall_cons in Hreg as [(_ & _ & Hname) Hreg].
  apply Forall_cons in Hmark as [Hm Hmark]. cbn [fst snd] in *.
  cbn [map omap list_omap fst snd]. rewrite Hm. cbn [omap list_omap].
  f_equal; [by rewrite Hname|]. by apply IH.
Qed.

(** C8 (as amended). For a worker all of whose registered callables carry
    a true marker, [reset()] succeeds and leaves the worker exactly as the
    constructor would make it from the same callables, with the same
    strategy name, at the same reading of the clock: the two flags are
    cleared, every metrics record is zero, and the ImmediateSet and the
    Schedule are what [_build] gives for the registry and the initial
    strategy, that is, each run-immediately index in the ImmediateSet and
    each other index in the Schedule at [spacing + now], and nothing else. *)
Theorem reset_equals_fresh_construction (name : string) (s : system) :
  reachable name s ->
  Forall (fun r : registration => _is_periodic r.1.1.1 = Some true)
    (_callables (self (sys_world s))) ->
  let w := sys_world s in
  exists w1 w2 immediates schedule,
    reset w = (Ok tt, w1) /\
    __init__ (registered (self w)) name (fresh_world (clock w) (ticks w) (entropy w))
      = (Ok tt, w2) /\
    self w1 = self w2 /\
    _tombstone (self w1) = false /\ _dead (self w1) = false /\
    _metrics (self w1) = replicate (length (_callables (self w))) _INITIAL_METRICS /\
    _callables (self w1) = _callables (self w) /\
    fst (_build (_callables (self w)) (_initial_schedule_strategy (self w)) w)
      = Ok (immediates, schedule) /\
    _immediates (self w1) = immediates /\ _schedule (self w1) = schedule /\
    (forall index r,
       _callables (self w) !! index = Some r ->
       (_periodic_run_immediately r.1.1.1 = Some true -> index ∈ immediates) /\
       (_periodic_run_immediately r.1.1.1 = Some false ->
        exists spacing,
          _periodic_spacing r.1.1.1 = Some spacing /\
          ((spacing + clock w (ticks w))%Q, index) ∈ _ordering schedule)) /\
    length immediates + length (_ordering schedule) = length (_callables (self w)).
Proof.
  intros Hreach Hmark w. apply reachable_ok in Hreach as [Hok _]. fold w in Hok, Hmark.
  ok_parts Hok. pose proof (worker_ok_initial _ _ Hok) as Hinit.
  destruct Htab as (table & Htable & Hname).
  destruct (reset_rebuilds name w Hok) as (imm & sch & w1 & Hreset & Hbuild & Hself1 & _).
  destruct (__init___Ok (registered (self w)) name
              (fresh_world (clock w) (ticks w) (entropy w)) table _ _
              (registered_constructible _ Hreg) Htable Hname)
    as (imm2 & sch2 & w2 & Hnew & Hbuild2 & Hself2 & _).
  rewrite (accepted_registered_id _ Hreg Hmark) in Hbuild2, Hself2.
  rewrite (_build_env _ _ (fresh_world (clock w) (ticks w) (entropy w)) w
             eq_refl eq_refl eq_refl), Hbuild in Hbuild2.
  injection Hbuild2 as <- <-.
  exists w1, w2, imm, sch. rewrite Hself1, Hself2.
  split; [done|]. split; [done|]. split.
  { rewrite map_zeroed, Hlen. by destruct (self w). }
  split; [done|]. split; [done|]. split; [by rewrite map_zeroed, Hlen|].
  split; [done|]. split; [by rewrite Hinit|]. split; [done|]. split; [done|].
  destruct (_build (_callables (self w)) _now_plus_periodicity w) as [r w'] eqn:Hb.
  cbn [fst] in Hbuild. subst r. unfold _build in Hb.
  apply _build_loop_exact in Hb as [Hi Hs]; [|apply heap_ordered_nil].
  cbn [app] in Hi. rewrite app_nil_r in Hs. cbn [set_immediates set_schedule _immediates _schedule].
  split.
  - intros index [[[cb cb_name] args] kwargs] Hr. cbn [fst snd].
    assert ((index, (cb, cb_name, args, kwargs)) ∈ reverse_enumerate (_callables (self w)))
      as Hin.
    { apply reverse_enumerate_from_complete; [by eapply lookup_lt_Some|done|done]. }
    split.
    + intros Hri. rewrite Hi. apply list_elem_of_omap.
      eexists. split; [exact Hin|]. cbn. by rewrite Hri.
    + intros Hri.
      pose proof (Forall_lookup_1 _ _ _ _ Hreg Hr) as (_ & Ha & _). cbn [fst snd] in Ha.
      apply _check_attrs_nil in Ha as (marker & spacing & ri & _ & Hsp & _).
      exists spacing. split; [done|]. rewrite Hs. apply list_elem_of_omap.
      eexists. split; [exact Hin|]. cbn. by rewrite Hri, Hsp.
  - rewrite Hi, Hs, immediate_and_initial_length.
    + by apply reverse_enumerate_from_length.
    + pose proof (reverse_enumerate_valid (_callables (self w))) as Hv.
      eapply Forall_impl; [exact Hv|]. intros [index r] Hl. cbn in *.
      by eapply Forall_lookup_1.
Qed.

Lemma reset_equals_fresh_construction_witness :
  let callables :=
    [(tagged "a" true 1 true sample_body, None, None);
     (tagged "b" true 2 false sample_body, None, None)] in
  let w0 := sample_worker callables "last_finished" in
  let s := run_events [EAdd (tagged "c" true 3 true sample_body) [] []; EStop]
             (constructed w0) in
  let w := sys_world s in
  reachable "last_finished" s /\
  Forall (fun r : registration => _is_periodic r.1.1.1 = Some true) (_callables (self w)) /\
  exists w1 w2,
    reset w = (Ok tt, w1) /\
    __init__ (registered (self w)) "last_finished"
      (fresh_world (clock w) (ticks w) (entropy w)) = (Ok tt, w2) /\
    self w1 = self w2.
Proof.
  intros callables w0 s w.
  assert (reachable "last_finished" s) as Hreach.
  { exists callables, sample_clock, 0, 0%Q, w0,
      [EAdd (tagged "c" true 3 true sample_body) [] []; EStop].
    split; [vm_compute; reflexivity|reflexivity]. }
  assert (Forall (fun r : registration => _is_periodic r.1.1.1 = Some true)
            (_callables (self w))) as Hmark
    by (vm_compute; repeat constructor).
  split; [exact Hreach|]. split; [exact Hmark|].
  destruct (reset_equals_fresh_construction "last_finished" s Hreach Hmark)
    as (w1 & w2 & _ & _ & Hreset & Hnew & Hsame & _).
  exists w1, w2. split; [exact Hreset|]. split; [exact Hnew|exact Hsame].
Defined.

(** C8, as stated, fails: once [add] has registered a callable whose marker
    is false, [reset()] keeps it and schedules it, while the constructor,
    given the registered callables, drops it. *)
Lemma reset_differs_from_fresh_construction :
  let cb := tagged "aux" false 1 false sample_body in
  let s := run_events [EAdd cb [] []] (constructed (sample_worker [] "last_started")) in
  let w := sys_world s in
  let w1 := snd (reset w) in
  let w2 := snd (__init__ (registered (self w)) "last_started"
                   (fresh_world (clock w) (ticks w) (entropy w))) in
  reachable "last_started" s /\
  fst (reset w) = Ok tt /\
  fst (__init__ (registered (self w)) "last_started"
         (fresh_world (clock w) (ticks w) (entropy w))) = Ok tt /\
  _callables (self w1) = [(cb, "aux", [], [])] /\
  _callables (self w2) = [] /\
  self w1 <> self w2.
Proof.
  intros cb s w w1 w2. split.
  { exists [], sample_clock, 0, 0%Q, (sample_worker [] "last_started"), [EAdd cb [] []].
    split; [vm_compute; reflexivity|reflexivity]. }
  split; [vm_compute; reflexivity|]. split; [vm_compute; reflexivity|].
  split; [vm_compute; reflexivity|]. split; [vm_compute; reflexivity|].
  intros H. apply (f_equal (fun me => length (_callables me))) in H.
  vm_compute in H. discriminate.
Qed.

(** * Further properties *)

(** ** The schedule as a queue *)

Lemma pop_empty (sch : _Schedule) :
  _Schedule__len__ sch = 0 -> pop sch = Raise IndexError.
Proof. destruct sch as [[|e l]]; [reflexivity|discriminate]. Qed.

Lemma run_ops_raises (ops : list schedule_op) (sch : _Schedule) (e : exc_class) :
  heap_ordered entry_lt (_ordering sch) -> run_ops ops sch = Raise e -> e = IndexError.
Proof.
  revert sch. induction ops as [|[next_run index|] ops IH]; intros sch Hord Hrun;
    cbn [run_ops] in Hrun; [discriminate| |].
  - destruct (push_ok sch next_run index Hord) as (sch1 & Hp & Hord1 & _).
    rewrite Hp in Hrun. cbn [obind] in Hrun. eauto.
  - destruct (decide (_Schedule__len__ sch = 0)) as [Hz|Hnz].
    + rewrite (pop_empty _ Hz) in Hrun. cbn in Hrun. congruence.
    + destruct (pop_ok sch Hord Hnz) as (e' & sch1 & Hp & Hord1 & _).
      rewrite Hp in Hrun. cbn [obind] in Hrun. eauto.
Qed.

(** X1. On a schedule that pushes and pops have produced, [push] always
    succeeds and makes it one longer, [pop] raises [IndexError] when it is
    empty and otherwise makes it one shorter; and a sequence of pushes and
    pops from the empty schedule can fail in no other way than by an
    [IndexError]. *)
Theorem schedule_length_bookkeeping (ops : list schedule_op) :
  (forall e, run_ops ops _Schedule__init__ = Raise e -> e = IndexError) /\
  (forall sch,
     run_ops ops _Schedule__init__ = Ok sch ->
     (forall next_run index,
        exists sch', push sch next_run index = Ok sch' /\
                     _Schedule__len__ sch' = S (_Schedule__len__ sch)) /\
     (_Schedule__len__ sch = 0 -> pop sch = Raise IndexError) /\
     (_Schedule__len__ sch <> 0 ->
      exists e sch', pop sch = Ok (e, sch') /\
                     _Schedule__len__ sch = S (_Schedule__len__ sch'))).
Proof.
  split.
  - intros e. apply run_ops_raises, heap_ordered_nil.
  - intros sch Hrun.
    assert (heap_ordered entry_lt (_ordering sch)) as Hord.
    { eapply run_ops_ordered; [|exact Hrun]. apply heap_ordered_nil. }
    split; [|split].
    + intros next_run index.
      destruct (push_ok sch next_run index Hord) as (sch' & Hp & _ & Hperm).
      exists sch'. split; [done|]. unfold _Schedule__len__. by rewrite Hperm.
    + apply pop_empty.
    + intros Hlen. destruct (pop_ok sch Hord Hlen) as (e & sch' & Hp & _ & Hperm & _).
      exists e, sch'. split; [done|]. unfold _Schedule__len__. by rewrite Hperm.
Qed.

Lemma pop_n_sorted (n : nat) (sch : _Schedule) :
  heap_ordered entry_lt (_ordering sch) -> _Schedule__len__ sch = n ->
  exists es,
    pop_n n sch = Ok (es, _Schedule__init__) /\
    es ≡ₚ _ordering sch /\
    forall i j a b, i < j -> es !! i = Some a -> es !! j = Some b -> entry_lt b a = false.
Proof.
  revert sch. induction n as [|n IH]; intros sch Hord Hlen.
  - exists []. destruct sch as [[|e l]]; [|discriminate]. split; [done|]. split; [done|].
    intros i j a b _ Ha. by rewrite lookup_nil in Ha.
  - destruct (pop_ok sch Hord) as (e & sch' & Hp & Hord' & Hperm & Hmin); [lia|].
    destruct (IH sch' Hord') as (es & Hes & Hperm' & Hsorted).
    { unfold _Schedule__len__ in *. rewrite Hperm in Hlen. cbn in Hlen. lia. }
    exists (e :: es). cbn [pop_n]. rewrite Hp. cbn [obind]. rewrite Hes. cbn [obind].
    split; [done|]. split; [by rewrite Hperm, Hperm'|].
    intros [|i] [|j] a b Hij Ha Hb; try lia; cbn in Ha, Hb.
    + simplify_eq. apply Hmin. rewrite Hperm, <- Hperm'. right.
      by eapply list_elem_of_lookup_2.
    + eapply (Hsorted i j); [lia|done|done].
Qed.

(** X2. Popping a schedule until it is empty succeeds, returns exactly the
    entries it held, and returns them in order: of two entries the one
    popped first has the earlier due-time, or the same due-time and no
    larger index. *)
Theorem pops_come_out_in_order (ops : list schedule_op) (sch : _Schedule) :
  run_ops ops _Schedule__init__ = Ok sch ->
  exists es,
    pop_n (_Schedule__len__ sch) sch = Ok (es, _Schedule__init__) /\
    es ≡ₚ _ordering sch /\
    forall i j a b, i < j -> es !! i = Some a -> es !! j = Some b ->
      (fst a <= fst b)%Q /\ ((fst a == fst b)%Q -> snd a <= snd b).
Proof.
  intros Hrun.
  assert (heap_ordered entry_lt (_ordering sch)) as Hord.
  { eapply run_ops_ordered; [|exact Hrun]. apply heap_ordered_nil. }
  destruct (pop_n_sorted _ sch Hord eq_refl) as (es & Hes & Hperm & Hsorted).
  exists es. split; [done|]. split; [done|].
  intros i j a b Hij Ha Hb.
  apply (Hsorted i j a b Hij Ha), entry_lt_false in Hb as [Hlt|[Heq Hle]].
  - split; [lra|]. intros Heq. lra.
  - split; [lra|]. done.
Qed.

Lemma pops_come_out_in_order_witness :
  let ops := [OpPush 3 0; OpPush 1 2; OpPush 1 1; OpPop; OpPush 2 5] in
  exists sch es,
    run_ops ops _Schedule__init__ = Ok sch /\
    pop_n (_Schedule__len__ sch) sch = Ok (es, _Schedule__init__) /\
    es ≡ₚ _ordering sch.
Proof.
  intros ops. eexists.
  assert (run_ops ops _Schedule__init__
          = Ok {| _ordering := [(1%Q, 2); (3%Q, 0); (2%Q, 5)] |}) as Hrun by reflexivity.
  destruct (pops_come_out_in_order ops _ Hrun) as (es & Hes & Hperm & _).
  exists es. split; [exact Hrun|]. split; [exact Hes|exact Hperm].
Defined.

(** ** Strategies with jitter *)

(** X3. [_add_jitter] accepts exactly the fractions from 0 to 1, and the
    closure it returns around any function of the module raises
    [TypeError] however it is called: it never returns a due-time. *)
Theorem jitter_closure_never_returns (max_percent_jitter : Q) :
  ((1 < max_percent_jitter)%Q \/ (max_percent_jitter < 0)%Q ->
   _add_jitter max_percent_jitter = Raise ValueError) /\
  ((0 <= max_percent_jitter)%Q /\ (max_percent_jitter <= 1)%Q ->
   exists wrapper,
     _add_jitter max_percent_jitter = Ok wrapper /\
     forall rnd func args kwargs, call rnd (wrapper func) args kwargs = Raise TypeError).
Proof.
  unfold _add_jitter. split.
  - intros [H|H]; apply Qltb_lt in H; rewrite H; [done|]. by rewrite orb_true_r.
  - intros [H0 H1]. apply Qltb_ge in H0, H1. rewrite H0, H1. cbn [orb].
    eexists. split; [done|]. intros. apply jitter_decorator_raises.
Qed.

(** ** What the constructor accepts *)

Lemma strategy_names_lookup name :
  name ∈ strategy_names <->
  exists table strategy, BUILT_IN_STRATEGIES = Ok table /\ table !! name = Some strategy.
Proof.
  rewrite BUILT_IN_STRATEGIES_eq. unfold strategy_names. split.
  - rewrite !elem_of_cons, elem_of_nil. intros [->|[->|[->|[->|[]]]]].
    + by eexists _, (_last_started_strategy, _now_plus_periodicity).
    + by eexists _, (jitter_decorator DEFAULT_JITTER _last_started_strategy,
                     _now_plus_periodicity).
    + by eexists _, (_last_finished_strategy, _now_plus_periodicity).
    + by eexists _, (jitter_decorator DEFAULT_JITTER _last_finished_strategy,
                     _now_plus_periodicity).
  - intros (table & strategy & [= <-] & H). rewrite !elem_of_cons.
    repeat (apply lookup_insert_Some in H as [[<- _]|[_ H]]; [tauto|]).
    by rewrite lookup_empty in H.
Qed.

Lemma __init__loop_raises callables w e :
  fst (__init__loop callables w) = Raise e -> e = ValueError.
Proof.
  revert w. induction callables as [|[[cb args] kwargs] callables IH]; intros w;
    cbn [__init__loop]; [discriminate|].
  destruct (cb_callable cb); cbn [negb]; [|by intros [= <-]].
  destruct (_check_attrs cb) eqn:Ha; [|by intros [= <-]].
  apply _check_attrs_nil in Ha as (marker & spacing & ri & -> & _ & _).
  run. destruct marker; proj; apply IH.
Qed.

(** X4. The constructor returns exactly when every callable it is given is
    callable and carries the three attributes and the strategy is one of
    the four built-in names; in every other case it raises [ValueError],
    and nothing else. *)
Theorem init_raises_only_ValueError
    (callables : list (callable_obj * option (list data) * option (list (string * data))))
    (name : string) (w : world) :
  (fst (__init__ callables name w) = Ok tt <->
   Forall constructible callables /\ name ∈ strategy_names) /\
  (forall e, fst (__init__ callables name w) = Raise e -> e = ValueError).
Proof.
  assert (fst (__init__ callables name w) = Ok tt <->
          Forall constructible callables /\ name ∈ strategy_names) as Hiff.
  { split.
    - intros H. destruct (__init__ callables name w) as [r w'] eqn:Hinit.
      cbn [fst] in H. subst r.
      destruct (__init___inv _ _ _ _ Hinit) as (Hall & table & r & i & Ht & Hn).
      split; [done|]. apply strategy_names_lookup. eauto.
    - intros [Hall Hn]. apply strategy_names_lookup in Hn as (table & [r i] & Ht & Hn).
      destruct (__init___Ok callables name w table r i Hall Ht Hn)
        as (imm & sch & w' & -> & _). done. }
  split; [exact Hiff|]. intros e He. pose proof He as He'.
  unfold __init__ in He'. revert He'. run.
  match goal with |- context [__init__loop callables ?w1] =>
    destruct (__init__loop callables w1) as [[[]|e1] w2] eqn:Hloop
  end.
  - apply __init__loop_inv in Hloop.
    destruct (decide (name ∈ strategy_names)) as [Hn|Hn].
    + destruct Hiff as [_ Hiff]. rewrite Hiff in He by done. discriminate.
    + rewrite BUILT_IN_STRATEGIES_eq. proj.
      match goal with |- context [?t !! name] =>
        destruct (t !! name) as [strategy|] eqn:Hname
      end.
      * exfalso. apply Hn, strategy_names_lookup. rewrite BUILT_IN_STRATEGIES_eq. eauto.
      * cbn [fst]. by intros [= <-].
  - cbn [fst]. intros [= <-]. eapply (__init__loop_raises callables). by rewrite Hloop.
Qed.

(** ** create *)

Lemma create_members_eq members exclude_hidden callables :
  create_members members exclude_hidden callables =
  callables ++ map (fun nm : string * callable_obj => (nm.2, Some _NO_OP_ARGS, Some _NO_OP_KWARGS))
                   (List.filter (picked exclude_hidden) members).
Proof.
  revert callables. induction members as [|[name member] members IH]; intros callables;
    cbn [create_members List.filter map]; [by rewrite app_nil_r|].
  unfold picked at 1. cbn [fst snd].
  destruct (startswith name "_" && exclude_hidden); cbn [negb andb]; [apply IH|].
  destruct (cb_callable member); cbn [andb]; [|apply IH].
  destruct (_check_attrs member) eqn:Ha.
  - rewrite bool_decide_eq_true_2 by done. rewrite IH. cbn [map]. by rewrite <- app_assoc.
  - rewrite bool_decide_eq_false_2 by done. apply IH.
Qed.

Lemma create_objects_eq objects exclude_hidden callables :
  create_objects objects exclude_hidden callables =
  callables ++ map (fun nm : string * callable_obj => (nm.2, Some _NO_OP_ARGS, Some _NO_OP_KWARGS))
                   (List.filter (picked exclude_hidden) (concat objects)).
Proof.
  revert callables. induction objects as [|obj objects IH]; intros callables;
    cbn [create_objects concat]; [by rewrite app_nil_r|].
  rewrite IH, create_members_eq, List.filter_app, map_app. by rewrite <- app_assoc.
Qed.

Lemma picked_constructible exclude_hidden (members : list (string * callable_obj)) :
  Forall constructible
    (map (fun nm : string * callable_obj => (nm.2, Some _NO_OP_ARGS, Some _NO_OP_KWARGS))
       (List.filter (picked exclude_hidden) members)).
Proof.
  apply Forall_fmap, Forall_forall. intros [name member] Hin.
  apply list_elem_of_In, List.filter_In in Hin as [_ Hp]. unfold picked in Hp.
  cbn [fst snd] in Hp. apply andb_true_iff in Hp as [Hp Ha].
  apply andb_true_iff in Hp as [_ Hc]. apply bool_decide_eq_true in Ha. by split.
Qed.

Lemma accepted_picked (members : list (string * callable_obj)) :
  accepted (map (fun nm : string * callable_obj => (nm.2, Some _NO_OP_ARGS, Some _NO_OP_KWARGS))
              members) =
  map (fun nm : string * callable_obj => (nm.2, cb_name nm.2, _NO_OP_ARGS, _NO_OP_KWARGS))
    (List.filter (fun nm => bool_decide (_is_periodic nm.2 = Some true)) members).
Proof.
  unfold accepted. induction members as [|[name member] members IH]; [done|].
  cbn [map omap list_omap List.filter fst snd].
  destruct (_is_periodic member) as [[|]|]; cbn; by rewrite ?IH.
Qed.

(** X5. With a built-in strategy name, [create] never fails, whatever the
    objects hold: a member that is hidden (when hidden members are
    excluded), not callable, or short of an attribute is passed over.  The
    worker it returns has in its registry, in the order of the objects and
    of their members, the remaining members whose marker is true, each with
    no arguments, and its length is their number. *)
Theorem create_registers_tagged_members (objects : list (list (string * callable_obj)))
    (exclude_hidden : bool) (name : string) (w : world) :
  name ∈ strategy_names ->
  exists w',
    create objects exclude_hidden name w = (Ok tt, w') /\
    _callables (self w') =
      map (fun nm : string * callable_obj => (nm.2, cb_name nm.2, [], []))
        (List.filter (fun nm => bool_decide (_is_periodic nm.2 = Some true))
           (List.filter (picked exclude_hidden) (concat objects))) /\
    PeriodicWorker__len__ (self w') =
      length (List.filter (fun nm => bool_decide (_is_periodic nm.2 = Some true))
                (List.filter (picked exclude_hidden) (concat objects))).
Proof.
  intros Hn. apply strategy_names_lookup in Hn as (table & [r i] & Ht & Hn).
  unfold create. rewrite create_objects_eq. cbn [app].
  destruct (__init___Ok _ name w table r i
              (picked_constructible exclude_hidden (concat objects)) Ht Hn)
    as (imm & sch & w' & Hinit & _ & Hself & _).
  exists w'. split; [done|]. rewrite Hself. unfold PeriodicWorker__len__.
  cbn [_callables]. rewrite accepted_picked. split; [done|]. apply length_map.
Qed.

Lemma create_registers_tagged_members_witness :
  let obj :=
    [("_hidden", tagged "_hidden" true 1 false sample_body);
     ("count", {| cb_name := "count"; cb_callable := false; _is_periodic := None;
                  _periodic_spacing := None; _periodic_run_immediately := None;
                  cb_body := sample_body |});
     ("off", tagged "off" false 1 false sample_body);
     ("tick", tagged "tick" true 2 true sample_body)] in
  "last_finished" ∈ strategy_names /\
  exists w',
    create [obj] true "last_finished" sample_world = (Ok tt, w') /\
    _callables (self w') = [(tagged "tick" true 2 true sample_body, "tick", [], [])].
Proof.
  intros obj.
  assert ("last_finished" ∈ strategy_names) as Hn by (unfold strategy_names; set_solver).
  split; [exact Hn|].
  destruct (create_registers_tagged_members [obj] true "last_finished" sample_world Hn)
    as (w' & Hc & Hcs & _).
  exists w'. split; [exact Hc|]. rewrite Hcs. reflexivity.
Defined.

(** ** What the operations leave alone *)

Lemma py_min_idle (when_next : Q) :
  (0 < when_next)%Q ->
  (0 < py_min when_next MAX_LOOP_IDLE)%Q /\ (py_min when_next MAX_LOOP_IDLE <= MAX_LOOP_IDLE)%Q.
Proof.
  intros H. unfold py_min, MAX_LOOP_IDLE.
  destruct (Qltb 30 when_next) eqn:E; [split; [done|lra]|].
  apply Qltb_ge in E. by split.
Qed.

Lemma py_max_nonneg (x : Q) : (0 <= py_max 0 x)%Q.
Proof.
  unfold py_max. destruct (Qltb 0 x) eqn:E; [|lra]. apply Qltb_lt in E. lra.
Qed.

Lemma _run_step_frame at_ w :
  wp (_run_step at_)
     (fun r w' =>
        _tombstone (self w') = _tombstone (self w) /\
        _dead (self w') = _dead (self w) /\
        _metrics (self w') = _metrics (self w) /\
        _callables (self w') = _callables (self w) /\
        (lock_held w = false -> lock_held w' = false) /\
        (forall kind cb cb_name index t args kwargs at',
           r = Ok (Submit kind cb cb_name index t args kwargs, at') ->
           _callables (self w) !! index = Some (cb, cb_name, args, kwargs)) /\
        (forall t at', r = Ok (Wait t, at') ->
           (0 < t)%Q /\ (t <= MAX_LOOP_IDLE)%Q)) w.
Proof.
  unfold _run_step, _run_locked. destruct at_; wp_auto.
  all: repeat match goal with
       | H : getitem _ _ = Ok _ |- _ => apply getitem_Ok in H
       | H : Qleb _ _ = false |- _ => apply Qleb_gt in H
       end.
  all: repeat split; try done; intros; simplify_eq; try done.
  all: try (by apply py_min_idle).
  all: try (unfold MAX_LOOP_IDLE; lra).
Qed.

Lemma balanced_initial : balanced _INITIAL_METRICS.
Proof. unfold balanced. cbn. split; [done|]. split; lra. Qed.

Lemma balanced_zeroed (ms : list metrics_rec) : Forall balanced (map zeroed ms).
Proof. rewrite map_zeroed. apply Forall_replicate, balanced_initial. Qed.

Lemma _on_done_frame kind cb cb_name index submitted_at fut w :
  wp (_on_done kind cb cb_name index submitted_at fut)
     (fun r w' =>
        _tombstone (self w') = _tombstone (self w) /\
        _dead (self w') = _dead (self w) /\
        _callables (self w') = _callables (self w) /\
        _immediates (self w') = _immediates (self w) /\
        (lock_held w = false -> lock_held w' = false) /\
        (is_Some (_periodic_spacing cb) -> Forall balanced (_metrics (self w)) ->
         Forall balanced (_metrics (self w')))) w.
Proof.
  unfold _on_done. wp_auto.
  all: repeat split; try done.
  all: intros [spacing Hs] Hbal; try (rewrite Hs in *; discriminate).
  all: rewrite ?list_insert_insert_eq.
  all: repeat match goal with
       | H : getitem _ _ = Ok _ |- _ => apply getitem_Ok in H
       end.
  all: apply Forall_insert; [done|].
  all: match goal with
       | H : _metrics _ !! _ = Some ?m |- _ =>
           destruct (Forall_lookup_1 _ _ _ _ Hbal H) as (Hr & He & Hw)
       end.
  all: unfold balanced; cbn [runs failures successes elapsed elapsed_waiting].
  all: split; [lia|].
  all: split;
         match goal with
         | |- (0 <= _ + py_max 0 ?x)%Q => pose proof (py_max_nonneg x); lra
         end.
Qed.

Lemma add_frame cb args kwargs w :
  wp (add cb args kwargs)
     (fun r w' =>
        _tombstone (self w') = _tombstone (self w) /\
        _dead (self w') = _dead (self w) /\
        (lock_held w = false -> lock_held w' = false) /\
        (Forall balanced (_metrics (self w)) -> Forall balanced (_metrics (self w')))) w.
Proof.
  unfold add. wp_auto.
  all: repeat split; try done.
  all: intros Hbal; apply Forall_app; split; [done|].
  all: constructor; [apply balanced_initial|constructor].
Qed.

(** Once the tombstone is set, an iteration only leaves the loop. *)
Lemma _run_step_stopped at_ w :
  _tombstone (self w) = true -> at_ <> Left ->
  exists w', _run_step at_ w = (Ok (Leave, Left), w') /\ self w' = self w.
Proof.
  intros Ht Hat. apply wp_Ok. unfold _run_step, _run_locked.
  destruct at_; [| |done]; wp_auto; rewrite ?Ht in *; try done.
Qed.

Lemma start_enter_frame allow_empty w :
  wp (start_enter allow_empty)
     (fun r w' =>
        _tombstone (self w') = _tombstone (self w) /\
        _metrics (self w') = _metrics (self w) /\
        (r = Ok tt -> _dead (self w') = false)) w.
Proof. unfold start_enter. wp_auto; done. Qed.

Lemma start_leave_self w : self (snd (start_leave w)) = set_dead true (self w).
Proof. reflexivity. Qed.

(** ** Every event keeps the counters and the flags in order *)

Lemma fire_steady name ev s : system_ok name s -> steady s -> steady (fire ev s).
Proof.
  destruct s as [w at0 fl0]. intros [Hok Hfl] (Hbal & Hsp & Hdead).
  unfold steady in *. cbn [sys_world sys_at in_flight] in *.
  destruct ev as [cb args kwargs| | |allow_empty| |n fut];
    cbn [fire sys_world sys_at in_flight].
  - pose proof (add_frame cb args kwargs w) as H. unfold wp in H.
    destruct (add cb args kwargs w) as [r w']. cbn [fst snd] in *.
    destruct H as (_ & Hd & _ & Hb). rewrite Hd. auto.
  - destruct (stop_sets_tombstone w) as (w' & -> & Hself). cbn [snd]. by rewrite Hself.
  - destruct (reset_rebuilds name _ Hok) as (imm & sch & w' & -> & _ & Hself & _).
    cbn [snd]. rewrite Hself. cbn [_metrics _dead set_schedule set_immediates set_metrics].
    split; [apply balanced_zeroed|]. done.
  - destruct at0; cbn [sys_world sys_at in_flight]; try done.
    pose proof (start_enter_frame allow_empty w) as H. unfold wp in H.
    destruct (start_enter allow_empty w) as [[[]|e] w']; cbn [fst snd] in *;
      destruct H as (_ & Hm & Hd); cbn [sys_world sys_at in_flight]; rewrite Hm;
      (split; [done|]; split; [done|]; first [done|intros _; by apply Hd]).
  - pose proof (_run_step_frame at0 w) as H. unfold wp in H.
    destruct at0 eqn:Hat; cbn [sys_world sys_at in_flight]; [| |done].
    all: destruct (_run_step _ w) as [[[act at']|e] w']; cbn [fst snd] in *.
    all: destruct H as (_ & Hd & Hm & _ & _ & Hsub & _).
    all: try destruct act; cbn [sys_world sys_at in_flight];
      rewrite ?start_leave_self; cbn [_metrics _dead set_dead].
    all: try (split; [by rewrite Hm|]; split; [done|]; done).
    all: try (split; [by rewrite Hm|]; split; [|intros _; rewrite Hd; by apply Hdead]).
    all: try done.
    all: apply Forall_app; split; [done|]; constructor; [|done]; cbn [d_cb].
    all: specialize (Hsub _ _ _ _ _ _ _ _ eq_refl).
    all: destruct Hok as (_ & _ & _ & _ & Hreg & _).
    all: destruct (Forall_lookup_1 _ _ _ _ Hreg Hsub) as (_ & Ha & _); cbn [fst snd] in Ha.
    all: apply _check_attrs_nil in Ha as (? & ? & ? & _ & -> & _); done.
  - destruct (fl0 !! n) as [d|] eqn:Hd; cbn [sys_world sys_at in_flight]; [|done].
    pose proof (_on_done_frame (d_kind d) (d_cb d) (d_cb_name d) (d_index d)
                  (d_submitted_at d) fut w) as H. unfold wp in H.
    destruct (_on_done _ _ _ _ _ fut w) as [r w']. cbn [fst snd] in *.
    destruct H as (_ & Hdd & _ & _ & _ & Hb). rewrite Hdd.
    split; [|split; [by apply Forall_delete|done]].
    apply Hb; [|done]. by eapply (Forall_lookup_1 _ _ _ _ Hsp).
Qed.

Lemma reachable_steady name s : reachable name s -> steady s.
Proof.
  intros (callables & clock & ticks & entropy & w0 & evs & Hinit & ->).
  pose proof (constructed_ok _ _ _ _ Hinit) as Hok0.
  assert (steady (constructed w0)) as Hst0.
  { destruct (__init___inv _ _ _ _ Hinit) as (Hall & table & r & i & Htable & Hname).
    destruct (__init___Ok callables name (fresh_world clock ticks entropy) table r i
                Hall Htable Hname) as (imm & sch & w' & Hinit' & _ & Hself & _).
    rewrite Hinit in Hinit'. simplify_eq. unfold steady, constructed.
    cbn [sys_world sys_at in_flight]. rewrite Hself. cbn [_metrics].
    split; [apply Forall_replicate, balanced_initial|]. split; [constructor|done]. }
  revert Hok0 Hst0. generalize (constructed w0). clear Hinit.
  induction evs as [|ev evs IH]; intros s Hok Hst; [done|].
  cbn. apply IH; [by apply fire_ok|by eapply fire_steady].
Qed.

(** X6. In every state the worker can reach, each metrics record is
    balanced: its runs are the sum of its failures and its successes, and
    neither of its two accumulated times is negative (also when the clock
    went backwards between two readings). *)
Theorem metrics_stay_balanced (name : string) (s : system) :
  reachable name s ->
  forall index m,
    _metrics (self (sys_world s)) !! index = Some m ->
    runs m = failures m + successes m /\ (0 <= elapsed m)%Q /\ (0 <= elapsed_waiting m)%Q.
Proof.
  intros Hreach index m Hm. destruct (reachable_steady _ _ Hreach) as (Hbal & _).
  exact (Forall_lookup_1 _ _ _ _ Hbal Hm).
Qed.

Lemma metrics_stay_balanced_witness :
  let callables := [(tagged "a" true 1 true sample_body, None, None)] in
  let evs := [EStart false; ELoop; EComplete 0 (Ok (5%Q, 3%Q, Some "Traceback"))] in
  let s := run_events evs (constructed (sample_worker callables "last_started")) in
  reachable "last_started" s /\
  (runs <$> _metrics (self (sys_world s)) !! 0) = Some 1 /\
  forall index m,
    _metrics (self (sys_world s)) !! index = Some m ->
    runs m = failures m + successes m /\ (0 <= elapsed m)%Q /\ (0 <= elapsed_waiting m)%Q.
Proof.
  intros callables evs s.
  assert (reachable "last_started" s) as Hreach.
  { exists callables, sample_clock, 0, 0%Q, (sample_worker callables "last_started"), evs.
    split; [vm_compute; reflexivity|reflexivity]. }
  split; [exact Hreach|]. split; [vm_compute; reflexivity|].
  exact (metrics_stay_balanced "last_started" s Hreach).
Defined.

(** X7. [wait] reports that the loop has ended only when it has: in every
    state the worker can reach, [wait()] returning true means that no
    thread is inside [start]'s loop. *)
Theorem wait_true_means_loop_left (name : string) (s : system) :
  reachable name s ->
  fst (wait (sys_world s)) = Ok true -> sys_at s = Left.
Proof.
  intros Hreach Hw. destruct (reachable_steady _ _ Hreach) as (_ & _ & Hdead).
  cbn in Hw. destruct (sys_at s); [| |done]; rewrite Hdead in Hw; done.
Qed.


Lemma wait_true_means_loop_left_witness :
  let callables := [(tagged "a" true 1 true sample_body, None, None)] in
  let evs := [EStart false; ELoop; EStop; ELoop] in
  let s := run_events evs (constructed (sample_worker callables "last_started")) in
  reachable "last_started" s /\ fst (wait (sys_world s)) = Ok true /\ sys_at s = Left.
Proof.
  intros callables evs s.
  assert (reachable "last_started" s) as Hreach.
  { exists callables, sample_clock, 0, 0%Q, (sample_worker callables "last_started"), evs.
    split; [vm_compute; reflexivity|reflexivity]. }
  assert (fst (wait (sys_world s)) = Ok true) as Hw by (vm_compute; reflexivity).
  split; [exact Hreach|]. split; [exact Hw|].
  exact (wait_true_means_loop_left "last_started" s Hreach Hw).
Defined.

(** ** The loop *)

(** X8. An iteration of the loop that ends in a wait sleeps for a positive
    time of at most [MAX_LOOP_IDLE] seconds, whatever the state of the
    worker and of the clock. *)
Theorem loop_wait_is_bounded (at_ at' : position) (w : world) (timeout : Q) :
  fst (_run_step at_ w) = Ok (Wait timeout, at') ->
  (0 < timeout)%Q /\ (timeout <= MAX_LOOP_IDLE)%Q.
Proof.
  intros H. pose proof (_run_step_frame at_ w) as Hf. unfold wp in Hf.
  destruct Hf as (_ & _ & _ & _ & _ & _ & Hwait). eauto.
Qed.

Lemma loop_wait_is_bounded_witness :
  let cb := tagged "tick" true 45 false sample_body in
  let s := run_events [EStart false] (constructed (sample_worker [(cb, None, None)] "last_started")) in
  fst (_run_step (sys_at s) (sys_world s)) = Ok (Wait 30, Top) /\
  (0 < 30)%Q /\ (30 <= MAX_LOOP_IDLE)%Q.
Proof.
  intros cb s.
  assert (fst (_run_step (sys_at s) (sys_world s)) = Ok (Wait 30, Top)) as H
    by (vm_compute; reflexivity).
  split; [exact H|]. exact (loop_wait_is_bounded _ _ _ _ H).
Defined.

Lemma _run_locked_due name w0 w next_run index sch' :
  worker_ok name (self w) ->
  self w0 = self w -> clock w0 = clock w -> ticks w0 = ticks w ->
  _tombstone (self w) = false ->
  pop (_schedule (self w)) = Ok ((next_run, index), sch') ->
  wp (with_waiter _run_locked)
     (fun r w' =>
        ((next_run <= clock w (ticks w))%Q ->
         exists cb cb_name args kwargs,
           _callables (self w) !! index = Some (cb, cb_name, args, kwargs) /\
           r = Ok (Submit "periodic" cb cb_name index (clock w (ticks w)) args kwargs, Top) /\
           self w' = set_schedule sch' (self w)) /\
        ((clock w (ticks w) < next_run)%Q ->
         exists sch'',
           push sch' next_run index = Ok sch'' /\
           r = Ok (Wait (py_min (next_run - clock w (ticks w)) MAX_LOOP_IDLE), Top) /\
           self w' = set_schedule sch'' (self w) /\
           _ordering sch'' ≡ₚ _ordering (_schedule (self w)))) w0.
Proof.
  intros Hok Hself Hclock Hticks Ht Hpop. ok_parts Hok.
  assert (_Schedule__len__ (_schedule (self w)) <> 0) as Hnz.
  { intros Hz. rewrite (pop_empty _ Hz) in Hpop. discriminate. }
  destruct (pop_ok _ Hord Hnz) as (e & sch1 & Hp & Hord1 & Hperm & _).
  rewrite Hpop in Hp. simplify_eq.
  destruct (push_ok sch1 next_run index Hord1) as (sch2 & Hpush & _ & Hperm2).
  destruct (worker_ok_pop name _ _ _ Hok Hpop) as [_ Hidx]. cbn [snd] in Hidx.
  destruct (lookup_lt_is_Some_2 _ _ Hidx) as [[[[cb cb_name] args] kwargs] Hat].
  unfold _run_locked. wp_steps. rewrite Hself.
  apply Nat.eqb_neq in Hnz. rewrite Hnz. wp_steps. rewrite Hself, Ht. wp_steps.
  rewrite Hself, Hpop, Hclock, Hticks. world.
  destruct (Qleb (next_run - clock w (ticks w)) 0) eqn:Hdue.
  - apply Qleb_le in Hdue. wp_steps. rewrite ?Hself, (proj2 (getitem_Ok _ _ _) Hat).
    world. wp_steps. rewrite ?Hself. split; [|intros; lra].
    intros _. by exists cb, cb_name, args, kwargs.
  - apply Qleb_gt in Hdue. wp_steps. rewrite Hpush. world. wp_steps. rewrite ?Hself.
    split; [intros; lra|]. intros _. exists sch2. split; [done|]. split; [done|].
    split; [done|]. by rewrite Hperm2, Hperm.
Qed.

(** X9. With nothing in the ImmediateSet and the worker not stopped, an
    iteration takes the entry at the head of the Schedule.  If it is due
    (its due-time is not after the reading of the clock) the callback
    registered at its index is submitted as "periodic", with that reading
    as submission time, and the entry is gone from the Schedule.  If it is
    not, nothing is submitted, the entry is pushed back, so that the
    Schedule holds the same entries as before, and the loop sleeps until the
    entry is due, or for [MAX_LOOP_IDLE] seconds if that is sooner. *)
Theorem loop_submits_what_is_due (name : string) (s : system)
    (next_run : Q) (index : nat) (sch' : _Schedule) :
  reachable name s -> sys_at s <> Left ->
  _tombstone (self (sys_world s)) = false ->
  (sys_at s = Top -> _immediates (self (sys_world s)) = []) ->
  pop (_schedule (self (sys_world s))) = Ok ((next_run, index), sch') ->
  let w := sys_world s in
  let now := clock w (ticks w) in
  let step := _run_step (sys_at s) w in
  ((next_run <= now)%Q ->
   exists cb cb_name args kwargs,
     _callables (self w) !! index = Some (cb, cb_name, args, kwargs) /\
     fst step = Ok (Submit "periodic" cb cb_name index now args kwargs, Top) /\
     self (snd step) = set_schedule sch' (self w)) /\
  ((now < next_run)%Q ->
   exists sch'',
     push sch' next_run index = Ok sch'' /\
     fst step = Ok (Wait (py_min (next_run - now) MAX_LOOP_IDLE), Top) /\
     self (snd step) = set_schedule sch'' (self w) /\
     _ordering sch'' ≡ₚ _ordering (_schedule (self w))).
Proof.
  intros Hreach Hat Ht Himm Hpop w now step. subst step now.
  apply reachable_ok in Hreach as [Hok _]. fold w in Hok, Ht, Himm, Hpop.
  match goal with |- ?P /\ ?Q =>
    change (wp (_run_step (sys_at s))
              (fun r w' =>
                 ((next_run <= clock w (ticks w))%Q ->
                  exists cb cb_name args kwargs,
                    _callables (self w) !! index = Some (cb, cb_name, args, kwargs) /\
                    r = Ok (Submit "periodic" cb cb_name index (clock w (ticks w)) args kwargs, Top) /\
                    self w' = set_schedule sch' (self w)) /\
                 ((clock w (ticks w) < next_run)%Q ->
                  exists sch'',
                    push sch' next_run index = Ok sch'' /\
                    r = Ok (Wait (py_min (next_run - clock w (ticks w)) MAX_LOOP_IDLE), Top) /\
                    self w' = set_schedule sch'' (self w) /\
                    _ordering sch'' ≡ₚ _ordering (_schedule (self w)))) w)
  end.
  unfold _run_step. destruct (sys_at s); [| |done].
  - wp_steps. rewrite Ht. wp_steps. rewrite Himm by done.
    by eapply _run_locked_due.
  - by eapply _run_locked_due.
Qed.

Lemma loop_submits_what_is_due_witness :
  let callables :=
    [(tagged "a" true 0 false sample_body, None, None);
     (tagged "b" true 7 false sample_body, None, None)] in
  let s := run_events [EStart false] (constructed (sample_worker callables "last_started")) in
  let w := sys_world s in
  reachable "last_started" s /\
  (0 <= clock w (ticks w))%Q /\
  exists cb cb_name args kwargs,
    _callables (self w) !! 0 = Some (cb, cb_name, args, kwargs) /\
    fst (_run_step (sys_at s) w)
      = Ok (Submit "periodic" cb cb_name 0 (clock w (ticks w)) args kwargs, Top).
Proof.
  intros callables s w.
  assert (reachable "last_started" s) as Hreach.
  { exists callables, sample_clock, 0, 0%Q, (sample_worker callables "last_started"),
      [EStart false].
    split; [vm_compute; reflexivity|reflexivity]. }
  assert (sys_at s <> Left) as Hat by (vm_compute; discriminate).
  assert (pop (_schedule (self (sys_world s)))
          = Ok ((Qplus 0 0, 0), {| _ordering := [(Qplus 7 0, 1)] |})) as Hpop
    by (vm_compute; reflexivity).
  assert (Qplus 0 0 <= clock w (ticks w))%Q as Hdue by (vm_compute; discriminate).
  split; [exact Hreach|]. split; [vm_compute; discriminate|].
  destruct (proj1 (loop_submits_what_is_due "last_started" s _ _ _ Hreach Hat eq_refl
                     (fun _ => eq_refl) Hpop) Hdue)
    as (cb & cb_name & args & kwargs & Hreg & Hstep & _).
  exists cb, cb_name, args, kwargs. split; [exact Hreg|exact Hstep].
Defined.

(** One iteration with nothing to do. *)
Lemma _run_step_idle at_ w :
  at_ <> Left -> _tombstone (self w) = false -> _immediates (self w) = [] ->
  _Schedule__len__ (_schedule (self w)) = 0 ->
  exists w', _run_step at_ w = (Ok (Wait MAX_LOOP_IDLE, Waiting), w') /\ self w' = self w.
Proof.
  intros Hat Ht Himm Hlen. apply wp_Ok. unfold _run_step, _run_locked.
  destruct at_; [| |done];
    repeat first [progress wp_steps | progress rewrite ?Ht, ?Himm, ?Hlen
                 | progress cbn [Nat.eqb negb]]; done.
Qed.

Lemma fire_idle s :
  sys_at s <> Left -> _tombstone (self (sys_world s)) = false ->
  _immediates (self (sys_world s)) = [] ->
  _Schedule__len__ (_schedule (self (sys_world s))) = 0 ->
  exists w', fire ELoop s
             = {| sys_world := w'; sys_at := Waiting; in_flight := in_flight s |} /\
             self w' = self (sys_world s).
Proof.
  destruct s as [w at0 fl0]. cbn [sys_world sys_at in_flight]. intros Hat Ht Himm Hlen.
  destruct (_run_step_idle _ _ Hat Ht Himm Hlen) as (w' & Hstep & Hself).
  exists w'. split; [|done]. cbn [fire sys_world sys_at in_flight].
  destruct at0; [| |done]; by rewrite Hstep.
Qed.

(** X10. A running worker with nothing queued (as after [start] with
    [allow_empty] on an empty worker) does nothing but sleep: however many
    iterations it makes, each is a wait of [MAX_LOOP_IDLE] seconds inside
    the inner loop, nothing is submitted and the worker does not change. *)
Theorem idle_worker_only_waits (s : system) (n : nat) :
  sys_at s <> Left ->
  _tombstone (self (sys_world s)) = false ->
  _immediates (self (sys_world s)) = [] ->
  _Schedule__len__ (_schedule (self (sys_world s))) = 0 ->
  let s' := run_events (replicate (S n) ELoop) s in
  fst (_run_step (sys_at s) (sys_world s)) = Ok (Wait MAX_LOOP_IDLE, Waiting) /\
  self (sys_world s') = self (sys_world s) /\
  in_flight s' = in_flight s /\
  sys_at s' = Waiting.
Proof.
  intros Hat Ht Himm Hlen. cbn zeta. split.
  { destruct (_run_step_idle _ _ Hat Ht Himm Hlen) as (w' & -> & _). done. }
  revert s Hat Ht Himm Hlen. induction n as [|n IH]; intros s Hat Ht Himm Hlen;
    destruct (fire_idle s Hat Ht Himm Hlen) as (w' & Hfire & Hself).
  - cbn [replicate run_events foldl]. rewrite Hfire. done.
  - change (run_events (replicate (S (S n)) ELoop) s)
      with (run_events (replicate (S n) ELoop) (fire ELoop s)).
    rewrite Hfire.
    destruct (IH {| sys_world := w'; sys_at := Waiting; in_flight := in_flight s |})
      as (Hs & Hf & Ha); cbn [sys_world sys_at in_flight]; rewrite ?Hself; try done.
    cbn [sys_world sys_at in_flight] in *. by rewrite Hs, Hself.
Qed.

Lemma idle_worker_only_waits_witness :
  let s := run_events [EStart true] (constructed (sample_worker [] "last_started")) in
  let s' := run_events (replicate 3 ELoop) s in
  sys_at s <> Left /\
  self (sys_world s') = self (sys_world s) /\ in_flight s' = in_flight s /\
  sys_at s' = Waiting.
Proof.
  intros s s'.
  assert (sys_at s <> Left) as Hat by (vm_compute; discriminate).
  split; [exact Hat|].
  exact (proj2 (idle_worker_only_waits s 2 Hat eq_refl eq_refl eq_refl)).
Defined.

(** ** stop *)

(** X11. [stop] never fails, and the iteration that follows it, wherever
    the loop stands, leaves the loop: nothing is submitted, no queue is
    touched, [_dead] is set, and [wait] returns true. *)
Theorem stop_ends_the_loop (s : system) :
  sys_at s <> Left ->
  let s' := fire ELoop (fire EStop s) in
  fst (stop (sys_world s)) = Ok tt /\
  sys_at s' = Left /\
  in_flight s' = in_flight s /\
  self (sys_world s') = set_dead true (set_tombstone true (self (sys_world s))) /\
  fst (wait (sys_world s')) = Ok true.
Proof.
  destruct s as [w at0 fl0]. cbn [sys_world sys_at in_flight]. intros Hat. cbn zeta.
  destruct (stop_sets_tombstone w) as (w1 & Hstop & Hself1).
  destruct (_run_step_stopped at0 w1) as (w2 & Hstep & Hself2);
    [by rewrite Hself1|done|].
  cbn [fire sys_world sys_at in_flight]. rewrite Hstop. cbn [fst snd].
  split; [done|].
  destruct at0; [| |done]; rewrite Hstep; cbn [sys_world sys_at in_flight];
    rewrite start_leave_self, Hself2, Hself1; repeat split; try done.
Qed.

Lemma stop_ends_the_loop_witness :
  let callables := [(tagged "a" true 1 true sample_body, None, None)] in
  let s := run_events [EStart false; ELoop]
             (constructed (sample_worker callables "last_started")) in
  sys_at s <> Left /\ sys_at (fire ELoop (fire EStop s)) = Left /\
  length (in_flight (fire ELoop (fire EStop s))) = 1.
Proof.
  intros callables s.
  assert (sys_at s <> Left) as Hat by (vm_compute; discriminate).
  destruct (stop_ends_the_loop s Hat) as (_ & Hleft & Hfl & _).
  split; [exact Hat|]. split; [exact Hleft|]. rewrite Hfl. reflexivity.
Defined.

Lemma fire_stopped ev s :
  _tombstone (self (sys_world s)) = true -> ev <> EReset ->
  _tombstone (self (sys_world (fire ev s))) = true /\
  in_flight (fire ev s) `sublist_of` in_flight s.
Proof.
  destruct s as [w at0 fl0]. cbn [sys_world sys_at in_flight]. intros Ht Hev.
  destruct ev as [cb args kwargs| | |allow_empty| |n fut]; [| |done| | |];
    cbn [fire sys_world sys_at in_flight].
  - pose proof (add_frame cb args kwargs w) as H. unfold wp in H.
    destruct H as (-> & _). done.
  - destruct (stop_sets_tombstone w) as (w' & -> & Hself). cbn [snd]. by rewrite Hself.
  - destruct at0; cbn [sys_world sys_at in_flight]; try done.
    pose proof (start_enter_frame allow_empty w) as H. unfold wp in H.
    destruct (start_enter allow_empty w) as [[[]|e] w']; cbn [fst snd] in *;
      destruct H as (Hs & _); cbn [sys_world sys_at in_flight]; by rewrite Hs.
  - destruct at0; cbn [sys_world sys_at in_flight]; [| |done].
    all: match goal with |- context [_run_step ?a ?w0] =>
           destruct (_run_step_stopped a w0 Ht) as (w' & -> & Hself); [done|]
         end.
    all: cbn [sys_world sys_at in_flight]; by rewrite start_leave_self, Hself.
  - destruct (fl0 !! n) as [d|] eqn:Hd; cbn [sys_world sys_at in_flight]; [|done].
    pose proof (_on_done_frame (d_kind d) (d_cb d) (d_cb_name d) (d_index d)
                  (d_submitted_at d) fut w) as H. unfold wp in H.
    destruct H as (-> & _). split; [done|]. apply sublist_delete.
Qed.

(** X12. Once [stop] has been called, and until [reset] is, nothing more
    is submitted, whatever else happens ([add], [start] again, iterations
    of the loop, completions of calls submitted before): the tombstone
    stays set and the calls in flight only get fewer. *)
Theorem stopped_worker_submits_nothing (s : system) (evs : list event) :
  Forall (fun ev => ev <> EReset) evs ->
  let s' := run_events evs (fire EStop s) in
  _tombstone (self (sys_world s')) = true /\
  in_flight s' `sublist_of` in_flight s.
Proof.
  intros Hevs. cbn zeta.
  assert (_tombstone (self (sys_world (fire EStop s))) = true /\
          in_flight (fire EStop s) `sublist_of` in_flight s) as H0.
  { cbn [fire]. destruct (stop_sets_tombstone (sys_world s)) as (w' & -> & Hself).
    cbn [snd sys_world in_flight]. by rewrite Hself. }
  revert H0. generalize (fire EStop s). intros s1 [Ht Hsub]. revert s1 Ht Hsub.
  induction Hevs as [|ev evs Hev _ IH]; intros s1 Ht Hsub; [done|].
  cbn [run_events foldl]. destruct (fire_stopped ev s1 Ht Hev) as [Ht' Hsub'].
  apply IH; [done|]. by etrans.
Qed.

Lemma stopped_worker_submits_nothing_witness :
  let callables := [(tagged "a" true 1 true sample_body, None, None)] in
  let s := run_events [EStart false]
             (constructed (sample_worker callables "last_started")) in
  let evs := [ELoop; EStart false; EAdd (tagged "b" true 1 true sample_body) [] []; ELoop] in
  Forall (fun ev => ev <> EReset) evs /\
  in_flight (run_events evs (fire EStop s)) `sublist_of` in_flight s.
Proof.
  intros callables s evs.
  assert (Forall (fun ev => ev <> EReset) evs) as Hevs by (repeat constructor; discriminate).
  split; [exact Hevs|]. exact (proj2 (stopped_worker_submits_nothing s evs Hevs)).
Defined.

(** ** Completions *)

Lemma named_strategy name me :
  worker_ok name me ->
  (name = "last_started" -> _schedule_strategy me = _last_started_strategy) /\
  (name = "last_finished" -> _schedule_strategy me = _last_finished_strategy).
Proof.
  intros (_ & _ & _ & _ & _ & table & Htable & Hname).
  rewrite BUILT_IN_STRATEGIES_eq in Htable. injection Htable as <-.
  split; intros ->;
    repeat (apply lookup_insert_Some in Hname as [[? Hname]|[? Hname]];
            [first [done|congruence]|try done]).
Qed.

(** X13. With the strategy "last_started" (or "last_finished"), when a call
    in flight completes, failed or not, its callback goes back on the
    Schedule with due-time the start (or the end) of the call plus its
    spacing; the run is counted, as a failure if a traceback came with it
    and as a success otherwise, and the two times are accumulated, each
    cut off at zero. *)
Theorem completion_reschedules (name : string) (s : system) (n : nat) (d : dispatched)
    (started_at finished_at : Q) (pretty_tb : option string) :
  reachable name s ->
  name = "last_started" \/ name = "last_finished" ->
  in_flight s !! n = Some d ->
  let s' := fire (EComplete n (Ok (started_at, finished_at, pretty_tb))) s in
  exists spacing m,
    _periodic_spacing (d_cb d) = Some spacing /\
    _metrics (self (sys_world s)) !! d_index d = Some m /\
    _ordering (_schedule (self (sys_world s'))) ≡ₚ
      (((if String.eqb name "last_started" then started_at else finished_at) + spacing)%Q,
       d_index d) :: _ordering (_schedule (self (sys_world s))) /\
    _metrics (self (sys_world s')) =
      <[d_index d :=
          {| runs := runs m + 1;
             elapsed := (elapsed m + py_max 0 (finished_at - started_at))%Q;
             elapsed_waiting :=
               (elapsed_waiting m + py_max 0 (started_at - d_submitted_at d))%Q;
             failures :=
               match pretty_tb with Some _ => failures m + 1 | None => failures m end;
             successes :=
               match pretty_tb with Some _ => successes m | None => successes m + 1 end
          |}]> (_metrics (self (sys_world s))) /\
    in_flight s' = delete n (in_flight s).
Proof.
  intros Hreach Hname Hd. cbn zeta.
  destruct (reachable_steady _ _ Hreach) as (_ & Hsp & _).
  apply reachable_ok in Hreach as [Hok Hfl].
  destruct (Forall_lookup_1 _ _ _ _ Hsp Hd) as [spacing Hs].
  pose proof (Forall_lookup_1 _ _ _ _ Hfl Hd) as Hidx. cbn in Hidx.
  pose proof Hok as (Hlen & _). rewrite <- Hlen in Hidx.
  destruct (lookup_lt_is_Some_2 _ _ Hidx) as [m Hm].
  destruct (named_strategy _ _ Hok) as [Hstarted Hfinished].
  exists spacing, m. split; [done|]. split; [done|].
  cbn [fire]. rewrite Hd. cbn [sys_world in_flight].
  destruct (_on_done_reschedules name (d_kind d) (d_cb d) (d_cb_name d) (d_index d)
              (d_submitted_at d) started_at finished_at pretty_tb (sys_world s) m
              ((if String.eqb name "last_started" then started_at else finished_at)
               + spacing)%Q)
    as (w' & Hdone & Hperm & Hms & _); [exact Hok|exact Hm|by eauto| |].
  - destruct Hname as [->| ->]; cbn [String.eqb Ascii.eqb Bool.eqb].
    + rewrite Hstarted by done. by apply last_started_returns.
    + rewrite Hfinished by done. by apply last_finished_returns.
  - rewrite Hdone. cbn [snd]. done.
Qed.

Lemma completion_reschedules_witness :
  let callables := [(tagged "a" true 4 true sample_body, None, None)] in
  let s := run_events [EStart false; ELoop]
             (constructed (sample_worker callables "last_finished")) in
  let s' := fire (EComplete 0 (Ok (10%Q, 12%Q, None))) s in
  reachable "last_finished" s /\
  exists d spacing,
    in_flight s !! 0 = Some d /\
    _periodic_spacing (d_cb d) = Some spacing /\
    _ordering (_schedule (self (sys_world s'))) ≡ₚ
      ((12 + spacing)%Q, d_index d) :: _ordering (_schedule (self (sys_world s))).
Proof.
  intros callables s s'.
  assert (reachable "last_finished" s) as Hreach.
  { exists callables, sample_clock, 0, 0%Q, (sample_worker callables "last_finished"),
      [EStart false; ELoop].
    split; [vm_compute; reflexivity|reflexivity]. }
  split; [exact Hreach|].
  destruct (in_flight s !! 0) as [d|] eqn:Hd; [|vm_compute in Hd; discriminate].
  destruct (completion_reschedules "last_finished" s 0 d 10 12 None Hreach
              (or_intror eq_refl) Hd) as (spacing & m & Hs & _ & Hperm & _).
  exists d, spacing. split; [reflexivity|]. split; [exact Hs|exact Hperm].
Defined.

(** X14. A callback that raises something [_run_callback] does not catch
    (an exception not deriving from [Exception]) is lost: the future
    carries the exception, the completion handler raises it again at
    [fut.result()], and the worker is left exactly as it was, the run not
    counted and the callback in no queue it was not in before. *)
Theorem escaped_exception_drops_callback (s : system) (n : nat) (d : dispatched)
    (args : list data) (kwargs : list (string * data)) (e : exc_class) (w1 : world) :
  in_flight s !! n = Some d ->
  invoke (d_cb d) args kwargs = Raise e -> isinstance_Exception e = false ->
  let fut := fst (_run_callback (d_cb d) args kwargs w1) in
  fut = Raise e /\
  _on_done (d_kind d) (d_cb d) (d_cb_name d) (d_index d) (d_submitted_at d) fut (sys_world s)
    = (Raise e, sys_world s) /\
  fire (EComplete n fut) s
    = {| sys_world := sys_world s; sys_at := sys_at s; in_flight := delete n (in_flight s) |}.
Proof.
  intros Hd Hinv He. cbn zeta.
  assert (fst (_run_callback (d_cb d) args kwargs w1) = Raise e) as Hfut.
  { unfold _run_callback. run. rewrite Hinv, He. done. }
  rewrite Hfut. split; [done|]. split; [done|].
  cbn [fire]. by rewrite Hd.
Qed.

Lemma escaped_exception_drops_callback_witness :
  let cb := tagged "quit" true 1 true (fun _ _ => Raise KeyboardInterrupt) in
  let s := run_events [EStart false; ELoop]
             (constructed (sample_worker [(cb, None, None)] "last_started")) in
  exists d,
    in_flight s !! 0 = Some d /\
    fire (EComplete 0 (fst (_run_callback (d_cb d) [] [] sample_world))) s
      = {| sys_world := sys_world s; sys_at := sys_at s; in_flight := delete 0 (in_flight s) |}.
Proof.
  intros cb s.
  destruct (in_flight s !! 0) as [d|] eqn:Hd; [|vm_compute in Hd; discriminate].
  assert (d_cb d = cb) as Hcb by (vm_compute in Hd; by injection Hd as <-).
  exists d. split; [reflexivity|].
  refine (proj2 (proj2 (escaped_exception_drops_callback s 0 d [] [] KeyboardInterrupt
                          sample_world Hd _ eq_refl))).
  by rewrite Hcb.
Defined.

(** ** add *)

(** X15. In every state the worker can reach, [add] returns exactly when
    the object is callable and carries the three attributes; otherwise it
    raises [ValueError], nothing else, and leaves everything as it was: it
    has not read the clock nor taken the lock. *)
Theorem add_raises_only_ValueError (name : string) (s : system) (cb : callable_obj)
    (args : list data) (kwargs : list (string * data)) :
  reachable name s ->
  (fst (add cb args kwargs (sys_world s)) = Ok tt <->
   cb_callable cb = true /\ _check_attrs cb = []) /\
  (forall e,
     fst (add cb args kwargs (sys_world s)) = Raise e ->
     e = ValueError /\ snd (add cb args kwargs (sys_world s)) = sys_world s).
Proof.
  intros Hreach. apply reachable_ok in Hreach as [Hok _].
  destruct (cb_callable cb) eqn:Hc;
    [destruct (decide (_check_attrs cb = [])) as [Ha|Ha]|].
  - destruct (add_registers name cb args kwargs _ Hok Hc Ha) as (w' & -> & _).
    split; [done|]. intros e. discriminate.
  - rewrite add_rejects by auto. split; [split; [discriminate|tauto]|].
    intros e [= <-]. done.
  - rewrite add_rejects by auto. split; [split; [discriminate|intros []; discriminate]|].
    intros e [= <-]. done.
Qed.

Lemma add_raises_only_ValueError_witness :
  let s := run_events [EStart true] (constructed (sample_worker [] "last_started")) in
  let cb := {| cb_name := "untagged"; cb_callable := true; _is_periodic := None;
               _periodic_spacing := None; _periodic_run_immediately := None;
               cb_body := sample_body |} in
  reachable "last_started" s /\
  fst (add cb [] [] (sys_world s)) = Raise ValueError /\
  snd (add cb [] [] (sys_world s)) = sys_world s.
Proof.
  intros s cb.
  assert (reachable "last_started" s) as Hreach.
  { exists [], sample_clock, 0, 0%Q, (sample_worker [] "last_started"), [EStart true].
    split; [vm_compute; reflexivity|reflexivity]. }
  split; [exact Hreach|]. split; [reflexivity|].
  exact (proj2 (proj2 (add_raises_only_ValueError "last_started" s cb [] [] Hreach)
                  ValueError eq_refl)).
Defined.



(** ** The ImmediateSet after construction *)

Lemma imap_pair_snoc {A} (l : list A) (x : A) :
  imap pair (l ++ [x]) = imap pair l ++ [(length l, x)].
Proof. rewrite imap_app. cbn. by rewrite Nat.add_0_r. Qed.

Lemma reverse_enumerate_from_reverse {A} (items : list A) (idx : nat) :
  idx <= length items ->
  reverse_enumerate_from items idx = reverse (imap pair (take idx items)).
Proof.
  induction idx as [|idx IH]; intros Hlen; [by rewrite take_0|]. cbn.
  destruct (lookup_lt_is_Some_2 items idx) as [x Hx]; [lia|]. rewrite Hx.
  rewrite (take_S_r _ _ _ Hx), imap_pair_snoc, reverse_snoc, length_take_le by lia.
  rewrite IH by lia. done.
Qed.

Lemma reverse_enumerate_reverse {A} (items : list A) :
  reverse_enumerate items = reverse (imap pair items).
Proof.
  unfold reverse_enumerate. rewrite reverse_enumerate_from_reverse by done.
  by rewrite firstn_all.
Qed.

Lemma immediate_indices_reverse (its : list (nat * registration)) :
  immediate_indices (reverse its) = reverse (immediate_indices its).
Proof.
  unfold immediate_indices. induction its as [|ir its IH]; [done|].
  rewrite reverse_cons, omap_app, IH. cbn [omap list_omap].
  destruct (_periodic_run_immediately _) as [[|]|]; cbn [omap list_omap];
    by rewrite ?reverse_cons, ?app_nil_r.
Qed.

(** The iterations that empty the ImmediateSet. *)
Lemma loop_drains_immediates name (imm : list nat) (s : system) :
  system_ok name s -> sys_at s = Top -> _tombstone (self (sys_world s)) = false ->
  _immediates (self (sys_world s)) = imm ->
  exists jobs,
    in_flight (run_events (replicate (length imm) ELoop) s) = in_flight s ++ jobs /\
    map d_index jobs = reverse imm /\
    Forall (fun d => d_kind d = "immediate") jobs /\
    _immediates (self (sys_world (run_events (replicate (length imm) ELoop) s))) = [].
Proof.
  revert s. induction imm as [|i0 l0 IH] using rev_ind; intros s Hok Hat Ht Himm.
  { exists []. cbn. by rewrite app_nil_r. }
  pose proof Hok as [(_ & Hvalid & _) _]. rewrite Himm in Hvalid.
  apply Forall_app in Hvalid as [_ Hi0]. apply Forall_inv in Hi0.
  destruct (lookup_lt_is_Some_2 _ _ Hi0) as [[[[cb cb_name] args] kwargs] Hreg].
  destruct (_run_step_immediate _ _ _ _ _ _ _ Ht Himm Hreg)
    as (w1 & Hstep & Hself & _).
  destruct (fire_ok name ELoop s Hok) as [Hok1 _].
  rewrite length_app, Nat.add_comm. cbn [length Nat.add replicate run_events foldl].
  fold (run_events (replicate (length l0) ELoop) (fire ELoop s)).
  assert (fire ELoop s =
    {| sys_world := w1; sys_at := Top;
       in_flight := in_flight s ++
         [{| d_kind := "immediate"; d_cb := cb; d_cb_name := cb_name; d_index := i0;
             d_submitted_at := clock (sys_world s) (ticks (sys_world s)) |}] |}) as Hfire.
  { cbn [fire]. rewrite Hat, Hstep. done. }
  rewrite Hfire in *. clear Hfire.
  destruct (IH _ Hok1) as (jobs & Hjobs & Hidx & Hkind & Hempty);
    [done|cbn [sys_world]; by rewrite Hself|cbn [sys_world]; by rewrite Hself|].
  cbn [in_flight] in Hjobs.
  eexists (_ :: jobs). rewrite Hjobs, <- app_assoc. split; [done|].
  split; [|split; [by constructor|done]].
  cbn [map d_index]. by rewrite Hidx, reverse_snoc.
Qed.

Lemma start_enter_allow_empty w :
  exists w', start_enter true w = (Ok tt, w') /\ self w' = set_dead false (self w).
Proof. apply wp_Ok. unfold start_enter. wp_auto; done. Qed.

(** X17. The callbacks marked to run immediately when the worker is
    constructed are submitted first and in the order of their
    registration: after construction the ImmediateSet holds their indices
    from the last to the first, and the first iterations of a started
    worker submit them, one per iteration, from the first to the last. *)
Theorem constructed_immediates_run_in_order (name : string)
    (callables : list (callable_obj * option (list data) * option (list (string * data))))
    (clock : nat -> Q) (ticks : nat) (entropy : Q) (w0 : world) :
  __init__ callables name (fresh_world clock ticks entropy) = (Ok tt, w0) ->
  let firsts := immediate_indices (imap pair (_callables (self w0))) in
  let s := fire (EStart true) (constructed w0) in
  let s' := run_events (replicate (length firsts) ELoop) s in
  _immediates (self w0) = reverse firsts /\
  map d_index (in_flight s') = firsts /\
  Forall (fun d => d_kind d = "immediate") (in_flight s') /\
  _immediates (self (sys_world s')) = [].
Proof.
  intros Hinit. cbn zeta.
  pose proof (constructed_ok _ _ _ _ Hinit) as Hok0.
  destruct (__init___inv _ _ _ _ Hinit) as (Hall & table & r & i & Htable & Hname).
  destruct (__init___Ok callables name (fresh_world clock ticks entropy) table r i
              Hall Htable Hname) as (imm & sch & w' & Hinit' & Hbuild & Hself & _).
  rewrite Hinit in Hinit'. injection Hinit' as <-.
  assert (imm = reverse (immediate_indices (imap pair (accepted callables)))) as Himm.
  { destruct (_build (accepted callables) _now_plus_periodicity
                (fresh_world clock ticks entropy)) as [res w2] eqn:Hb.
    cbn [fst] in Hbuild. subst res. unfold _build in Hb.
    apply _build_loop_exact in Hb as [-> _]; [|apply heap_ordered_nil].
    cbn [app]. by rewrite reverse_enumerate_reverse, immediate_indices_reverse. }
  assert (_callables (self w0) = accepted callables) as Hcs by (by rewrite Hself).
  assert (_immediates (self w0) = imm) as Hi by (by rewrite Hself).
  assert (_tombstone (self w0) = false) as Ht by (by rewrite Hself).
  rewrite Hcs, Hi. split; [done|].
  destruct (fire_ok name (EStart true) _ Hok0) as [Hok1 _].
  set (s := fire (EStart true) (constructed w0)) in *.
  assert (sys_at s = Top /\ _tombstone (self (sys_world s)) = false /\
          _immediates (self (sys_world s)) = imm /\ in_flight s = []) as (Hat & Ht1 & Hi1 & Hfl).
  { subst s. cbn [fire constructed sys_at sys_world in_flight].
    destruct (start_enter_allow_empty w0) as (w1 & -> & Hself1).
    cbn [sys_at sys_world in_flight]. rewrite Hself1. done. }
  destruct (loop_drains_immediates name imm s Hok1 Hat Ht1 Hi1)
    as (jobs & Hjobs & Hidx & Hkind & Hempty).
  assert (length (immediate_indices (imap pair (accepted callables))) = length imm) as Hlen
    by (by rewrite Himm, length_reverse).
  rewrite Hlen, Hjobs, Hfl. cbn [app].
  split; [by rewrite Hidx, Himm, reverse_involutive|]. done.
Qed.

Lemma constructed_immediates_run_in_order_witness :
  let callables :=
    [(tagged "a" true 1 true sample_body, None, None);
     (tagged "b" true 2 false sample_body, None, None);
     (tagged "c" true 3 true sample_body, None, None)] in
  let w0 := sample_worker callables "last_started" in
  let s := fire (EStart true) (constructed w0) in
  __init__ callables "last_started" sample_world = (Ok tt, w0) /\
  _immediates (self w0) = [2; 0] /\
  map d_index (in_flight (run_events (replicate 2 ELoop) s)) = [0; 2].
Proof.
  intros callables w0 s.
  assert (__init__ callables "last_started" sample_world = (Ok tt, w0)) as Hinit
    by (vm_compute; reflexivity).
  split; [exact Hinit|].
  destruct (constructed_immediates_run_in_order "last_started" callables sample_clock 0 0
              w0 Hinit) as (Himm & Hidx & _).
  split; [exact Himm|exact Hidx].
Defined.

(** ** _on_finish *)

Ltac world_in H :=
  cbn [fst snd self clock ticks entropy lock_held accesses logged
       set_self set_lock_held set_accesses tick record_log record_access] in H.

Lemma _on_finish_loop_ok (it : list (nat * metrics_rec)) w :
  Forall (fun im : nat * metrics_rec =>
            exists r : registration,
              _callables (self w) !! im.1 = Some r /\ is_Some (_periodic_spacing r.1.1.1)) it ->
  exists w',
    _on_finish_loop it w = (Ok tt, w') /\ self w' = self w /\
    length (logged w') =
      length (logged w) + 5 * length it
      + 2 * length (List.filter (fun im : nat * metrics_rec => 0 <? runs im.2) it).
Proof.
  revert w. induction it as [|[index metrics] it IH]; intros w Hall.
  { exists w. cbn. split; [done|]. split; [done|]. lia. }
  apply Forall_cons in Hall as [([[[cb cb_name] args] kwargs] & Hr & [sp Hs]) Hall].
  cbn [fst snd] in Hr, Hs.
  apply wp_Ok. cbn [_on_finish_loop List.filter snd]. wp_steps.
  rewrite (proj2 (getitem_Ok _ _ _) Hr). world. wp_steps. rewrite Hs. world. wp_steps.
  destruct (0 <? runs metrics) eqn:Hruns.
  - unfold py_div. apply Nat.ltb_lt in Hruns.
    rewrite (proj2 (Nat.eqb_neq _ _)) by lia. wp_steps.
    match goal with |- wp _ _ ?w2 =>
      destruct (IH w2) as (w' & Hloop & Hself & Hlog); [done|];
      eapply wp_eq; [exact Hloop|]
    end.
    world_in Hself. world_in Hlog. rewrite !length_app in Hlog. cbn [length] in *.
    split; [done|]. split; [done|]. lia.
  - wp_steps.
    match goal with |- wp _ _ ?w2 =>
      destruct (IH w2) as (w' & Hloop & Hself & Hlog); [done|];
      eapply wp_eq; [exact Hloop|]
    end.
    world_in Hself. world_in Hlog. rewrite !length_app in Hlog. cbn [length] in *.
    split; [done|]. split; [done|]. lia.
Qed.

Lemma filter_imap_length {A B} (P : A -> bool) (g : nat -> B) (l : list A) :
  length (List.filter (fun im : B * A => P im.2) (imap (fun i x => (g i, x)) l))
  = length (List.filter P l).
Proof.
  revert g. induction l as [|x l IH]; intros g; [done|].
  rewrite imap_cons. cbn [List.filter snd].
  specialize (IH (g ∘ S)). destruct (P x); cbn [length]; by rewrite <- IH.
Qed.

(** X18. In every state the worker can reach, [_on_finish] returns
    without an error and changes nothing of the worker: every metrics
    record has its registry entry, every registered callback has a
    spacing, and the averages are computed only for a callback that ran,
    so no division by zero occurs.  With debug logging off it logs
    nothing; with it on it logs five lines for each callback and two more
    for each callback that ran at least once. *)
Theorem on_finish_reports_without_failing (name : string) (s : system)
    (debug_enabled : bool) :
  reachable name s ->
  let w := sys_world s in
  exists w',
    _on_finish debug_enabled w = (Ok tt, w') /\
    self w' = self w /\
    length (logged w') =
      length (logged w) +
      (if debug_enabled
       then 5 * length (_metrics (self w))
            + 2 * length (List.filter (fun m => 0 <? runs m) (_metrics (self w)))
       else 0).
Proof.
  intros Hreach w. apply reachable_ok in Hreach as [Hok _]. fold w in Hok.
  ok_parts Hok. unfold _on_finish. destruct debug_enabled; cbn [negb].
  - apply wp_Ok. wp_steps.
    match goal with |- wp _ _ ?w2 =>
      destruct (_on_finish_loop_ok (imap pair (_metrics (self w))) w2)
        as (w' & Hloop & Hself & Hlog); [|eapply wp_eq; [exact Hloop|]]
    end.
    + apply Forall_forall. intros [index m] Hin.
      apply elem_of_lookup_imap_1 in Hin as (i & y & [= -> ->] & Hy).
      apply lookup_lt_Some in Hy. rewrite Hlen in Hy.
      destruct (lookup_lt_is_Some_2 _ _ Hy) as [r Hr]. exists r. split; [done|].
      destruct (Forall_lookup_1 _ _ _ _ Hreg Hr) as (_ & Ha & _).
      apply _check_attrs_nil in Ha as (? & ? & ? & _ & -> & _). done.
    + world_in Hself. world_in Hlog.
      rewrite length_imap, (filter_imap_length (fun m => 0 <? runs m) id) in Hlog.
      split; [done|]. split; [done|]. lia.
  - exists w. split; [done|]. split; [done|]. lia.
Qed.

Lemma on_finish_reports_without_failing_witness :
  let callables :=
    [(tagged "a" true 1 true sample_body, None, None);
     (tagged "b" true 2 false sample_body, None, None)] in
  let evs := [EStart false; ELoop; EComplete 0 (Ok (1%Q, 2%Q, None)); EStop; ELoop] in
  let s := run_events evs (constructed (sample_worker callables "last_started")) in
  reachable "last_started" s /\
  exists w', _on_finish true (sys_world s) = (Ok tt, w') /\
             self w' = self (sys_world s) /\
             length (logged w') = length (logged (sys_world s)) + 12.
Proof.
  intros callables evs s.
  assert (reachable "last_started" s) as Hreach.
  { exists callables, sample_clock, 0, 0%Q, (sample_worker callables "last_started"), evs.
    split; [vm_compute; reflexivity|reflexivity]. }
  split; [exact Hreach|].
  destruct (on_finish_reports_without_failing "last_started" s true Hreach)
    as (w' & Hfin & Hself & Hlog).
  exists w'. split; [exact Hfin|]. split; [exact Hself|]. rewrite Hlog. reflexivity.
Defined.

(** ** Where the indices are *)

Lemma getitem_Raise {A} (l : list A) i e : getitem l i = Raise e -> length l <= i.
Proof.
  unfold getitem. destruct (l !! i) eqn:E; [discriminate|]. intros _.
  by apply lookup_ge_None.
Qed.

Lemma pop_Ok_perm sch e sch' :
  heap_ordered entry_lt (_ordering sch) -> pop sch = Ok (e, sch') ->
  _ordering sch ≡ₚ e :: _ordering sch' /\ heap_ordered entry_lt (_ordering sch').
Proof.
  intros Hord Hpop.
  destruct (decide (_Schedule__len__ sch = 0)) as [Hz|Hnz].
  { rewrite (pop_empty _ Hz) in Hpop. discriminate. }
  destruct (pop_ok sch Hord Hnz) as (e' & sch1 & Hp & Hord' & Hperm & _).
  rewrite Hp in Hpop. by simplify_eq.
Qed.

Lemma push_back_Ok sch next_run index r :
  heap_ordered entry_lt (_ordering sch) ->
  (try! sch' := push sch next_run index in Ok (tt, sch')) = r ->
  exists sch', r = Ok (tt, sch') /\ _ordering sch' ≡ₚ (next_run, index) :: _ordering sch.
Proof.
  intros Hord <-. destruct (push_ok sch next_run index Hord) as (sch' & -> & _ & Hperm).
  by exists sch'.
Qed.

Lemma _run_step_moves name at_ w imm ord :
  worker_ok name (self w) ->
  _immediates (self w) = imm -> _ordering (_schedule (self w)) = ord ->
  wp (_run_step at_)
     (fun r w' =>
        _immediates (self w') ++ map snd (_ordering (_schedule (self w'))) ++
          match r with
          | Ok (Submit _ _ _ index _ _ _, _) => [index]
          | _ => []
          end
        ≡ₚ imm ++ map snd ord) w.
Proof.
  intros Hok Himm0 Hord0. ok_parts Hok. unfold _run_step, _run_locked.
  destruct at_; wp_auto.
  all: subst imm ord; rewrite ?app_nil_r; try done.
  all: repeat match goal with
       | H : list_pop _ = Ok _ |- _ => apply list_pop_Ok in H
       | H : pop _ = Ok _ |- _ => apply (pop_Ok_perm _ _ _ Hord) in H as [? ?]
       | H : obind (push _ _ _) _ = _ |- _ =>
           apply push_back_Ok in H as (? & ? & ?); [|done]
       | H : getitem _ _ = Raise _ |- _ => apply getitem_Raise in H
       end.
  all: try match goal with
       | H : _immediates (self _) = _ |- _ => rewrite ?H in *
       end; try done.
  all: try match goal with
       | Hi : _ :: _ = ?l0 ++ [?n0], Hg : length _ <= ?n0 |- _ =>
           exfalso; rewrite Hi in Himm; apply Forall_app in Himm as [_ Hn];
           apply Forall_inv in Hn; lia
       | Hi : ?l0 ++ [?n0] = _ :: _, Hg : length _ <= ?n0 |- _ =>
           exfalso; rewrite <- Hi in Himm; apply Forall_app in Himm as [_ Hn];
           apply Forall_inv in Hn; lia
       | Hp : _ordering (_schedule (self _)) ≡ₚ (_, ?n) :: _, Hg : length _ <= ?n |- _ =>
           exfalso; rewrite Hp in Hsch; apply Forall_cons in Hsch as [Hn _];
           cbn in Hn; lia
       end.
  all: try match goal with
       | Hi : _ :: _ = ?l0 ++ [?n0] |- _ =>
           rewrite Hi, <- app_assoc; apply Permutation_app_head, Permutation_app_comm
       | Hi : ?l0 ++ [?n0] = _ :: _ |- _ =>
           rewrite <- Hi, <- app_assoc; apply Permutation_app_head, Permutation_app_comm
       | Hp : _ordering (_schedule (self _)) ≡ₚ _, Hq : _ordering _ ≡ₚ _ |- _ =>
           simplify_eq; by rewrite Hq, Hp
       | Hp : _ordering (_schedule (self _)) ≡ₚ _ |- _ =>
           rewrite Hp; cbn [map snd]; apply Permutation_app_head;
           symmetry; apply Permutation_cons_append
       end.
Qed.
Lemma start_enter_queues allow_empty w :
  wp (start_enter allow_empty)
     (fun r w' =>
        _immediates (self w') = _immediates (self w) /\
        _schedule (self w') = _schedule (self w) /\
        _callables (self w') = _callables (self w)) w.
Proof. unfold start_enter. wp_auto; done. Qed.

(** A completion under one of the two plain strategies. *)
Lemma _on_done_plain name s n d started_at finished_at pretty_tb :
  name = "last_started" \/ name = "last_finished" ->
  system_ok name s -> steady s -> in_flight s !! n = Some d ->
  exists spacing m w',
    _periodic_spacing (d_cb d) = Some spacing /\
    _metrics (self (sys_world s)) !! d_index d = Some m /\
    _on_done (d_kind d) (d_cb d) (d_cb_name d) (d_index d) (d_submitted_at d)
      (Ok (started_at, finished_at, pretty_tb)) (sys_world s) = (Ok tt, w') /\
    _ordering (_schedule (self w')) ≡ₚ
      (((if String.eqb name "last_started" then started_at else finished_at) + spacing)%Q,
       d_index d) :: _ordering (_schedule (self (sys_world s))) /\
    _immediates (self w') = _immediates (self (sys_world s)) /\
    _callables (self w') = _callables (self (sys_world s)).
Proof.
  intros Hname [Hok Hfl] (_ & Hsp & _) Hd.
  destruct (Forall_lookup_1 _ _ _ _ Hsp Hd) as [spacing Hs].
  pose proof (Forall_lookup_1 _ _ _ _ Hfl Hd) as Hidx. cbn in Hidx.
  pose proof Hok as (Hlen & _). rewrite <- Hlen in Hidx.
  destruct (lookup_lt_is_Some_2 _ _ Hidx) as [m Hm].
  destruct (named_strategy _ _ Hok) as [Hstarted Hfinished].
  destruct (_on_done_reschedules name (d_kind d) (d_cb d) (d_cb_name d) (d_index d)
              (d_submitted_at d) started_at finished_at pretty_tb (sys_world s) m
              ((if String.eqb name "last_started" then started_at else finished_at)
               + spacing)%Q)
    as (w' & Hdone & Hperm & _ & Hi & Hcs); [exact Hok|exact Hm|by eauto| |].
  - destruct Hname as [->| ->]; cbn [String.eqb Ascii.eqb Bool.eqb].
    + rewrite Hstarted by done. by apply last_started_returns.
    + rewrite Hfinished by done. by apply last_finished_returns.
  - by exists spacing, m, w'.
Qed.

Lemma fire_conserves name ev s :
  name = "last_started" \/ name = "last_finished" ->
  system_ok name s -> steady s -> keeps_callbacks ev = true ->
  held s ≡ₚ seq 0 (length (_callables (self (sys_world s)))) ->
  held (fire ev s) ≡ₚ seq 0 (length (_callables (self (sys_world (fire ev s))))).
Proof.
  intros Hname Hsys Hst Hev. pose proof Hsys as [Hok Hfl].
  destruct ev as [cb args kwargs| | |allow_empty| |n [[[started_at finished_at] tb]|e]];
    try discriminate Hev; unfold held; destruct s as [w at0 fl0];
    cbn [fire sys_world sys_at in_flight] in *.
  - destruct (cb_callable cb) eqn:Hc;
      [destruct (decide (_check_attrs cb = [])) as [Ha|Ha]|].
    + destruct (add_registers name cb args kwargs _ Hok Hc Ha)
        as (w' & -> & _ & Hcs & _ & Hwhere). cbn [snd].
      rewrite Hcs, length_app. cbn [length]. rewrite Nat.add_1_r, seq_S. cbn [Nat.add].
      intros H. rewrite <- H.
      destruct Hwhere as [(_ & -> & ->)|(_ & -> & spacing & _ & ->)]; cbn [map snd].
      * rewrite <- !app_assoc. apply Permutation_app_head.
        rewrite (Permutation_app_comm [_]), <- !app_assoc. done.
      * rewrite !app_assoc, <- Permutation_cons_append.
        rewrite <- !app_assoc. symmetry. apply Permutation_middle.
    + rewrite add_rejects by auto. done.
    + rewrite add_rejects by auto. done.
  - destruct (stop_sets_tombstone w) as (w' & -> & Hself). cbn [snd]. by rewrite Hself.
  - destruct at0; cbn [sys_world sys_at in_flight]; try done.
    pose proof (start_enter_queues allow_empty w) as H. unfold wp in H.
    destruct (start_enter allow_empty w) as [[[]|e] w']; cbn [fst snd] in *;
      destruct H as (Hi & Hs & Hc); cbn [sys_world sys_at in_flight];
      by rewrite Hi, Hs, Hc.
  - pose proof (_run_step_moves name at0 w _ _ Hok eq_refl eq_refl) as Hmove.
    pose proof (_run_step_frame at0 w) as Hframe. unfold wp in Hmove, Hframe.
    destruct Hframe as (_ & _ & _ & Hcs & _).
    destruct at0; cbn [sys_world sys_at in_flight]; [| |done].
    all: destruct (_run_step _ w) as [[[act at']|e] w']; cbn [fst snd] in *.
    all: try destruct act; cbn [sys_world sys_at in_flight];
      rewrite ?start_leave_self; cbn [_immediates _schedule _callables set_dead].
    all: rewrite Hcs; intros H; rewrite <- H.
    all: rewrite ?app_nil_r in Hmove; rewrite ?map_app; cbn [map d_index].
    all: rewrite !app_assoc; rewrite ?app_assoc in Hmove.
    all: try (by rewrite Hmove).
    all: rewrite <- Hmove, <- !app_assoc; do 2 apply Permutation_app_head;
      apply Permutation_app_comm.
  - destruct (fl0 !! n) as [d|] eqn:Hd; cbn [sys_world sys_at in_flight]; [|done].
    destruct (_on_done_plain name {| sys_world := w; sys_at := at0; in_flight := fl0 |}
                n d started_at finished_at tb Hname Hsys Hst Hd)
      as (spacing & m & w' & _ & _ & Hdone & Hperm & Hi & Hcs).
    cbn [sys_world] in *. rewrite Hdone. cbn [snd]. rewrite Hi, Hcs, Hperm.
    intros H. rewrite <- H. cbn [map snd].
    pose proof (Permutation_map d_index (delete_Permutation fl0 n d Hd)) as Hd'.
    cbn [map] in Hd'. rewrite Hd'.
    apply Permutation_app_head. cbn [app]. apply Permutation_middle.
Qed.

Lemma map_fst_imap {A B} (g : nat -> B) (l : list A) :
  map fst (imap (fun i x => (g i, x)) l) = map g (seq 0 (length l)).
Proof.
  revert g. induction l as [|x l IH]; intros g; [done|].
  rewrite imap_cons. cbn [map fst length seq]. f_equal.
  rewrite <- seq_shift, map_map. apply (IH (g ∘ S)).
Qed.

Lemma map_fst_enumerate {A} (l : list A) : map fst (imap pair l) = seq 0 (length l).
Proof. exact (eq_trans (map_fst_imap id l) (map_id _)). Qed.

Lemma queues_partition now (its : list (nat * registration)) :
  Forall (fun ir => registered_ok ir.2) its ->
  immediate_indices its ++ map snd (initial_entries now its) ≡ₚ map fst its.
Proof.
  induction 1 as [|[index [[[cb cb_name] args] kwargs]] its (_ & Ha & _) _ IH]; [done|].
  rewrite immediate_indices_cons, initial_entries_cons. cbn [fst snd map] in *.
  apply _check_attrs_nil in Ha as (marker & spacing & ri & _ & -> & ->).
  destruct ri; cbn [map snd app].
  - by rewrite IH.
  - by rewrite <- Permutation_middle, IH.
Qed.

Lemma constructed_conserves callables name w w0 :
  __init__ callables name w = (Ok tt, w0) ->
  held (constructed w0) ≡ₚ seq 0 (length (_callables (self w0))).
Proof.
  intros Hinit.
  destruct (__init___inv _ _ _ _ Hinit) as (Hall & table & r & i & Htable & Hname).
  destruct (__init___Ok callables name w table r i Hall Htable Hname)
    as (imm & sch & w' & Hinit' & Hbuild & Hself & _).
  rewrite Hinit in Hinit'. injection Hinit' as <-.
  unfold held, constructed. cbn [sys_world in_flight map]. rewrite Hself, app_nil_r.
  cbn [_immediates _schedule _callables].
  destruct (_build (accepted callables) _now_plus_periodicity w) as [res w2] eqn:Hb.
  cbn [fst] in Hbuild. subst res. unfold _build in Hb.
  apply _build_loop_exact in Hb as [-> Hperm]; [|apply heap_ordered_nil].
  cbn [app]. rewrite Hperm, app_nil_r, queues_partition.
  - rewrite reverse_enumerate_reverse, <- map_fst_enumerate.
    apply Permutation_map, reverse_Permutation.
  - pose proof (reverse_enumerate_valid (accepted callables)) as Hv.
    eapply Forall_impl; [exact Hv|]. intros [index reg] Hl. cbn in *.
    eapply Forall_lookup_1; [|exact Hl]. by apply accepted_registered.
Qed.

(** X19. With the strategy "last_started" or "last_finished", as long as
    there is no [reset] and no call ends with an exception that
    [_run_callback] lets through, no callback is lost and none is queued
    twice: after any events, every index of the registry is held exactly
    once, in the ImmediateSet, in the Schedule or by a call in flight. *)
Theorem every_callback_is_held_once (name : string)
    (callables : list (callable_obj * option (list data) * option (list (string * data))))
    (clock : nat -> Q) (ticks : nat) (entropy : Q) (w0 : world) (evs : list event) :
  name = "last_started" \/ name = "last_finished" ->
  __init__ callables name (fresh_world clock ticks entropy) = (Ok tt, w0) ->
  forallb keeps_callbacks evs = true ->
  let s := run_events evs (constructed w0) in
  held s ≡ₚ seq 0 (length (_callables (self (sys_world s)))).
Proof.
  intros Hname Hinit Hevs. cbn zeta.
  pose proof (constructed_ok _ _ _ _ Hinit) as Hok0.
  assert (reachable name (constructed w0)) as Hreach0.
  { exists callables, clock, ticks, entropy, w0, []. by split. }
  pose proof (reachable_steady _ _ Hreach0) as Hst0.
  pose proof (constructed_conserves _ _ _ _ Hinit) as Hheld0.
  change (held (constructed w0)
          ≡ₚ seq 0 (length (_callables (self (sys_world (constructed w0)))))) in Hheld0.
  clear Hreach0 Hinit. revert Hok0 Hst0 Hheld0. generalize (constructed w0).
  induction evs as [|ev evs IH]; intros s Hok Hst Hheld; [exact Hheld|].
  cbn [forallb] in Hevs. apply andb_true_iff in Hevs as [Hev Hevs].
  cbn [run_events foldl]. apply IH; [done|by apply fire_ok|by eapply fire_steady|].
  by apply (fire_conserves name).
Qed.

Lemma every_callback_is_held_once_witness :
  let callables :=
    [(tagged "a" true 1 true sample_body, None, None);
     (tagged "b" true 2 false sample_body, None, None)] in
  let w0 := sample_worker callables "last_started" in
  let evs := [EStart false; ELoop; EAdd (tagged "c" true 3 false sample_body) [] [];
              EComplete 0 (Ok (1%Q, 2%Q, None)); ELoop] in
  __init__ callables "last_started" sample_world = (Ok tt, w0) /\
  forallb keeps_callbacks evs = true /\
  held (run_events evs (constructed w0)) ≡ₚ [0; 1; 2].
Proof.
  intros callables w0 evs.
  assert (__init__ callables "last_started" sample_world = (Ok tt, w0)) as Hinit
    by (vm_compute; reflexivity).
  split; [exact Hinit|]. split; [reflexivity|].
  pose proof (every_callback_is_held_once "last_started" callables sample_clock 0 0 w0 evs
                (or_introl eq_refl) Hinit eq_refl) as H.
  assert (length (_callables (self (sys_world (run_events evs (constructed w0))))) = 3)
    as Hlen by (vm_compute; reflexivity).
  cbn zeta in H. rewrite Hlen in H. exact H.
Defined.

(** ** reset while calls are in flight *)

Lemma reachable_fire name ev s : reachable name s -> reachable name (fire ev s).
Proof.
  intros (callables & clock & ticks & entropy & w0 & evs & Hinit & ->).
  exists callables, clock, ticks, entropy, w0, (evs ++ [ev]). split; [done|].
  unfold run_events. by rewrite foldl_app.
Qed.

Lemma reset_queues_all name w :
  worker_ok name (self w) ->
  _immediates (self (snd (reset w)))
    ++ map snd (_ordering (_schedule (self (snd (reset w)))))
  ≡ₚ seq 0 (length (_callables (self w))) /\
  _callables (self (snd (reset w))) = _callables (self w).
Proof.
  intros Hok. ok_parts Hok.
  destruct (reset_rebuilds name w Hok) as (imm & sch & w' & -> & Hbuild & Hself & _).
  cbn [snd]. rewrite Hself. cbn [_immediates _schedule _callables set_schedule
    set_immediates set_metrics set_dead set_tombstone]. split; [|done].
  destruct (_build (_callables (self w)) _now_plus_periodicity w) as [res w2] eqn:Hb.
  cbn [fst] in Hbuild. subst res. unfold _build in Hb.
  apply _build_loop_exact in Hb as [-> Hperm]; [|apply heap_ordered_nil].
  cbn [app]. rewrite Hperm, app_nil_r, queues_partition.
  - rewrite reverse_enumerate_reverse, <- map_fst_enumerate.
    apply Permutation_map, reverse_Permutation.
  - pose proof (reverse_enumerate_valid (_callables (self w))) as Hv.
    eapply Forall_impl; [exact Hv|]. intros [index reg] Hl. cbn in *.
    by eapply Forall_lookup_1.
Qed.

(** X20. [reset] does not know of the calls in flight.  It puts every
    index of the registry back in the ImmediateSet or in the Schedule, the
    index of a call in flight too; when that call completes (with the
    strategy "last_started" or "last_finished") its index is pushed once
    more, and the two queues then hold every index once and that one
    twice. *)
Theorem reset_in_flight_queues_twice (name : string) (s : system) (n : nat)
    (d : dispatched) (started_at finished_at : Q) (pretty_tb : option string) :
  name = "last_started" \/ name = "last_finished" ->
  reachable name s -> in_flight s !! n = Some d ->
  let s1 := fire EReset s in
  let s2 := fire (EComplete n (Ok (started_at, finished_at, pretty_tb))) s1 in
  let registry := _callables (self (sys_world s)) in
  d_index d < length registry /\
  _immediates (self (sys_world s1)) ++ map snd (_ordering (_schedule (self (sys_world s1))))
    ≡ₚ seq 0 (length registry) /\
  _immediates (self (sys_world s2)) ++ map snd (_ordering (_schedule (self (sys_world s2))))
    ≡ₚ d_index d :: seq 0 (length registry).
Proof.
  intros Hname Hreach Hd. cbn zeta.
  pose proof (reachable_fire name EReset s Hreach) as Hreach1.
  pose proof (reachable_ok _ _ Hreach) as [Hok Hfl].
  pose proof (reachable_ok _ _ Hreach1) as Hsys1.
  pose proof (reachable_steady _ _ Hreach1) as Hst1.
  destruct (reset_queues_all name (sys_world s) Hok) as [Hall Hcs].
  split; [exact (Forall_lookup_1 _ _ _ _ Hfl Hd)|].
  assert (sys_world (fire EReset s) = snd (reset (sys_world s))) as Hw1 by done.
  assert (in_flight (fire EReset s) !! n = Some d) as Hd1 by done.
  set (s1 := fire EReset s) in *.
  rewrite Hw1. split; [exact Hall|].
  destruct (_on_done_plain name s1 n d started_at finished_at pretty_tb
              Hname Hsys1 Hst1 Hd1)
    as (spacing & m & w' & _ & _ & Hdone & Hperm & Hi & _).
  cbn [fire]. rewrite Hd1, Hdone. cbn [snd sys_world].
  rewrite Hi, Hperm, Hw1. cbn [map snd]. by rewrite <- Permutation_middle, Hall.
Qed.

Lemma reset_in_flight_queues_twice_witness :
  let callables := [(tagged "a" true 1 true sample_body, None, None)] in
  let s := run_events [EStart false; ELoop]
             (constructed (sample_worker callables "last_started")) in
  let s2 := fire (EComplete 0 (Ok (1%Q, 2%Q, None))) (fire EReset s) in
  reachable "last_started" s /\
  exists d, in_flight s !! 0 = Some d /\
    _immediates (self (sys_world s2)) ++ map snd (_ordering (_schedule (self (sys_world s2))))
    ≡ₚ [0; 0].
Proof.
  intros callables s s2.
  assert (reachable "last_started" s) as Hreach.
  { exists callables, sample_clock, 0, 0%Q, (sample_worker callables "last_started"),
      [EStart false; ELoop].
    split; [vm_compute; reflexivity|reflexivity]. }
  split; [exact Hreach|].
  destruct (in_flight s !! 0) as [d|] eqn:Hd; [|vm_compute in Hd; discriminate].
  exists d. split; [reflexivity|].
  destruct (reset_in_flight_queues_twice "last_started" s 0 d 1 2 None
              (or_introl eq_refl) Hreach Hd) as (_ & _ & H).
  assert (d_index d = 0) as Hidx by (vm_compute in Hd; by injection Hd as <-).
  rewrite Hidx in H. exact H.
Defined.
